(** * Crossword CSP solver (generate.py): AC-3 and backtracking search

    A shallow embedding of [CrosswordCreator] from [generate.py].

    - Python [str] is [string]; [s[i]] raises [IndexError] out of range.
    - A Python [dict] is an insertion-ordered association list
      ([Dict.t]): iteration follows insertion order, [d[k]] raises
      [KeyError] on a missing key, [d[k] = v] overwrites in place or
      appends.
    - A Python [set] of words or slots is the list of its elements in
      the order in which the set is iterated; removing an element keeps
      the relative order of the others.  Python fixes that order per
      process (strings are hashed with a per-process seed), so it is an
      input here: results that do not mention the order hold for every
      order.
    - [self.domains] is threaded explicitly through every method that
      mutates it.  Every domain is its own set ([__init__] copies the
      vocabulary per slot), so the store is a dictionary of values.
    - The assignment dictionaries handed around by [backtrack] live in a
      heap of dict objects addressed by reference, so that copying and
      in-place update are told apart.
    - Exceptions and the exhaustion of recursion fuel are outcomes of the
      result type [res]. *)

From Stdlib Require Import List String Ascii Bool Arith ZArith Lia.
From Stdlib Require Import Permutation Sorted.
Import ListNotations.

Local Open Scope list_scope.

(** ** Outcomes: a value, a raised exception, or out of fuel *)

Inductive exn : Type := KeyError | IndexError | ValueError.

Inductive res (A : Type) : Type :=
| Ok (a : A)
| Raise (e : exn)
| OutOfFuel.

Arguments Ok {A} a.
Arguments Raise {A} e.
Arguments OutOfFuel {A}.

Definition bind {A B : Type} (m : res A) (k : A -> res B) : res B :=
  match m with
  | Ok a => k a
  | Raise e => Raise e
  | OutOfFuel => OutOfFuel
  end.

Notation "x <- m ;; k" := (bind m (fun x => k))
  (at level 61, m at next level, right associativity).
Notation "' p <- m ;; k" := (bind m (fun x => let 'p := x in k))
  (at level 61, p pattern, m at next level, right associativity).

(** Monadic left fold: a [for] loop whose body may raise. *)
Fixpoint foldM {A B : Type} (f : B -> A -> res B) (l : list A) (b : B) : res B :=
  match l with
  | [] => Ok b
  | a :: l' => b' <- f b a ;; foldM f l' b'
  end.

(** Monadic map: a comprehension whose element expression may raise. *)
Fixpoint mapM {A B : Type} (f : A -> res B) (l : list A) : res (list B) :=
  match l with
  | [] => Ok []
  | a :: l' => b <- f a ;; bs <- mapM f l' ;; Ok (b :: bs)
  end.

Definition of_option {A : Type} (e : exn) (o : option A) : res A :=
  match o with
  | Some a => Ok a
  | None => Raise e
  end.

Definition is_nil {A : Type} (l : list A) : bool :=
  match l with [] => true | _ => false end.

(** ** Decidable equality on keys *)

Class EqDec (K : Type) := eq_dec : forall a b : K, {a = b} + {a <> b}.

Definition eqb {K : Type} `{EqDec K} (a b : K) : bool :=
  if eq_dec a b then true else false.

#[export] Instance nat_EqDec : EqDec nat := Nat.eq_dec.
#[export] Instance string_EqDec : EqDec string := string_dec.

#[export] Instance pair_EqDec {A B : Type} `{EqDec A} `{EqDec B} : EqDec (A * B).
Proof.
  intros [a1 b1] [a2 b2].
  destruct (eq_dec a1 a2) as [Ha | Ha].
  - destruct (eq_dec b1 b2) as [Hb | Hb].
    + left. now subst.
    + right. intros E. apply Hb. now inversion E.
  - right. intros E. apply Ha. now inversion E.
Defined.

(** ** Insertion-ordered dictionaries *)

Module Dict.
Section Dict.
Context {K V : Type} `{EqDec K}.

Definition t := list (K * V).

(** [d.get(k)] *)
Fixpoint get (k : K) (d : t) : option V :=
  match d with
  | [] => None
  | (k', v) :: d' => if eq_dec k k' then Some v else get k d'
  end.

(** [d[k]] *)
Definition getitem (d : t) (k : K) : res V := of_option KeyError (get k d).

(** [k in d] *)
Definition mem (k : K) (d : t) : bool :=
  match get k d with Some _ => true | None => false end.

(** [d[k] = v]: overwrite in place, or append a new entry. *)
Fixpoint setitem (k : K) (v : V) (d : t) : t :=
  match d with
  | [] => [(k, v)]
  | (k', v') :: d' =>
      if eq_dec k k' then (k, v) :: d' else (k', v') :: setitem k v d'
  end.

Definition keys (d : t) : list K := map fst d.
Definition values (d : t) : list V := map snd d.

End Dict.
Arguments t : clear implicits.
End Dict.

(** ** Python sets of values, as lists without repetition *)

Section PySet.
Context {A : Type} `{EqDec A}.

(** [v in s] *)
Definition set_mem (v : A) (s : list A) : bool := existsb (eqb v) s.

(** [s.add(v)] *)
Definition set_add (v : A) (s : list A) : list A :=
  if set_mem v s then s else s ++ [v].

(** [s.remove(v)]: raises [KeyError] when [v] is not a member. *)
Definition set_remove (v : A) (s : list A) : res (list A) :=
  if set_mem v s then Ok (filter (fun w => negb (eqb w v)) s)
  else Raise KeyError.

End PySet.

(** ** Strings *)

#[export] Instance ascii_EqDec : EqDec ascii := ascii_dec.

(** [s[i]] for a non-negative index. *)
Definition index (s : string) (i : nat) : res ascii :=
  of_option IndexError (String.get i s).

(** ** Slots and the puzzle structure

    Modelled from the spec: the classes [Variable] and [Crossword] live
    in [crossword.py], which is not among the sources.  The records
    carry the attributes that the solver reads: a slot's starting row and
    column, direction and length, and the crossword's set of slots
    ([variables]), vocabulary ([words]) and overlap table ([overlaps],
    keyed by ordered pairs of slots). *)

Inductive Direction : Type := ACROSS | DOWN.

Record Var : Type := mkVar {
  var_i : nat;
  var_j : nat;
  var_direction : Direction;
  var_length : nat
}.

#[export] Instance Direction_EqDec : EqDec Direction.
Proof. unfold EqDec. decide equality. Defined.

#[export] Instance Var_EqDec : EqDec Var.
Proof.
  unfold EqDec. decide equality; try apply Nat.eq_dec.
  apply Direction_EqDec.
Defined.

(** An entry of the overlap table: [None], or the pair of offsets. *)
Definition Overlap : Type := option (nat * nat).

Record Crossword : Type := mkCrossword {
  variables : list Var;
  words : list string;
  overlaps : Dict.t (Var * Var) Overlap
}.

(** [self.domains] *)
Definition Domains : Type := Dict.t Var (list string).

(** An assignment dictionary, slot to word. *)
Definition Assignment : Type := Dict.t Var string.

(** The heap of assignment dictionaries: [backtrack] receives and returns
    references, and [assignment.copy()] allocates. *)
Record Heap : Type := mkHeap {
  cell : nat -> Assignment;
  next : nat
}.

Definition empty_heap : Heap := mkHeap (fun _ => []) 0.

Definition deref (h : Heap) (l : nat) : Assignment := cell h l.

Definition alloc (h : Heap) (a : Assignment) : nat * Heap :=
  (next h, mkHeap (fun l => if Nat.eqb l (next h) then a else cell h l) (S (next h))).

Definition store (h : Heap) (l : nat) (a : Assignment) : Heap :=
  mkHeap (fun l' => if Nat.eqb l' l then a else cell h l') (next h).

(** [new_assignment = assignment.copy(); new_assignment[var] = value] *)
Definition extend (h : Heap) (assignment : nat) (var : Var) (value : string)
  : nat * Heap :=
  let (new_assignment, h1) := alloc h (deref h assignment) in
  (new_assignment,
   store h1 new_assignment (Dict.setitem var value (deref h1 new_assignment))).

Section Creator.
Variable c : Crossword.

(** [self.crossword.overlaps.get((x, y))] *)
Definition overlaps_get (x y : Var) : Overlap :=
  match Dict.get (x, y) (overlaps c) with
  | Some o => o
  | None => None
  end.

(** [self.crossword.overlaps[x, y]] *)
Definition overlaps_item (x y : Var) : res Overlap :=
  Dict.getitem (overlaps c) (x, y).

(** Modelled from the spec: [Crossword.neighbors] lives in [crossword.py],
    which is missing from the sources.  The neighbors of a slot are all
    other slots with a defined overlap. *)
Definition neighbors (x : Var) : list Var :=
  filter (fun v => negb (eqb v x) &&
                   match overlaps_get v x with Some _ => true | None => false end)
         (variables c).

(** [__init__]: every slot starts with its own copy of the vocabulary. *)
Definition init_domains : Domains :=
  fold_left (fun d var => Dict.setitem var (words c) d) (variables c) [].

(** [self.domains[var].remove(value)] *)
Definition discard (var : Var) (d : Domains) (value : string) : res Domains :=
  s <- Dict.getitem d var ;;
  s' <- set_remove value s ;;
  Ok (Dict.setitem var s' d).

(** The words of [s] whose length differs from [var.length]. *)
Definition wrong_length (var : Var) (s : list string) : list string :=
  fold_left (fun to_remove value =>
               if negb (Nat.eqb (String.length value) (var_length var))
               then set_add value to_remove else to_remove)
            s [].

(** [enforce_node_consistency] (lines 97-109): for every slot, collect
    the words of the wrong length, then remove them one by one. *)
Definition enforce_node_consistency (d : Domains) : res Domains :=
  foldM (fun d var =>
           s <- Dict.getitem d var ;;
           foldM (discard var) (wrong_length var s) d)
        (Dict.keys d) d.

(** [any(x_value[i] == y_value[j] for y_value in ys)] *)
Fixpoint any_agree (i j : nat) (x_value : string) (ys : list string) : res bool :=
  match ys with
  | [] => Ok false
  | y_value :: ys' =>
      a <- index x_value i ;;
      b <- index y_value j ;;
      if eqb a b then Ok true else any_agree i j x_value ys'
  end.

(** The first loop of [revise]: the words of [x] without support in [y]. *)
Definition unsupported (i j : nat) (y : Var) (d : Domains) (xs : list string)
  : res (list string) :=
  foldM (fun to_remove x_value =>
           ys <- Dict.getitem d y ;;
           ok <- any_agree i j x_value ys ;;
           Ok (if ok then to_remove else set_add x_value to_remove))
        xs [].

(** [revise] (lines 111-132).  [revised] becomes true in the body of the
    second loop, that is, when there is something to remove. *)
Definition revise (x y : Var) (d : Domains) : res (bool * Domains) :=
  match overlaps_get x y with
  | None => Ok (false, d)
  | Some (i, j) =>
      xs <- Dict.getitem d x ;;
      to_remove <- unsupported i j y d xs ;;
      foldM (fun st x_value =>
               d' <- discard x (snd st) x_value ;;
               Ok (true, d'))
            to_remove (false, d)
  end.

(** The [while arcs] loop of [ac3]. *)
Fixpoint ac3_loop (fuel : nat) (d : Domains) (arcs : list (Var * Var))
  : res (bool * Domains) :=
  match arcs with
  | [] => Ok (true, d)
  | (x, y) :: rest =>
      match fuel with
      | 0 => OutOfFuel
      | S fuel' =>
          ' (revised, d1) <- revise x y d ;;
          if revised then
            xs <- Dict.getitem d1 x ;;
            if is_nil xs then Ok (false, d1)
            else ac3_loop fuel' d1
                   (rest ++ map (fun z => (z, x))
                                (filter (fun z => negb (eqb z y)) (neighbors x)))
          else ac3_loop fuel' d1 rest
      end
  end.

(** [(x, y) for x in self.domains for y in self.domains if x != y] *)
Definition all_arcs (d : Domains) : list (Var * Var) :=
  flat_map (fun x =>
              flat_map (fun y => if eqb x y then [] else [(x, y)]) (Dict.keys d))
           (Dict.keys d).

Definition domain_total (d : Domains) : nat :=
  list_sum (map (fun e => List.length (snd e)) d).

(** Every revision that removes a word enqueues at most one arc per slot,
    so this many iterations exhaust any queue. *)
Definition ac3_fuel (d : Domains) (arcs : list (Var * Var)) : nat :=
  List.length arcs + List.length (variables c) * domain_total d.

(** [ac3] (lines 134-158). *)
Definition ac3 (d : Domains) (arcs : option (list (Var * Var)))
  : res (bool * Domains) :=
  let queue := match arcs with
               | None => all_arcs d
               | Some l => l
               end in
  ac3_loop (ac3_fuel d queue) d queue.

(** [assignment_complete] (lines 160-168).  The values of an assignment
    are words, never [None]. *)
Definition assignment_complete (a : Assignment) : bool :=
  forallb (fun var => Dict.mem var a) (variables c).

(** The inner loop of [consistent] over the neighbors of [var]. *)
Fixpoint check_neighbors (a : Assignment) (var : Var) (value : string)
  (ns : list Var) : res bool :=
  match ns with
  | [] => Ok true
  | neighbor :: ns' =>
      match Dict.get neighbor a with
      | None => check_neighbors a var value ns'
      | Some nvalue =>
          o <- overlaps_item var neighbor ;;
          match o with
          | None => check_neighbors a var value ns'
          | Some (i, j) =>
              p <- index value i ;;
              q <- index nvalue j ;;
              if negb (eqb p q) then Ok false
              else check_neighbors a var value ns'
          end
      end
  end.

(** The outer loop of [consistent] over [assignment.items()]. *)
Fixpoint check_items (a : Assignment) (items : list (Var * string)) : res bool :=
  match items with
  | [] => Ok true
  | (var, value) :: items' =>
      if negb (Nat.eqb (String.length value) (var_length var)) then Ok false
      else
        ok <- check_neighbors a var value (neighbors var) ;;
        if ok then check_items a items' else Ok false
  end.

(** [consistent] (lines 170-193). *)
Definition consistent (a : Assignment) : res bool :=
  let values := Dict.values a in
  if negb (Nat.eqb (List.length values) (List.length (nodup string_dec values)))
  then Ok false
  else check_items a a.

(** [count_conflicts(value)] inside [order_domain_values]. *)
Definition count_conflicts (d : Domains) (var : Var) (a : Assignment)
  (value : string) : res nat :=
  foldM (fun conflicts neighbor =>
           if Dict.mem neighbor a then Ok conflicts
           else
             o <- overlaps_item var neighbor ;;
             match o with
             | None => Ok conflicts
             | Some (i, j) =>
                 ns <- Dict.getitem d neighbor ;;
                 foldM (fun conflicts neighbor_val =>
                          p <- index value i ;;
                          q <- index neighbor_val j ;;
                          Ok (if negb (eqb p q) then S conflicts else conflicts))
                       ns conflicts
             end)
        (neighbors var) 0.

(** [sorted(..., key=...)] is a stable sort, ascending in the key. *)
Fixpoint insert_by_key (kv : nat * string) (l : list (nat * string))
  : list (nat * string) :=
  match l with
  | [] => [kv]
  | kv' :: l' =>
      if Nat.leb (fst kv) (fst kv') then kv :: l
      else kv' :: insert_by_key kv l'
  end.

Definition sorted_by_key (l : list (nat * string)) : list (nat * string) :=
  fold_right insert_by_key [] l.

(** [order_domain_values] (lines 195-216): the key of every candidate
    is computed, then the candidates are sorted by it. *)
Definition order_domain_values (d : Domains) (var : Var) (a : Assignment)
  : res (list string) :=
  s <- Dict.getitem d var ;;
  ks <- mapM (count_conflicts d var a) s ;;
  Ok (map snd (sorted_by_key (combine ks s))).

(** The key [(mrv(var), -degree(var))] of [select_unassigned_variable]. *)
Definition select_key (d : Domains) (var : Var) : res (Z * Z) :=
  s <- Dict.getitem d var ;;
  Ok (Z.of_nat (List.length s), (- Z.of_nat (List.length (neighbors var)))%Z).

(** Tuple comparison [k1 < k2]. *)
Definition key_lt (k1 k2 : Z * Z) : bool :=
  Z.ltb (fst k1) (fst k2) || (Z.eqb (fst k1) (fst k2) && Z.ltb (snd k1) (snd k2)).

(** [min(..., key=...)] keeps the first element whose key is minimal. *)
Fixpoint min_by (best : Var * (Z * Z)) (l : list (Var * (Z * Z))) : Var :=
  match l with
  | [] => fst best
  | vk :: l' => if key_lt (snd vk) (snd best) then min_by vk l' else min_by best l'
  end.

(** [select_unassigned_variable] (lines 219-234).  [min] raises
    [ValueError] on an empty list. *)
Definition select_unassigned_variable (d : Domains) (a : Assignment) : res Var :=
  let unassigned := filter (fun var => negb (Dict.mem var a)) (variables c) in
  ks <- mapM (select_key d) unassigned ;;
  match combine unassigned ks with
  | [] => Raise ValueError
  | vk :: l => Ok (min_by vk l)
  end.

(** [if result:] on what [backtrack] returned: neither [None] nor an
    empty dictionary. *)
Definition truthy (h : Heap) (result : option nat) : bool :=
  match result with
  | Some r => negb (is_nil (deref h r))
  | None => false
  end.

(** The [for value in ...] loop of [backtrack]; [rec] is the recursive
    call. *)
Fixpoint try_values
  (rec : Domains -> Heap -> nat -> res (option nat * Domains * Heap))
  (var : Var) (assignment : nat) (values : list string)
  (d : Domains) (h : Heap) : res (option nat * Domains * Heap) :=
  match values with
  | [] => Ok (None, d, h)
  | value :: values' =>
      let (new_assignment, h2) := extend h assignment var value in
      ok <- consistent (deref h2 new_assignment) ;;
      if ok then
        ' (arc_ok, d1) <- ac3 d (Some (map (fun neighbor => (var, neighbor))
                                          (neighbors var))) ;;
        if arc_ok then
          ' (result, d2, h3) <- rec d1 h2 new_assignment ;;
          if truthy h3 result then Ok (result, d2, h3)
          else try_values rec var assignment values' d2 h3
        else try_values rec var assignment values' d1 h2
      else try_values rec var assignment values' d h2
  end.

(** [backtrack] (lines 236-262), on a reference to the assignment.  The
    fuel bounds the depth of the recursion. *)
Fixpoint backtrack (fuel : nat) (d : Domains) (h : Heap) (assignment : nat)
  : res (option nat * Domains * Heap) :=
  match fuel with
  | 0 => OutOfFuel
  | S fuel' =>
      if assignment_complete (deref h assignment) then Ok (Some assignment, d, h)
      else
        var <- select_unassigned_variable d (deref h assignment) ;;
        values <- order_domain_values d var (deref h assignment) ;;
        try_values (backtrack fuel') var assignment values d h
  end.

(** [solve] (lines 89-95), on the current [self.domains] and heap, with
    the recursion depth granted to [backtrack] explicit.  The value of
    [self.ac3()] is dropped; [dict()] is a new object; what [backtrack]
    returns is returned as it is. *)
Definition solve_fuel (fuel : nat) (d : Domains) (h : Heap)
  : res (option nat * Domains * Heap) :=
  d0 <- enforce_node_consistency d ;;
  ' (_, d1) <- ac3 d0 None ;;
  let (assignment, h1) := alloc h [] in
  backtrack fuel d1 h1 assignment.

(** Each recursive call assigns one more slot. *)
Definition solve (d : Domains) (h : Heap) : res (option nat * Domains * Heap) :=
  solve_fuel (S (List.length (variables c))) d h.

End Creator.

(** What the caller sees of an outcome of [solve]: the entries of the
    dictionary returned, and [self.domains]. *)
Definition observe (o : res (option nat * Domains * Heap))
  : res (option Assignment * Domains) :=
  ' (result, d, h) <- o ;; Ok (option_map (deref h) result, d).

(** [main]: [CrosswordCreator(crossword).solve()], on a heap that holds
    no dictionary yet. *)
Definition generate (c : Crossword) : res (option Assignment * Domains) :=
  observe (solve c (init_domains c) empty_heap).

(** ** Specification vocabulary *)

(** The words currently in the domain of [x] (none for an unknown slot). *)
Definition dom (d : Domains) (x : Var) : list string :=
  match Dict.get x d with
  | Some s => s
  | None => []
  end.

(** [w[i] == w'[j]], both indices in range. *)
Definition agree (i j : nat) (w w' : string) : Prop :=
  exists ch, String.get i w = Some ch /\ String.get j w' = Some ch.

(** A word of [x] is supported when some word of [y] agrees with it at
    the overlap. *)
Definition supported (d : Domains) (y : Var) (i j : nat) (w : string) : Prop :=
  exists w', In w' (dom d y) /\ agree i j w w'.

Definition node_consistent (d : Domains) : Prop :=
  forall x w, In w (dom d x) -> String.length w = var_length x.

Definition arc_consistent (c : Crossword) (d : Domains) : Prop :=
  forall x y i j, overlaps_get c x y = Some (i, j) ->
  forall w, In w (dom d x) -> supported d y i j w.

(** The domain store has one entry per slot of the puzzle. *)
Definition keys_ok (c : Crossword) (d : Domains) : Prop :=
  forall x, In x (Dict.keys d) <-> In x (variables c).

(** ** Well-formed puzzle structures

    Modelled from the spec: what the missing [crossword.py] establishes
    when it builds the structure.  The slots form a set; the overlap
    table has an entry for every ordered pair of distinct slots; an
    overlap relates two distinct slots of the puzzle, its offsets lie
    within the two slots, and it is recorded for both orders of the
    pair. *)

Fixpoint nodupb {A : Type} `{EqDec A} (l : list A) : bool :=
  match l with
  | [] => true
  | a :: l' => negb (set_mem a l') && nodupb l'
  end.

Definition wf_entry (c : Crossword) (e : (Var * Var) * Overlap) : bool :=
  let (x, y) := fst e in
  match overlaps_get c x y with
  | None => true
  | Some (i, j) =>
      set_mem x (variables c) && set_mem y (variables c) && negb (eqb x y) &&
      Nat.ltb i (var_length x) && Nat.ltb j (var_length y) &&
      match overlaps_get c y x with
      | Some (j', i') => Nat.eqb i i' && Nat.eqb j j'
      | None => false
      end
  end.

Definition wf_crossword (c : Crossword) : bool :=
  nodupb (variables c) &&
  forallb (fun x =>
             forallb (fun y => eqb x y || Dict.mem (x, y) (overlaps c))
                     (variables c))
          (variables c) &&
  forallb (wf_entry c) (overlaps c).

(** Every arc with an overlap is either already consistent or waits in
    the queue: what [ac3] needs of its initial queue. *)
Definition arcs_cover (c : Crossword) (d : Domains) (arcs : list (Var * Var))
  : Prop :=
  forall x y i j, overlaps_get c x y = Some (i, j) ->
  (forall w, In w (dom d x) -> supported d y i j w) \/ In (x, y) arcs.

(** The state of [self.domains] once [enforce_node_consistency] has run. *)
Definition store_ok (c : Crossword) (d : Domains) : Prop :=
  keys_ok c d /\ node_consistent d.

(** [h'] keeps every dictionary that [h] holds, unchanged. *)
Definition heap_extends (h h' : Heap) : Prop :=
  next h <= next h' /\ forall l, l < next h -> deref h' l = deref h l.

(** Every slot of the puzzle has a word. *)
Definition complete_assignment (c : Crossword) (a : Assignment) : Prop :=
  forall x, In x (variables c) -> exists w, Dict.get x a = Some w.

(** The constraints of the puzzle on the assigned slots: no word is used
    twice, every word fills its slot, crossing words agree. *)
Definition consistent_assignment (c : Crossword) (a : Assignment) : Prop :=
  NoDup (Dict.values a) /\
  (forall x w, Dict.get x a = Some w -> String.length w = var_length x) /\
  (forall x y w w' i j,
     Dict.get x a = Some w -> Dict.get y a = Some w' ->
     overlaps_get c x y = Some (i, j) -> agree i j w w').

(** The assignments that [backtrack] builds: slots of the puzzle, each
    with a word of its length. *)
Definition valid_assignment (c : Crossword) (a : Assignment) : Prop :=
  forall x w, In (x, w) a ->
  In x (variables c) /\ String.length w = var_length x.

(** The number of slots still to assign bounds the recursion depth. *)
Definition unassigned_count (c : Crossword) (a : Assignment) : nat :=
  List.length (filter (fun var => negb (Dict.mem var a)) (variables c)).

(** What [backtrack] checks before it returns an assignment. *)
Definition solution (c : Crossword) (a : Assignment) : Prop :=
  assignment_complete c a = true /\ consistent c a = Ok true.

(** ** Decision procedures for the store invariants *)

Definition agreeb (i j : nat) (w w' : string) : bool :=
  match String.get i w, String.get j w' with
  | Some p, Some q => eqb p q
  | _, _ => false
  end.

Definition node_consistentb (d : Domains) : bool :=
  forallb (fun e => forallb (fun w => Nat.eqb (String.length w)
                                              (var_length (fst e)))
                            (snd e)) d.

Definition arc_consistentb (c : Crossword) (d : Domains) : bool :=
  forallb (fun e : (Var * Var) * Overlap =>
             let (x, y) := fst e in
             match overlaps_get c x y with
             | None => true
             | Some (i, j) =>
                 forallb (fun w => existsb (agreeb i j w) (dom d y)) (dom d x)
             end)
          (overlaps c).

Definition keys_okb (c : Crossword) (d : Domains) : bool :=
  forallb (fun x => set_mem x (variables c)) (Dict.keys d) &&
  forallb (fun x => set_mem x (Dict.keys d)) (variables c).

(** The order in which [sorted] leaves the candidates: ascending in the
    number of conflicts. *)
Definition key_le (a b : nat * string) : Prop := fst a <= fst b.

(** Two outcomes of [backtrack] that a caller cannot tell apart: the same
    exception, or the same store and a dictionary with the same entries,
    wherever in the heap it lives. *)
Definition same_outcome (o1 o2 : res (option nat * Domains * Heap)) : Prop :=
  match o1, o2 with
  | Ok (r1, d1, h1), Ok (r2, d2, h2) =>
      option_map (deref h1) r1 = option_map (deref h2) r2 /\ d1 = d2
  | Raise e1, Raise e2 => e1 = e2
  | OutOfFuel, OutOfFuel => True
  | _, _ => False
  end.

(** ** Example puzzles

    Two crossing slots of two letters each.  In the first structure the
    first letter of the across word is the second letter of the down
    word; in the second the two words share their first letter. *)

Local Open Scope string_scope.

Definition slot_across : Var := mkVar 1 0 ACROSS 2.
Definition slot_down : Var := mkVar 0 0 DOWN 2.

Definition crossing : Dict.t (Var * Var) Overlap :=
  [((slot_across, slot_down), Some (0, 1));
   ((slot_down, slot_across), Some (1, 0))].

(** Solvable: across AB, down BA. *)
Definition cw_cross : Crossword :=
  mkCrossword [slot_across; slot_down] ["AB"; "CD"; "BA"; "XYZ"] crossing.

(** No word has the letter the crossing needs. *)
Definition cw_stuck : Crossword :=
  mkCrossword [slot_across; slot_down] ["AB"; "CD"] crossing.

(** No word has the length of the slots. *)
Definition cw_short : Crossword :=
  mkCrossword [slot_across; slot_down] ["ABC"] crossing.

Definition corner_across : Var := mkVar 0 0 ACROSS 2.
Definition corner_down : Var := mkVar 0 0 DOWN 2.

Definition cw_corner : Crossword :=
  mkCrossword [corner_across; corner_down] ["AB"; "ABC"]
    [((corner_across, corner_down), Some (0, 0));
     ((corner_down, corner_across), Some (0, 0))].

(** One word for two slots that must hold different words. *)
Definition cw_twin : Crossword :=
  mkCrossword [corner_across; corner_down] ["AB"]
    [((corner_across, corner_down), Some (0, 0));
     ((corner_down, corner_across), Some (0, 0))].

Definition twin_store : Domains :=
  [(corner_across, ["AB"]); (corner_down, ["AB"])].

(** Two slots that do not cross. *)
Definition apart_top : Var := mkVar 0 0 ACROSS 2.
Definition apart_bottom : Var := mkVar 2 0 ACROSS 2.

Definition cw_apart : Crossword :=
  mkCrossword [apart_top; apart_bottom] ["AB"; "CD"]
    [((apart_top, apart_bottom), None); ((apart_bottom, apart_top), None)].

(** One slot of one letter. *)
Definition single : Var := mkVar 0 0 ACROSS 1.

Definition cw_single : Crossword := mkCrossword [single] ["A"; "B"] [].

(** The same puzzle with the vocabulary iterated in the other order. *)
Definition cw_single_rev : Crossword := mkCrossword [single] ["B"; "A"] [].

(** Two slots of three letters crossing at their middle letters. *)
Definition mid_across : Var := mkVar 1 0 ACROSS 3.
Definition mid_down : Var := mkVar 0 1 DOWN 3.

Definition cw_middle : Crossword :=
  mkCrossword [mid_across; mid_down] ["CAT"; "DOG"; "TIE"]
    [((mid_across, mid_down), Some (1, 1));
     ((mid_down, mid_across), Some (1, 1))].

(** A structure without slots. *)
Definition cw_empty : Crossword := mkCrossword [] ["AB"] [].

(** The store of [cw_cross] once [solve] has run its two pruning passes. *)
Definition cross_store : Domains :=
  [(slot_across, ["AB"; "BA"]); (slot_down, ["AB"; "BA"])].

(** The store of [cw_cross] after node consistency alone. *)
Definition cross_store_nc : Domains :=
  [(slot_across, ["AB"; "CD"; "BA"]); (slot_down, ["AB"; "CD"; "BA"])].

(** A heap holding one empty assignment, at reference 0. *)
Definition heap0 : Heap := snd (alloc empty_heap []).

Local Close Scope string_scope.

(** ** Solutions of the puzzle inside a store *)

(** Every word of [s] is still in the domain of its slot. *)
Definition within (d : Domains) (s : Assignment) : Prop :=
  forall x w, Dict.get x s = Some w -> In w (dom d x).

(** Every entry of [a] is an entry of [s]. *)
Definition sub_assignment (a s : Assignment) : Prop :=
  forall x w, In (x, w) a -> Dict.get x s = Some w.

(** A solution of the puzzle: every slot has a word of the vocabulary,
    and the constraints hold. *)
Definition puzzle_solution (c : Crossword) (s : Assignment) : Prop :=
  complete_assignment c s /\ consistent_assignment c s /\
  forall x w, Dict.get x s = Some w -> In x (variables c) /\ In w (words c).

Definition withinb (d : Domains) (s : Assignment) : bool :=
  forallb (fun e => set_mem (snd e) (dom d (fst e))) s.

Definition arcs_coverb (c : Crossword) (d : Domains) (arcs : list (Var * Var))
  : bool :=
  forallb (fun e : (Var * Var) * Overlap =>
             let (x, y) := fst e in
             match overlaps_get c x y with
             | None => true
             | Some (i, j) =>
                 set_mem (x, y) arcs ||
                 forallb (fun w => existsb (agreeb i j w) (dom d y)) (dom d x)
             end)
          (overlaps c).

(** [r] keeps every entry of [a], and every other entry of [r] gives a
    slot of the puzzle a word of its domain in [d]. *)
Definition grown_from (c : Crossword) (d : Domains) (a r : Assignment) : Prop :=
  (forall x w, Dict.get x a = Some w -> Dict.get x r = Some w) /\
  (forall x w, Dict.get x r = Some w ->
     Dict.get x a = Some w \/ (In x (variables c) /\ In w (dom d x))).

(** ** The letter grid

    Modelled from the spec: [width] and [height] are attributes of the
    [Crossword] of [crossword.py], which is not among the sources, and
    so is [structure], the grid of booleans that tells the open cells
    from the blocked ones.  The functions that read them take them as
    arguments. *)

(** A grid of cells, each [None] or a letter. *)
Definition Grid : Type := list (list (option ascii)).

(** [l[i] = v] on a list: [IndexError] out of range. *)
Fixpoint list_set {A : Type} (l : list A) (i : nat) (v : A) : res (list A) :=
  match l, i with
  | [], _ => Raise IndexError
  | _ :: l', 0 => Ok (v :: l')
  | a :: l', S i' => l'' <- list_set l' i' v ;; Ok (a :: l'')
  end.

(** [l[i]] on a list. *)
Definition list_index {A : Type} (l : list A) (i : nat) : res A :=
  of_option IndexError (nth_error l i).

(** [letters[i][j] = ch] *)
Definition grid_set (letters : Grid) (i j : nat) (ch : ascii) : res Grid :=
  row <- list_index letters i ;;
  row' <- list_set row j (Some ch) ;;
  list_set letters i row'.

(** The cell [(i, j)] of the [k]-th letter of a slot. *)
Definition letter_cell (variable : Var) (k : nat) : nat * nat :=
  (var_i variable +
   match var_direction variable with DOWN => k | ACROSS => 0 end,
   var_j variable +
   match var_direction variable with ACROSS => k | DOWN => 0 end).

(** The inner loop of [letter_grid]: [for k in range(len(word))]. *)
Definition write_word (letters : Grid) (variable : Var) (word : string)
  : res Grid :=
  foldM (fun letters k =>
           ch <- index word k ;;
           grid_set letters (fst (letter_cell variable k))
                    (snd (letter_cell variable k)) ch)
        (seq 0 (String.length word)) letters.

(** [letter_grid] (lines 19-33), for a crossword of the given height and
    width. *)
Definition letter_grid (height width : nat) (assignment : Assignment)
  : res Grid :=
  foldM (fun letters e => write_word letters (fst e) (snd e))
        assignment (repeat (repeat None width) height).

(** What [letters[i][j]] holds, when the cell exists. *)
Definition grid_get {A : Type} (letters : list (list A)) (i j : nat)
  : option A :=
  match nth_error letters i with
  | Some row => nth_error row j
  | None => None
  end.

(** A grid of [height] rows of [width] cells each. *)
Definition rect {A : Type} (height width : nat) (letters : list (list A))
  : Prop :=
  List.length letters = height /\
  forall row, In row letters -> List.length row = width.

(** Every letter of the word falls inside the grid. *)
Definition fits (height width : nat) (variable : Var) (word : string) : bool :=
  forallb (fun k => Nat.ltb (fst (letter_cell variable k)) height &&
                    Nat.ltb (snd (letter_cell variable k)) width)
          (seq 0 (String.length word)).

(** Words that share a cell have the same letter there. *)
Definition cells_agree (a : Assignment) : Prop :=
  forall x w k ch x' w' k' ch',
  In (x, w) a -> In (x', w') a ->
  String.get k w = Some ch -> String.get k' w' = Some ch' ->
  letter_cell x k = letter_cell x' k' -> ch = ch'.

Definition cells_agreeb (a : Assignment) : bool :=
  forallb (fun e : Var * string =>
    forallb (fun e' : Var * string =>
      forallb (fun k =>
        forallb (fun k' =>
          negb (eqb (letter_cell (fst e) k) (letter_cell (fst e') k')) ||
          match String.get k (snd e), String.get k' (snd e') with
          | Some ch, Some ch' => eqb ch ch'
          | _, _ => true
          end)
          (seq 0 (String.length (snd e'))))
        (seq 0 (String.length (snd e))))
      a)
    a.

(** [print] (lines 35-46), for a crossword of the given structure,
    height and width: what is written to the terminal, as the list of
    its rows, each row the list of the strings written to it, one per
    cell; a newline ends every row.  What was written before an
    exception is not recorded. *)
Definition print (structure : list (list bool)) (height width : nat)
  (assignment : Assignment) : res (list (list string)) :=
  letters <- letter_grid height width assignment ;;
  mapM (fun i =>
          mapM (fun j =>
                  structure_row <- list_index structure i ;;
                  open <- list_index structure_row j ;;
                  if (open : bool) then
                    letters_row <- list_index letters i ;;
                    letter <- list_index letters_row j ;;
                    Ok (match letter with
                        | Some ch => String ch EmptyString
                        | None => " "%string
                        end)
                  else Ok "█"%string)
               (seq 0 width))
       (seq 0 height).

Definition sub_assignmentb (a s : Assignment) : bool :=
  forallb (fun e : Var * string =>
             match Dict.get (fst e) s with
             | Some w => eqb w (snd e)
             | None => false
             end) a.

(** ** Results about the outcome monad *)

Lemma bind_Ok_inv (A B : Type) (m : res A) (k : A -> res B) (b : B) :
  bind m k = Ok b -> exists a, m = Ok a /\ k a = Ok b.
Proof.
  destruct m as [a | e |]; simpl; intros E; try discriminate.
  exists a. now split.
Qed.

Ltac inv_bind H :=
  let a := fresh "a" in
  let E := fresh "E" in
  apply bind_Ok_inv in H; destruct H as [a [E H]].

Lemma of_option_Ok (A : Type) (e : exn) (o : option A) (a : A) :
  of_option e o = Ok a <-> o = Some a.
Proof.
  destruct o; simpl; split; intros E; inversion E; reflexivity.
Qed.

Lemma eqb_true_iff (K : Type) `{EqDec K} (a b : K) : eqb a b = true <-> a = b.
Proof.
  unfold eqb. destruct (eq_dec a b); split; intros; congruence.
Qed.

Lemma eqb_false_iff (K : Type) `{EqDec K} (a b : K) : eqb a b = false <-> a <> b.
Proof.
  unfold eqb. destruct (eq_dec a b); split; intros; congruence.
Qed.

Lemma eqb_refl (K : Type) `{EqDec K} (a : K) : eqb a a = true.
Proof. now apply eqb_true_iff. Qed.

(** ** Results about dictionaries *)

Section DictFacts.
Context {K V : Type} `{EqDec K}.
Implicit Types (d : Dict.t K V) (k : K) (v : V).

Lemma get_setitem_eq k v d : Dict.get k (Dict.setitem k v d) = Some v.
Proof.
  induction d as [| [k' v'] d IH]; simpl.
  - destruct (eq_dec k k); congruence.
  - destruct (eq_dec k k') as [E | E]; simpl.
    + destruct (eq_dec k k); congruence.
    + destruct (eq_dec k k'); congruence.
Qed.

Lemma get_setitem_ne k k' v d :
  k <> k' -> Dict.get k' (Dict.setitem k v d) = Dict.get k' d.
Proof.
  intros N. induction d as [| [k0 v0] d IH]; simpl.
  - destruct (eq_dec k' k); congruence.
  - destruct (eq_dec k k0) as [E | E]; simpl.
    + subst k0. destruct (eq_dec k' k); congruence.
    + destruct (eq_dec k' k0); congruence.
Qed.

Lemma setitem_same k v d : Dict.get k d = Some v -> Dict.setitem k v d = d.
Proof.
  induction d as [| [k0 v0] d IH]; simpl; intros E.
  - discriminate.
  - destruct (eq_dec k k0) as [-> | N].
    + congruence.
    + now rewrite IH.
Qed.

Lemma setitem_setitem k v v' d :
  Dict.setitem k v' (Dict.setitem k v d) = Dict.setitem k v' d.
Proof.
  induction d as [| [k0 v0] d IH]; simpl.
  - destruct (eq_dec k k); congruence.
  - destruct (eq_dec k k0) as [-> | N]; simpl.
    + destruct (eq_dec k0 k0); congruence.
    + destruct (eq_dec k k0); congruence.
Qed.

Lemma keys_setitem_present k v v0 d :
  Dict.get k d = Some v0 -> Dict.keys (Dict.setitem k v d) = Dict.keys d.
Proof.
  induction d as [| [k0 v1] d IH]; simpl; intros E.
  - discriminate.
  - destruct (eq_dec k k0) as [-> | N]; simpl.
    + reflexivity.
    + f_equal. now apply IH.
Qed.

Lemma keys_setitem_absent k v d :
  Dict.get k d = None -> Dict.keys (Dict.setitem k v d) = Dict.keys d ++ [k].
Proof.
  induction d as [| [k0 v1] d IH]; simpl; intros E.
  - reflexivity.
  - destruct (eq_dec k k0) as [-> | N]; simpl.
    + discriminate.
    + f_equal. now apply IH.
Qed.

Lemma get_Some_In k v d : Dict.get k d = Some v -> In (k, v) d.
Proof.
  induction d as [| [k0 v0] d IH]; simpl; intros E.
  - discriminate.
  - destruct (eq_dec k k0) as [-> | N].
    + left. congruence.
    + right. now apply IH.
Qed.

Lemma get_Some_keys k v d : Dict.get k d = Some v -> In k (Dict.keys d).
Proof.
  intros E. apply get_Some_In in E.
  unfold Dict.keys. now apply (in_map fst) in E.
Qed.

Lemma keys_get k d : In k (Dict.keys d) -> exists v, Dict.get k d = Some v.
Proof.
  induction d as [| [k0 v0] d IH]; simpl; intros I.
  - contradiction.
  - destruct (eq_dec k k0) as [-> | N].
    + now exists v0.
    + destruct I as [E | I]; [congruence | now apply IH].
Qed.

Lemma get_None_keys k d : Dict.get k d = None <-> ~ In k (Dict.keys d).
Proof.
  split.
  - intros E I. apply keys_get in I. destruct I as [v I]. congruence.
  - intros N. destruct (Dict.get k d) eqn:E; [| reflexivity].
    exfalso. apply N. eapply get_Some_keys; eassumption.
Qed.

Lemma In_get_NoDup k v d :
  NoDup (Dict.keys d) -> In (k, v) d -> Dict.get k d = Some v.
Proof.
  induction d as [| [k0 v0] d IH]; simpl; intros N I.
  - contradiction.
  - inversion N as [| ? ? N1 N2]; subst.
    destruct I as [E | I].
    + inversion E; subst. destruct (eq_dec k k); congruence.
    + destruct (eq_dec k k0) as [-> | Nk].
      * exfalso. apply N1. unfold Dict.keys in *.
        now apply (in_map fst) in I.
      * now apply IH.
Qed.

Lemma mem_true_iff k d : Dict.mem k d = true <-> In k (Dict.keys d).
Proof.
  unfold Dict.mem. split.
  - destruct (Dict.get k d) eqn:E; [| discriminate].
    intros _. eapply get_Some_keys; eassumption.
  - intros I. apply keys_get in I. destruct I as [v ->]. reflexivity.
Qed.

Lemma mem_false_iff k d : Dict.mem k d = false <-> ~ In k (Dict.keys d).
Proof.
  rewrite <- mem_true_iff. destruct (Dict.mem k d); split; congruence.
Qed.

Lemma keys_setitem_iff k k' v d :
  In k' (Dict.keys (Dict.setitem k v d)) <-> k' = k \/ In k' (Dict.keys d).
Proof.
  destruct (Dict.get k d) as [v0 |] eqn:E.
  - erewrite keys_setitem_present by eassumption. split; [tauto |].
    intros [-> | I]; [| assumption]. eapply get_Some_keys; eassumption.
  - rewrite keys_setitem_absent by assumption. rewrite in_app_iff. simpl.
    intuition auto.
Qed.

Lemma NoDup_keys_setitem k v d :
  NoDup (Dict.keys d) -> NoDup (Dict.keys (Dict.setitem k v d)).
Proof.
  intros N. destruct (Dict.get k d) as [v0 |] eqn:E.
  - now erewrite keys_setitem_present by eassumption.
  - rewrite keys_setitem_absent by assumption.
    apply NoDup_app; repeat split; auto.
    + constructor; [intros [] | constructor].
    + intros x I [<- | []]. apply get_None_keys in E. contradiction.
Qed.

End DictFacts.

(** ** Results about sets *)

Section SetFacts.
Context {A : Type} `{EqDec A}.
Implicit Types (v w : A) (s : list A).

Lemma set_mem_true_iff v s : set_mem v s = true <-> In v s.
Proof.
  unfold set_mem. rewrite existsb_exists. split.
  - intros [w [I E]]. apply eqb_true_iff in E. now subst.
  - intros I. exists v. split; [assumption | apply eqb_refl].
Qed.

Lemma set_mem_false_iff v s : set_mem v s = false <-> ~ In v s.
Proof.
  rewrite <- set_mem_true_iff. destruct (set_mem v s); split; congruence.
Qed.

Lemma set_add_In v w s : In w (set_add v s) <-> w = v \/ In w s.
Proof.
  unfold set_add. destruct (set_mem v s) eqn:E.
  - apply set_mem_true_iff in E. split; [tauto |].
    intros [-> | I]; assumption.
  - rewrite in_app_iff. simpl. intuition auto.
Qed.

Lemma set_add_NoDup v s : NoDup s -> NoDup (set_add v s).
Proof.
  intros N. unfold set_add. destruct (set_mem v s) eqn:E; [assumption |].
  apply set_mem_false_iff in E.
  apply NoDup_app; repeat split; auto.
  - constructor; [intros [] | constructor].
  - intros x I [<- | []]. contradiction.
Qed.

Lemma set_remove_Ok v s :
  In v s -> set_remove v s = Ok (filter (fun w => negb (eqb w v)) s).
Proof.
  intros I. unfold set_remove. apply set_mem_true_iff in I. now rewrite I.
Qed.

Lemma filter_all (f : A -> bool) s :
  (forall w, In w s -> f w = true) -> filter f s = s.
Proof.
  induction s as [| a s IH]; simpl; intros F; [reflexivity |].
  rewrite F by now left. f_equal. apply IH. intros w I. apply F. now right.
Qed.

Lemma filter_filter (f g : A -> bool) s :
  filter f (filter g s) = filter (fun w => g w && f w) s.
Proof.
  induction s as [| a s IH]; simpl; [reflexivity |].
  destruct (g a); simpl; [destruct (f a) |]; now rewrite IH.
Qed.

Lemma filter_length_lt (f : A -> bool) s w :
  In w s -> f w = false -> List.length (filter f s) < List.length s.
Proof.
  induction s as [| a s IH]; simpl; intros I F; [contradiction |].
  pose proof (filter_length_le f s) as L.
  destruct I as [-> | I].
  - rewrite F. lia.
  - specialize (IH I F). destruct (f a); simpl; lia.
Qed.

End SetFacts.

(** ** The removal loops *)

Section Removal.
Variable c : Crossword.

Lemma discard_loop (var : Var) (to_remove : list string) :
  forall (d : Domains) (s : list string),
  Dict.get var d = Some s ->
  NoDup to_remove ->
  incl to_remove s ->
  foldM (discard var) to_remove d =
  Ok (Dict.setitem var (filter (fun w => negb (set_mem w to_remove)) s) d).
Proof.
  induction to_remove as [| v tr IH]; intros d s G N I; simpl.
  - rewrite filter_all by reflexivity. now rewrite setitem_same.
  - inversion N as [| ? ? N1 N2]; subst.
    unfold discard at 1. unfold Dict.getitem. rewrite G. simpl.
    rewrite set_remove_Ok by (apply I; now left). simpl.
    rewrite (IH _ (filter (fun w => negb (eqb w v)) s)).
    + rewrite setitem_setitem, filter_filter. do 2 f_equal.
      apply filter_ext. intros w. unfold set_mem. simpl. now rewrite negb_orb.
    + apply get_setitem_eq.
    + assumption.
    + intros w Iw. apply filter_In. split.
      * apply I. now right.
      * apply negb_true_iff, eqb_false_iff. intros ->. contradiction.
Qed.

(** The flag threaded by the second loop of [revise] is set exactly when
    the loop body runs. *)
Lemma revised_loop (x : Var) (to_remove : list string) :
  forall (b : bool) (d : Domains),
  foldM (fun st x_value => d' <- discard x (snd st) x_value ;; Ok (true, d'))
        to_remove (b, d) =
  d' <- foldM (discard x) to_remove d ;;
  Ok (if is_nil to_remove then b else true, d').
Proof.
  induction to_remove as [| v tr IH]; intros b d; simpl; [reflexivity |].
  destruct (discard x d v) as [d1 | e |]; simpl; try reflexivity.
  rewrite IH. destruct (foldM (discard x) tr d1); simpl; try reflexivity.
  now destruct tr.
Qed.

Lemma wrong_length_acc (var : Var) (s : list string) :
  forall acc, NoDup acc ->
  let r := fold_left (fun to_remove value =>
               if negb (Nat.eqb (String.length value) (var_length var))
               then set_add value to_remove else to_remove) s acc in
  NoDup r /\
  forall w, In w r <-> In w acc \/ (In w s /\ String.length w <> var_length var).
Proof.
  induction s as [| v s IH]; intros acc N; simpl.
  - split; [assumption | tauto].
  - destruct (Nat.eqb (String.length v) (var_length var)) eqn:E; simpl.
    + apply Nat.eqb_eq in E. destruct (IH acc N) as [N' I']. split; [assumption |].
      intros w. rewrite I'. intuition (subst; congruence).
    + apply Nat.eqb_neq in E.
      destruct (IH (set_add v acc) (set_add_NoDup v acc N)) as [N' I'].
      split; [assumption |].
      intros w. rewrite I', set_add_In. intuition (subst; auto).
Qed.

Lemma wrong_length_spec (var : Var) (s : list string) :
  NoDup (wrong_length var s) /\
  forall w, In w (wrong_length var s) <->
            In w s /\ String.length w <> var_length var.
Proof.
  destruct (wrong_length_acc var s [] (NoDup_nil _)) as [N I].
  split; [exact N |]. intros w. unfold wrong_length. rewrite I. simpl. tauto.
Qed.

End Removal.

(** ** String indexing *)

Lemma get_Some_lt (s : string) :
  forall i, i < String.length s <-> exists ch, String.get i s = Some ch.
Proof.
  induction s as [| a s IH]; intros i; simpl.
  - split; [lia | intros [ch E]; discriminate].
  - destruct i as [| i]; simpl.
    + split; [intros _; now exists a | lia].
    + rewrite <- IH. lia.
Qed.

Lemma index_Ok (s : string) (i : nat) (ch : ascii) :
  index s i = Ok ch <-> String.get i s = Some ch.
Proof. apply of_option_Ok. Qed.

Lemma index_total (s : string) (i : nat) :
  i < String.length s -> exists ch, index s i = Ok ch.
Proof.
  intros L. apply get_Some_lt in L. destruct L as [ch E].
  exists ch. now apply index_Ok.
Qed.

(** ** Arc revision *)

Section Revise.
Variable c : Crossword.

Lemma any_agree_true (i j : nat) (w : string) (ys : list string) :
  any_agree i j w ys = Ok true -> exists w', In w' ys /\ agree i j w w'.
Proof.
  induction ys as [| y ys IH]; simpl; intros E; [discriminate |].
  inv_bind E. inv_bind E.
  apply index_Ok in E0, E1.
  destruct (eqb a a0) eqn:Q.
  - apply eqb_true_iff in Q. subst a0.
    exists y. split; [now left |]. exists a. now split.
  - destruct (IH E) as [w' [I G]]. exists w'. split; [now right | assumption].
Qed.

Lemma any_agree_false (i j : nat) (w : string) (ys : list string) :
  any_agree i j w ys = Ok false -> forall w', In w' ys -> ~ agree i j w w'.
Proof.
  induction ys as [| y ys IH]; simpl; intros E w' I; [contradiction |].
  inv_bind E. inv_bind E.
  apply index_Ok in E0, E1.
  destruct (eqb a a0) eqn:Q; [discriminate |].
  apply eqb_false_iff in Q.
  destruct I as [<- | I].
  - intros [ch [G1 G2]]. congruence.
  - now apply IH.
Qed.

Lemma any_agree_total (i j : nat) (w : string) (ys : list string) :
  i < String.length w ->
  (forall w', In w' ys -> j < String.length w') ->
  exists b, any_agree i j w ys = Ok b.
Proof.
  intros Li. induction ys as [| y ys IH]; simpl; intros Lj.
  - now exists false.
  - destruct (index_total w i Li) as [a ->].
    destruct (index_total y j) as [b ->]; [apply Lj; now left |]. simpl.
    destruct (eqb a b); [now exists true |].
    apply IH. intros w' I. apply Lj. now right.
Qed.

(** What [any] answers is whether the word is supported. *)
Lemma any_agree_supported (i j : nat) (d : Domains) (y : Var) (w : string)
  (ys : list string) (b : bool) :
  Dict.get y d = Some ys ->
  any_agree i j w ys = Ok b ->
  (b = true <-> supported d y i j w).
Proof.
  intros G E. unfold supported, dom. rewrite G. destruct b.
  - split; [intros _; now apply any_agree_true | reflexivity].
  - split; [discriminate |].
    intros [w' [I A]]. exfalso. eapply any_agree_false; eassumption.
Qed.

Lemma unsupported_acc (i j : nat) (y : Var) (d : Domains) (xs : list string) :
  forall acc tr,
  foldM (fun to_remove x_value =>
           ys <- Dict.getitem d y ;;
           ok <- any_agree i j x_value ys ;;
           Ok (if ok then to_remove else set_add x_value to_remove))
        xs acc = Ok tr ->
  NoDup acc ->
  NoDup tr /\
  (forall w, In w tr <-> In w acc \/ (In w xs /\ ~ supported d y i j w)) /\
  (forall w, In w xs ->
     exists ys b, Dict.get y d = Some ys /\ any_agree i j w ys = Ok b).
Proof.
  induction xs as [| x xs IH]; simpl; intros acc tr E N.
  - inversion E; subst. split; [assumption |].
    split; [intros w; simpl; tauto | intros w []].
  - inv_bind E. inv_bind E0. inv_bind E0.
    apply of_option_Ok in E1. inversion E0; subst a; clear E0.
    pose proof (any_agree_supported i j d y x a0 a1 E1 E2) as S.
    destruct a1.
    + destruct (IH _ _ E N) as [N' [I' T']].
      split; [assumption |]. split.
      * intros w. rewrite I'. split.
        -- intros [Ia | [Ix U]]; [now left |].
           right. split; [now right | assumption].
        -- intros [Ia | [[<- | Ix] U]]; [now left | | right; now split].
           exfalso. apply U. now apply S.
      * intros w [<- | Iw]; eauto.
    + destruct (IH _ _ E (set_add_NoDup x acc N)) as [N' [I' T']].
      assert (U : ~ supported d y i j x) by (intros Q; apply S in Q; discriminate).
      split; [assumption |]. split.
      * intros w. rewrite I', set_add_In. split.
        -- intros [[-> | Ia] | [Ix U']].
           ++ right. split; [now left | assumption].
           ++ now left.
           ++ right. split; [now right | assumption].
        -- intros [Ia | [[<- | Ix] U']].
           ++ left. now right.
           ++ left. now left.
           ++ right. now split.
      * intros w [<- | Iw]; eauto.
Qed.

Lemma unsupported_spec (i j : nat) (y : Var) (d : Domains) (xs tr : list string) :
  unsupported i j y d xs = Ok tr ->
  NoDup tr /\ incl tr xs /\
  (forall w, In w tr <-> In w xs /\ ~ supported d y i j w).
Proof.
  intros E. destruct (unsupported_acc i j y d xs [] tr E (NoDup_nil _)) as [N [I _]].
  assert (I' : forall w, In w tr <-> In w xs /\ ~ supported d y i j w).
  { intros w. rewrite I. simpl. tauto. }
  repeat split; try assumption; try apply I'; try tauto.
  intros w Iw. now apply I'.
Qed.

Lemma unsupported_total (i j : nat) (y : Var) (d : Domains) (xs : list string) :
  In y (Dict.keys d) ->
  (forall w, In w xs -> i < String.length w) ->
  (forall w', In w' (dom d y) -> j < String.length w') ->
  exists tr, unsupported i j y d xs = Ok tr.
Proof.
  intros Ky Li Lj. apply keys_get in Ky. destruct Ky as [ys G].
  unfold dom in Lj. rewrite G in Lj. unfold unsupported.
  generalize (@nil string) as acc.
  induction xs as [| x xs IH]; simpl; intros acc.
  - now exists acc.
  - unfold Dict.getitem at 1. rewrite G. simpl.
    destruct (any_agree_total i j x ys (Li x (or_introl eq_refl)) Lj) as [b ->].
    simpl.
    apply IH. intros w I. apply Li. now right.
Qed.

(** The words kept by [revise] are the supported ones. *)
Lemma kept_supported (i j : nat) (y : Var) (d : Domains) (xs tr : list string) :
  unsupported i j y d xs = Ok tr ->
  forall w, In w (filter (fun w => negb (set_mem w tr)) xs) <->
            In w xs /\ supported d y i j w.
Proof.
  intros E w. destruct (unsupported_spec i j y d xs tr E) as [_ [_ I]].
  rewrite filter_In, negb_true_iff, set_mem_false_iff, I.
  split; [| tauto]. intros [Iw N]. split; [assumption |].
  destruct (unsupported_acc i j y d xs [] tr E (NoDup_nil _)) as [_ [_ T]].
  destruct (T w Iw) as [ys [b [G A]]].
  pose proof (any_agree_supported i j d y w ys b G A) as S.
  apply S. destruct b; [reflexivity |]. exfalso. apply N. split; [assumption |].
  intros Q. apply S in Q. discriminate.
Qed.

Lemma revise_no_overlap (x y : Var) (d : Domains) :
  overlaps_get c x y = None -> revise c x y d = Ok (false, d).
Proof. intros E. unfold revise. now rewrite E. Qed.

(** The two loops of [revise] in closed form. *)
Lemma revise_inv (x y : Var) (d d' : Domains) (b : bool) (i j : nat) :
  overlaps_get c x y = Some (i, j) ->
  revise c x y d = Ok (b, d') ->
  exists xs tr,
    Dict.get x d = Some xs /\
    unsupported i j y d xs = Ok tr /\
    d' = Dict.setitem x (filter (fun w => negb (set_mem w tr)) xs) d /\
    b = negb (is_nil tr).
Proof.
  intros O E. unfold revise in E. rewrite O in E.
  inv_bind E. inv_bind E. apply of_option_Ok in E0.
  rewrite revised_loop in E.
  destruct (unsupported_spec i j y d a a0 E1) as [N [I _]].
  rewrite (discard_loop x a0 d a E0 N I) in E. simpl in E. inversion E; subst.
  exists a, a0. repeat split; try assumption; reflexivity.
Qed.

Lemma revise_total (x y : Var) (d : Domains) (i j : nat) :
  overlaps_get c x y = Some (i, j) ->
  In x (Dict.keys d) -> In y (Dict.keys d) ->
  (forall w, In w (dom d x) -> i < String.length w) ->
  (forall w', In w' (dom d y) -> j < String.length w') ->
  exists b d', revise c x y d = Ok (b, d').
Proof.
  intros O Kx Ky Li Lj. unfold revise. rewrite O.
  apply keys_get in Kx. destruct Kx as [xs G].
  unfold dom in Li. rewrite G in Li.
  unfold Dict.getitem. rewrite G. simpl.
  destruct (unsupported_total i j y d xs Ky Li Lj) as [tr E].
  rewrite E. simpl. rewrite revised_loop.
  destruct (unsupported_spec i j y d xs tr E) as [N [I _]].
  rewrite (discard_loop x tr d xs G N I). simpl. eauto.
Qed.

End Revise.

(** ** Well-formed structures *)

Lemma nodupb_NoDup (A : Type) `{EqDec A} (l : list A) :
  nodupb l = true -> NoDup l.
Proof.
  induction l as [| a l IH]; simpl; intros E; [constructor |].
  apply andb_true_iff in E. destruct E as [E1 E2].
  constructor; [| now apply IH].
  now apply negb_true_iff, set_mem_false_iff in E1.
Qed.

Section WellFormed.
Variable c : Crossword.
Hypothesis wf : wf_crossword c = true.

Lemma wf_NoDup : NoDup (variables c).
Proof.
  unfold wf_crossword in wf. rewrite !andb_true_iff in wf.
  destruct wf as [[W _] _]. eapply nodupb_NoDup. exact W.
Qed.

Lemma wf_item (x y : Var) :
  In x (variables c) -> In y (variables c) -> x <> y ->
  overlaps_item c x y = Ok (overlaps_get c x y).
Proof.
  intros Ix Iy N.
  unfold wf_crossword in wf. rewrite !andb_true_iff in wf.
  destruct wf as [[_ T] _].
  rewrite forallb_forall in T. specialize (T x Ix).
  rewrite forallb_forall in T. specialize (T y Iy).
  apply orb_true_iff in T. destruct T as [T | T].
  - apply eqb_true_iff in T. contradiction.
  - unfold overlaps_item, overlaps_get, Dict.getitem.
    unfold Dict.mem in T.
    destruct (Dict.get (x, y) (overlaps c)); [reflexivity | discriminate].
Qed.

Lemma wf_overlap (x y : Var) (i j : nat) :
  overlaps_get c x y = Some (i, j) ->
  In x (variables c) /\ In y (variables c) /\ x <> y /\
  i < var_length x /\ j < var_length y /\
  overlaps_get c y x = Some (j, i).
Proof.
  intros O.
  unfold wf_crossword in wf. rewrite !andb_true_iff in wf.
  destruct wf as [_ W]. rewrite forallb_forall in W.
  assert (G : exists o, Dict.get (x, y) (overlaps c) = Some o).
  { unfold overlaps_get in O.
    destruct (Dict.get (x, y) (overlaps c)) as [o |]; [eauto | discriminate]. }
  destruct G as [o G]. apply get_Some_In in G.
  specialize (W _ G). unfold wf_entry in W. simpl in W. rewrite O in W.
  rewrite !andb_true_iff in W.
  destruct W as [[[[[W1 W2] W3] W4] W5] W6].
  apply set_mem_true_iff in W1, W2.
  apply negb_true_iff, eqb_false_iff in W3.
  apply Nat.ltb_lt in W4, W5.
  destruct (overlaps_get c y x) as [[j' i'] |]; [| discriminate].
  apply andb_true_iff in W6. destruct W6 as [W6 W7].
  apply Nat.eqb_eq in W6, W7. subst. tauto.
Qed.

End WellFormed.

Lemma neighbors_spec (c : Crossword) (x z : Var) :
  In z (neighbors c x) <->
  In z (variables c) /\ z <> x /\ exists ij, overlaps_get c z x = Some ij.
Proof.
  unfold neighbors. rewrite filter_In, andb_true_iff, negb_true_iff, eqb_false_iff.
  destruct (overlaps_get c z x) as [ij |].
  - intuition eauto.
  - split; [intros [_ [_ E]]; discriminate |].
    intros [_ [_ [ij E]]]. discriminate.
Qed.

Lemma neighbors_length (c : Crossword) (x : Var) :
  List.length (neighbors c x) <= List.length (variables c).
Proof. apply filter_length_le. Qed.

(** ** Domains under update *)

Lemma dom_setitem_eq (x : Var) (s : list string) (d : Domains) :
  dom (Dict.setitem x s d) x = s.
Proof. unfold dom. now rewrite get_setitem_eq. Qed.

Lemma dom_setitem_ne (x z : Var) (s : list string) (d : Domains) :
  x <> z -> dom (Dict.setitem x s d) z = dom d z.
Proof. intros N. unfold dom. now rewrite get_setitem_ne. Qed.

Lemma domain_total_setitem (x : Var) (s xs : list string) (d : Domains) :
  Dict.get x d = Some xs ->
  domain_total (Dict.setitem x s d) + List.length xs =
  domain_total d + List.length s.
Proof.
  unfold domain_total.
  induction d as [| [k v] d IH]; simpl; intros G; [discriminate |].
  destruct (eq_dec x k) as [-> | N]; simpl.
  - inversion G; subst. lia.
  - specialize (IH G). lia.
Qed.

Section ReviseEffect.
Variable c : Crossword.

Lemma revise_effect (x y : Var) (d d' : Domains) (b : bool) (i j : nat) :
  overlaps_get c x y = Some (i, j) ->
  revise c x y d = Ok (b, d') ->
  (forall w, In w (dom d' x) <-> In w (dom d x) /\ supported d y i j w) /\
  (forall z, z <> x -> Dict.get z d' = Dict.get z d) /\
  Dict.keys d' = Dict.keys d /\
  (b = false -> d' = d /\ forall w, In w (dom d x) -> supported d y i j w) /\
  (b = true -> domain_total d' < domain_total d /\
               exists w, In w (dom d x) /\ ~ In w (dom d' x)).
Proof.
  intros O E.
  destruct (revise_inv c x y d d' b i j O E) as [xs [tr [G [U [-> ->]]]]].
  pose proof (kept_supported i j y d xs tr U) as KS.
  assert (Dx : dom d x = xs) by (unfold dom; now rewrite G).
  split; [| split; [| split; [| split]]].
  - intros w. now rewrite dom_setitem_eq, Dx.
  - intros z N. apply get_setitem_ne. congruence.
  - eapply keys_setitem_present. eassumption.
  - intros B. destruct tr as [| v tr]; [| discriminate].
    assert (F : filter (fun w => negb (set_mem w [])) xs = xs)
      by (now apply filter_all).
    split.
    + rewrite F. now apply setitem_same.
    + intros w I. apply KS. rewrite F. now rewrite <- Dx.
  - intros B. destruct tr as [| v tr]; [discriminate |].
    destruct (unsupported_spec i j y d xs _ U) as [_ [_ S]].
    destruct (proj1 (S v) (or_introl eq_refl)) as [Iv Nv].
    split.
    + pose proof (domain_total_setitem x
                    (filter (fun w => negb (set_mem w (v :: tr))) xs) xs d G) as T.
      assert (L : List.length (filter (fun w => negb (set_mem w (v :: tr))) xs)
                  < List.length xs).
      { apply filter_length_lt with (w := v); [assumption |].
        apply negb_false_iff, set_mem_true_iff. now left. }
      lia.
    + exists v. rewrite Dx. split; [assumption |].
      rewrite dom_setitem_eq. intros Q. apply KS in Q. tauto.
Qed.

(** [revise] keeps the slots of the store and only ever removes words. *)
Lemma revise_shrinks (x y : Var) (d d' : Domains) (b : bool) :
  revise c x y d = Ok (b, d') ->
  Dict.keys d' = Dict.keys d /\
  (forall z w, In w (dom d' z) -> In w (dom d z)) /\
  domain_total d' <= domain_total d.
Proof.
  intros E. destruct (overlaps_get c x y) as [[i j] |] eqn:O.
  - destruct (revise_effect x y d d' b i j O E) as [Hx [Hz [Hk [Hf Ht]]]].
    split; [assumption |]. split.
    + intros z w I. destruct (eq_dec z x) as [-> | N].
      * now apply Hx in I.
      * unfold dom in *. now rewrite Hz in I.
    + destruct b.
      * destruct Ht; [reflexivity | lia].
      * destruct Hf as [-> _]; [reflexivity | lia].
  - rewrite revise_no_overlap in E by assumption. inversion E; subst.
    auto.
Qed.

End ReviseEffect.

(** ** AC-3 *)

Lemma agree_sym (i j : nat) (w w' : string) : agree i j w w' -> agree j i w' w.
Proof. intros [ch [A B]]. exists ch. now split. Qed.

Lemma supported_dom (d d' : Domains) (y : Var) (i j : nat) (w : string) :
  dom d' y = dom d y -> supported d y i j w -> supported d' y i j w.
Proof. intros E [w' [I A]]. exists w'. rewrite E. now split. Qed.

Section Ac3.
Variable c : Crossword.

Lemma revise_false (x y : Var) (d d' : Domains) :
  revise c x y d = Ok (false, d') ->
  d' = d /\
  forall i j, overlaps_get c x y = Some (i, j) ->
  forall w, In w (dom d x) -> supported d y i j w.
Proof.
  intros E. destruct (overlaps_get c x y) as [[i j] |] eqn:O.
  - destruct (revise_effect c x y d d' false i j O E) as [_ [_ [_ [Hf _]]]].
    destruct (Hf eq_refl) as [-> S]. split; [reflexivity |].
    intros i' j' Q. inversion Q; subst. assumption.
  - rewrite revise_no_overlap in E by assumption. inversion E; subst.
    split; [reflexivity | discriminate].
Qed.

Lemma revise_true (x y : Var) (d d' : Domains) :
  revise c x y d = Ok (true, d') ->
  exists i j, overlaps_get c x y = Some (i, j).
Proof.
  intros E. destruct (overlaps_get c x y) as [[i j] |] eqn:O; [eauto |].
  rewrite revise_no_overlap in E by assumption. discriminate.
Qed.

Lemma ac3_loop_shrinks (fuel : nat) :
  forall (d : Domains) (q : list (Var * Var)) (b : bool) (d' : Domains),
  ac3_loop c fuel d q = Ok (b, d') ->
  Dict.keys d' = Dict.keys d /\
  (forall z w, In w (dom d' z) -> In w (dom d z)) /\
  domain_total d' <= domain_total d.
Proof.
  induction fuel as [| fuel IH]; intros d [| [x y] rest] b d' E; simpl in E;
    try discriminate; try (inversion E; subst; now auto).
  inv_bind E. destruct a as [revised d1].
  destruct (revise_shrinks c x y d d1 revised E0) as [K [S T]].
  assert (G : forall q', ac3_loop c fuel d1 q' = Ok (b, d') ->
              Dict.keys d' = Dict.keys d /\
              (forall z w, In w (dom d' z) -> In w (dom d z)) /\
              domain_total d' <= domain_total d).
  { intros q' E'. destruct (IH _ _ _ _ E') as [K' [S' T']].
    split; [congruence |]. split; [auto | lia]. }
  destruct revised.
  - inv_bind E. destruct (is_nil a).
    + inversion E; subst. auto.
    + eapply G; eassumption.
  - eapply G; eassumption.
Qed.

Section WithStructure.
Hypothesis wf : wf_crossword c = true.

Lemma revise_keeps_cover (x y : Var) (rest : list (Var * Var))
  (d d1 : Domains) :
  arcs_cover c d ((x, y) :: rest) ->
  revise c x y d = Ok (true, d1) ->
  arcs_cover c d1
    (rest ++ map (fun z => (z, x))
                 (filter (fun z => negb (eqb z y)) (neighbors c x))).
Proof.
  intros C E.
  destruct (revise_true x y d d1 E) as [i [j O]].
  destruct (wf_overlap c wf x y i j O) as [Vx [Vy [Nxy [_ [_ Oyx]]]]].
  destruct (revise_effect c x y d d1 true i j O E) as [Hx [Hz _]].
  assert (Dz : forall z, z <> x -> dom d1 z = dom d z).
  { intros z N. unfold dom. now rewrite Hz. }
  intros a b i' j' Oab.
  destruct (wf_overlap c wf a b i' j' Oab) as [Va [Vb [Nab _]]].
  destruct (eq_dec b x) as [-> | Nbx].
  - (* an arc into x *)
    destruct (eq_dec a y) as [-> | Nay].
    + destruct (C y x i' j' Oab) as [S | [Q | Q]].
      * left. intros w I. rewrite Dz in I by congruence.
        destruct (S w I) as [u [Iu A]].
        exists u. split; [| assumption].
        apply Hx. split; [assumption |].
        exists w. split; [assumption |].
        rewrite Oyx in Oab. inversion Oab; subst. now apply agree_sym.
      * inversion Q; subst. contradiction.
      * right. apply in_or_app. now left.
    + right. apply in_or_app. right.
      apply in_map_iff. exists a. split; [reflexivity |].
      apply filter_In. split.
      * apply neighbors_spec. split; [assumption |]. split; [assumption | eauto].
      * now apply negb_true_iff, eqb_false_iff.
  - (* the domain of b is untouched *)
    destruct (C a b i' j' Oab) as [S | [Q | Q]].
    + left. intros w I. apply supported_dom with (d := d); [now apply Dz |].
      apply S. destruct (eq_dec a x) as [-> | Nax].
      * now apply Hx in I.
      * now rewrite Dz in I.
    + inversion Q; subst a b. rewrite O in Oab. inversion Oab; subst i' j'.
      left. intros w I. apply supported_dom with (d := d); [now apply Dz |].
      now apply Hx in I.
    + right. apply in_or_app. now left.
Qed.

Lemma revise_false_cover (x y : Var) (rest : list (Var * Var))
  (d d1 : Domains) :
  arcs_cover c d ((x, y) :: rest) ->
  revise c x y d = Ok (false, d1) ->
  arcs_cover c d1 rest.
Proof.
  intros C E. destruct (revise_false x y d d1 E) as [-> S].
  intros a b i j Oab. destruct (C a b i j Oab) as [Q | [Q | Q]].
  - now left.
  - inversion Q; subst a b. left. now apply S.
  - now right.
Qed.

Lemma ac3_loop_arc_consistent (fuel : nat) :
  forall (d : Domains) (q : list (Var * Var)) (d' : Domains),
  arcs_cover c d q ->
  ac3_loop c fuel d q = Ok (true, d') ->
  arc_consistent c d'.
Proof.
  induction fuel as [| fuel IH]; intros d [| [x y] rest] d' C E; simpl in E;
    try discriminate.
  - inversion E; subst. intros x y i j O.
    destruct (C x y i j O) as [S | []]. exact S.
  - inversion E; subst. intros x y i j O.
    destruct (C x y i j O) as [S | []]. exact S.
  - inv_bind E. destruct a as [[|] d1].
    + inv_bind E. destruct (is_nil a); [discriminate |].
      eapply IH; [| eassumption].
      eapply revise_keeps_cover; eassumption.
    + eapply IH; [| eassumption].
      eapply revise_false_cover; eassumption.
Qed.

End WithStructure.
End Ac3.

(** ** Fuel is never the reason [ac3] stops *)

Lemma bind_fuel (A B : Type) (m : res A) (k : A -> res B) :
  m <> OutOfFuel ->
  (forall a, m = Ok a -> k a <> OutOfFuel) ->
  bind m k <> OutOfFuel.
Proof.
  destruct m as [a | e |]; simpl; intros N K.
  - now apply K.
  - discriminate.
  - contradiction.
Qed.

Lemma foldM_fuel (A B : Type) (f : B -> A -> res B) (l : list A) :
  (forall b a, f b a <> OutOfFuel) ->
  forall b, foldM f l b <> OutOfFuel.
Proof.
  intros F. induction l as [| a l IH]; intros b; simpl.
  - discriminate.
  - apply bind_fuel; [apply F | intros b' _; apply IH].
Qed.

Lemma mapM_fuel (A B : Type) (f : A -> res B) (l : list A) :
  (forall a, f a <> OutOfFuel) -> mapM f l <> OutOfFuel.
Proof.
  intros F. induction l as [| a l IH]; simpl.
  - discriminate.
  - apply bind_fuel; [apply F |]. intros b _.
    apply bind_fuel; [apply IH |]. discriminate.
Qed.

Lemma of_option_fuel (A : Type) (e : exn) (o : option A) :
  of_option e o <> OutOfFuel.
Proof. destruct o; discriminate. Qed.

Lemma getitem_fuel (K V : Type) `{EqDec K} (d : Dict.t K V) (k : K) :
  Dict.getitem d k <> OutOfFuel.
Proof. apply of_option_fuel. Qed.

Lemma index_fuel (s : string) (i : nat) : index s i <> OutOfFuel.
Proof. apply of_option_fuel. Qed.

Create HintDb fuel.
#[local] Hint Resolve getitem_fuel index_fuel of_option_fuel : fuel.

Lemma discard_fuel (var : Var) (d : Domains) (value : string) :
  discard var d value <> OutOfFuel.
Proof.
  unfold discard. apply bind_fuel; [auto with fuel |]. intros s _.
  apply bind_fuel; [| discriminate].
  unfold set_remove. destruct (set_mem value s); discriminate.
Qed.

Lemma any_agree_fuel (i j : nat) (w : string) (ys : list string) :
  any_agree i j w ys <> OutOfFuel.
Proof.
  induction ys as [| y ys IH]; simpl; [discriminate |].
  apply bind_fuel; [auto with fuel |]. intros a _.
  apply bind_fuel; [auto with fuel |]. intros b _.
  destruct (eqb a b); [discriminate | assumption].
Qed.

Lemma unsupported_fuel (i j : nat) (y : Var) (d : Domains) (xs : list string) :
  unsupported i j y d xs <> OutOfFuel.
Proof.
  unfold unsupported. apply foldM_fuel. intros tr x.
  apply bind_fuel; [auto with fuel |]. intros ys _.
  apply bind_fuel; [apply any_agree_fuel | discriminate].
Qed.

Section Ac3Fuel.
Variable c : Crossword.

Lemma revise_fuel (x y : Var) (d : Domains) : revise c x y d <> OutOfFuel.
Proof.
  unfold revise. destruct (overlaps_get c x y) as [[i j] |]; [| discriminate].
  apply bind_fuel; [auto with fuel |]. intros xs _.
  apply bind_fuel; [apply unsupported_fuel |]. intros tr _.
  apply foldM_fuel. intros st v.
  apply bind_fuel; [apply discard_fuel | discriminate].
Qed.

Lemma ac3_loop_fuel (fuel : nat) :
  forall (d : Domains) (q : list (Var * Var)),
  List.length q + List.length (variables c) * domain_total d <= fuel ->
  ac3_loop c fuel d q <> OutOfFuel.
Proof.
  induction fuel as [| fuel IH]; intros d [| [x y] rest] L; simpl;
    try discriminate.
  - simpl in L. lia.
  - simpl in L. apply bind_fuel; [apply revise_fuel |].
    intros [revised d1] E. destruct revised.
    + apply bind_fuel; [auto with fuel |]. intros xs _.
      destruct (is_nil xs); [discriminate |].
      apply IH.
      destruct (revise_true c x y d d1 E) as [i [j O]].
      destruct (revise_effect c x y d d1 true i j O E) as [_ [_ [_ [_ Ht]]]].
      destruct (Ht eq_refl) as [T _].
      rewrite length_app, length_map.
      pose proof (filter_length_le (fun z => negb (eqb z y)) (neighbors c x)) as F.
      pose proof (neighbors_length c x) as N.
      assert (M : List.length (variables c) * (S (domain_total d1))
                  <= List.length (variables c) * domain_total d)
        by (apply Nat.mul_le_mono_l; lia).
      lia.
    + apply IH.
      destruct (revise_shrinks c x y d d1 false E) as [_ [_ T]].
      assert (M : List.length (variables c) * domain_total d1
                  <= List.length (variables c) * domain_total d)
        by (apply Nat.mul_le_mono_l; lia).
      lia.
Qed.

Lemma ac3_fuel_enough (d : Domains) (arcs : option (list (Var * Var))) :
  ac3 c d arcs <> OutOfFuel.
Proof. unfold ac3. apply ac3_loop_fuel. unfold ac3_fuel. lia. Qed.

End Ac3Fuel.

(** ** [ac3] returns *)

Section Ac3Total.
Variable c : Crossword.
Hypothesis wf : wf_crossword c = true.

Lemma revise_returns (x y : Var) (d : Domains) :
  store_ok c d -> exists b d1, revise c x y d = Ok (b, d1).
Proof.
  intros [K N]. destruct (overlaps_get c x y) as [[i j] |] eqn:O.
  - destruct (wf_overlap c wf x y i j O) as [Vx [Vy [_ [Li [Lj _]]]]].
    apply revise_total with (i := i) (j := j); try assumption.
    + now apply K.
    + now apply K.
    + intros w I. rewrite (N x w I). assumption.
    + intros w I. rewrite (N y w I). assumption.
  - exists false, d. now apply revise_no_overlap.
Qed.

Lemma shrink_store_ok (d d' : Domains) :
  Dict.keys d' = Dict.keys d ->
  (forall z w, In w (dom d' z) -> In w (dom d z)) ->
  store_ok c d -> store_ok c d'.
Proof.
  intros K S [Kd Nd]. split.
  - intros x. rewrite K. apply Kd.
  - intros x w I. apply Nd. now apply S.
Qed.

Lemma revise_store_ok (x y : Var) (d d1 : Domains) (b : bool) :
  store_ok c d -> revise c x y d = Ok (b, d1) -> store_ok c d1.
Proof.
  intros S E. destruct (revise_shrinks c x y d d1 b E) as [K [I _]].
  eapply shrink_store_ok; eassumption.
Qed.

Lemma ac3_loop_store_ok (fuel : nat) (d d' : Domains) (q : list (Var * Var))
  (b : bool) :
  store_ok c d -> ac3_loop c fuel d q = Ok (b, d') -> store_ok c d'.
Proof.
  intros S E. destruct (ac3_loop_shrinks c fuel d q b d' E) as [K [I _]].
  eapply shrink_store_ok; eassumption.
Qed.

Lemma ac3_loop_no_raise (fuel : nat) :
  forall (d : Domains) (q : list (Var * Var)) (e : exn),
  store_ok c d -> ac3_loop c fuel d q <> Raise e.
Proof.
  induction fuel as [| fuel IH]; intros d [| [x y] rest] e S; simpl;
    try discriminate.
  destruct (revise_returns x y d S) as [revised [d1 E]]. rewrite E. simpl.
  pose proof (revise_store_ok x y d d1 revised S E) as S1.
  destruct revised.
  - destruct (revise_true c x y d d1 E) as [i [j O]].
    destruct (wf_overlap c wf x y i j O) as [Vx _].
    apply (proj1 S1) in Vx. apply keys_get in Vx. destruct Vx as [xs G].
    unfold Dict.getitem. rewrite G. simpl.
    destruct (is_nil xs); [discriminate | now apply IH].
  - now apply IH.
Qed.

Lemma ac3_returns (d : Domains) (arcs : option (list (Var * Var))) :
  store_ok c d ->
  exists b d', ac3 c d arcs = Ok (b, d') /\ store_ok c d' /\
               forall z w, In w (dom d' z) -> In w (dom d z).
Proof.
  intros S. destruct (ac3 c d arcs) as [[b d'] | e |] eqn:E.
  - exists b, d'. split; [reflexivity |]. unfold ac3 in E. split.
    + eapply ac3_loop_store_ok; eassumption.
    + eapply ac3_loop_shrinks; eassumption.
  - exfalso. unfold ac3 in E. eapply ac3_loop_no_raise; eassumption.
  - exfalso. eapply ac3_fuel_enough; eassumption.
Qed.

End Ac3Total.

(** ** Node consistency *)

Lemma dom_keys (d : Domains) (x : Var) (w : string) :
  In w (dom d x) -> In x (Dict.keys d).
Proof.
  unfold dom. destruct (Dict.get x d) as [s |] eqn:G; [| contradiction].
  intros _. eapply get_Some_keys; eassumption.
Qed.

(** One iteration of the outer loop of [enforce_node_consistency]. *)
Lemma node_step (var : Var) (d : Domains) (s : list string) :
  Dict.get var d = Some s ->
  foldM (discard var) (wrong_length var s) d =
  Ok (Dict.setitem var
        (filter (fun w => Nat.eqb (String.length w) (var_length var)) s) d).
Proof.
  intros G. destruct (wrong_length_spec var s) as [N I].
  rewrite (discard_loop var (wrong_length var s) d s G N).
  - do 2 f_equal. apply filter_ext_in. intros w Iw.
    destruct (Nat.eqb (String.length w) (var_length var)) eqn:E.
    + apply negb_true_iff, set_mem_false_iff. rewrite I.
      apply Nat.eqb_eq in E. tauto.
    + apply negb_false_iff, set_mem_true_iff. rewrite I.
      apply Nat.eqb_neq in E. tauto.
  - intros w Iw. now apply I.
Qed.

Lemma node_loop (ks : list Var) :
  forall d : Domains,
  incl ks (Dict.keys d) ->
  exists d',
    foldM (fun d var =>
             s <- Dict.getitem d var ;;
             foldM (discard var) (wrong_length var s) d) ks d = Ok d' /\
    Dict.keys d' = Dict.keys d /\
    forall x w, In w (dom d' x) <->
                In w (dom d x) /\ (In x ks -> String.length w = var_length x).
Proof.
  induction ks as [| k ks IH]; intros d I; simpl.
  - exists d. split; [reflexivity |]. split; [reflexivity |]. tauto.
  - destruct (keys_get k d (I k (or_introl eq_refl))) as [s G].
    unfold Dict.getitem at 1. rewrite G. simpl.
    rewrite (node_step k d s G). simpl.
    set (d1 := Dict.setitem k _ d).
    assert (K1 : Dict.keys d1 = Dict.keys d)
      by (eapply keys_setitem_present; eassumption).
    destruct (IH d1) as [d' [E [K' S']]].
    { rewrite K1. intros x Ix. apply I. now right. }
    exists d'. split; [assumption |]. split; [congruence |].
    intros x w. rewrite S'. destruct (eq_dec k x) as [-> | N].
    + unfold d1. rewrite dom_setitem_eq, filter_In, Nat.eqb_eq.
      unfold dom. rewrite G. tauto.
    + unfold d1. rewrite dom_setitem_ne by assumption. tauto.
Qed.

Lemma enforce_node_consistency_spec (d : Domains) :
  exists d',
    enforce_node_consistency d = Ok d' /\
    Dict.keys d' = Dict.keys d /\
    forall x w, In w (dom d' x) <->
                In w (dom d x) /\ String.length w = var_length x.
Proof.
  destruct (node_loop (Dict.keys d) d (incl_refl _)) as [d' [E [K S]]].
  exists d'. split; [exact E |]. split; [exact K |].
  intros x w. rewrite S. split; [| tauto].
  intros [I L]. split; [assumption |]. apply L. eapply dom_keys; eassumption.
Qed.

(** ** The initial store *)

Lemma init_loop (ws : list string) (vs : list Var) :
  forall d : Domains,
  let r := fold_left (fun d var => Dict.setitem var ws d) vs d in
  (forall x, In x (Dict.keys r) <-> In x (Dict.keys d) \/ In x vs) /\
  (forall x, In x vs -> Dict.get x r = Some ws) /\
  (forall x, ~ In x vs -> Dict.get x r = Dict.get x d).
Proof.
  induction vs as [| v vs IH]; intros d; simpl.
  - split; [intros x; tauto |]. split; [intros x [] | reflexivity].
  - destruct (IH (Dict.setitem v ws d)) as [K [G F]]. split; [| split].
    + intros x. rewrite K, keys_setitem_iff. intuition auto.
    + intros x [-> | I].
      * destruct (in_dec eq_dec x vs) as [I | N]; [now apply G |].
        rewrite F by assumption. apply get_setitem_eq.
      * now apply G.
    + intros x N. rewrite F by tauto. apply get_setitem_ne. tauto.
Qed.

Lemma init_domains_keys (c : Crossword) : keys_ok c (init_domains c).
Proof.
  intros x. unfold init_domains.
  destruct (init_loop (words c) (variables c) []) as [K _].
  rewrite K. simpl. tauto.
Qed.

Lemma init_domains_dom (c : Crossword) (x : Var) :
  In x (variables c) -> dom (init_domains c) x = words c.
Proof.
  intros I. unfold dom, init_domains.
  destruct (init_loop (words c) (variables c) []) as [_ [G _]].
  now rewrite G.
Qed.

Lemma enforce_store_ok (c : Crossword) (d : Domains) :
  keys_ok c d ->
  exists d0, enforce_node_consistency d = Ok d0 /\ store_ok c d0.
Proof.
  intros Kd. destruct (enforce_node_consistency_spec d) as [d0 [E [K S]]].
  exists d0. split; [exact E |]. split.
  - intros x. rewrite K. apply Kd.
  - intros x w I. now apply S in I.
Qed.

(** ** The heap of assignments *)

Lemma heap_extends_refl (h : Heap) : heap_extends h h.
Proof. split; [lia | reflexivity]. Qed.

Lemma heap_extends_trans (h1 h2 h3 : Heap) :
  heap_extends h1 h2 -> heap_extends h2 h3 -> heap_extends h1 h3.
Proof.
  intros [N1 D1] [N2 D2]. split; [lia |].
  intros l L. rewrite D2 by lia. now apply D1.
Qed.

Lemma extend_spec (h : Heap) (asg : nat) (var : Var) (value : string) :
  exists h2,
    extend h asg var value = (next h, h2) /\
    next h2 = S (next h) /\
    deref h2 (next h) = Dict.setitem var value (deref h asg) /\
    heap_extends h h2.
Proof.
  unfold extend, alloc, store, deref, heap_extends. simpl.
  eexists. split; [reflexivity |]. simpl.
  rewrite Nat.eqb_refl. repeat split; try lia.
  intros l L. destruct (Nat.eqb l (next h)) eqn:E; [| reflexivity].
  apply Nat.eqb_eq in E. lia.
Qed.

(** The loop and the function, one step unfolded. *)
Lemma try_values_cons (c : Crossword)
  (rec : Domains -> Heap -> nat -> res (option nat * Domains * Heap))
  (var : Var) (asg : nat) (value : string) (values : list string)
  (d : Domains) (h : Heap) :
  try_values c rec var asg (value :: values) d h =
  let (new, h2) := extend h asg var value in
  ok <- consistent c (deref h2 new) ;;
  if ok then
    ' (arc_ok, d1) <- ac3 c d (Some (map (fun n => (var, n)) (neighbors c var))) ;;
    if arc_ok then
      ' (result, d2, h3) <- rec d1 h2 new ;;
      if truthy h3 result then Ok (result, d2, h3)
      else try_values c rec var asg values d2 h3
    else try_values c rec var asg values d1 h2
  else try_values c rec var asg values d h2.
Proof. reflexivity. Qed.

Lemma backtrack_S (c : Crossword) (fuel : nat) (d : Domains) (h : Heap)
  (asg : nat) :
  backtrack c (S fuel) d h asg =
  if assignment_complete c (deref h asg) then Ok (Some asg, d, h)
  else
    var <- select_unassigned_variable c d (deref h asg) ;;
    values <- order_domain_values c d var (deref h asg) ;;
    try_values c (backtrack c fuel) var asg values d h.
Proof. reflexivity. Qed.

Section Frame.
Variable c : Crossword.

Lemma try_values_frame
  (rec : Domains -> Heap -> nat -> res (option nat * Domains * Heap))
  (var : Var) (asg : nat) (values : list string) :
  (forall d h l r d' h', rec d h l = Ok (r, d', h') -> heap_extends h h') ->
  forall d h r d' h',
  try_values c rec var asg values d h = Ok (r, d', h') -> heap_extends h h'.
Proof.
  intros R. induction values as [| value values IH]; intros d h r d' h' E.
  - simpl in E. inversion E; subst. apply heap_extends_refl.
  - rewrite try_values_cons in E.
    destruct (extend_spec h asg var value) as [h2 [X0 [_ [_ X]]]].
    rewrite X0 in E.
    inv_bind E. destruct a.
    + inv_bind E. destruct a as [arc_ok d1]. destruct arc_ok.
      * inv_bind E. destruct a as [[result d2] h3].
        pose proof (R _ _ _ _ _ _ E2) as X3.
        destruct (truthy h3 result).
        -- inversion E; subst.
           eapply heap_extends_trans; eassumption.
        -- apply IH in E.
           eapply heap_extends_trans; [eassumption |].
           eapply heap_extends_trans; eassumption.
      * apply IH in E. eapply heap_extends_trans; eassumption.
    + apply IH in E. eapply heap_extends_trans; eassumption.
Qed.

Lemma backtrack_frame (fuel : nat) :
  forall d h asg r d' h',
  backtrack c fuel d h asg = Ok (r, d', h') -> heap_extends h h'.
Proof.
  induction fuel as [| fuel IH]; intros d h asg r d' h' E.
  - discriminate.
  - rewrite backtrack_S in E.
    destruct (assignment_complete c (deref h asg)).
    + inversion E; subst. apply heap_extends_refl.
    + inv_bind E. inv_bind E.
      eapply try_values_frame; [| eassumption]. exact IH.
Qed.

End Frame.

(** ** What [backtrack] returns has passed both checks *)

Section Sound.
Variable c : Crossword.

Lemma try_values_sound
  (rec : Domains -> Heap -> nat -> res (option nat * Domains * Heap))
  (var : Var) (asg : nat) (values : list string) :
  (forall d h l r d' h',
     rec d h l = Ok (Some r, d', h') ->
     consistent c (deref h l) = Ok true -> solution c (deref h' r)) ->
  forall d h r d' h',
  try_values c rec var asg values d h = Ok (Some r, d', h') ->
  solution c (deref h' r).
Proof.
  intros R. induction values as [| value values IH]; intros d h r d' h' E.
  - discriminate.
  - rewrite try_values_cons in E.
    destruct (extend h asg var value) as [new h2].
    inv_bind E. destruct a; [| eauto].
    inv_bind E. destruct a as [[|] d1]; [| eauto].
    inv_bind E. destruct a as [[result d2] h3].
    destruct (truthy h3 result); [| eauto].
    inversion E; subst. eapply R; eassumption.
Qed.

Lemma backtrack_sound (fuel : nat) :
  forall d h asg r d' h',
  backtrack c fuel d h asg = Ok (Some r, d', h') ->
  consistent c (deref h asg) = Ok true ->
  solution c (deref h' r).
Proof.
  induction fuel as [| fuel IH]; intros d h asg r d' h' E C.
  - discriminate.
  - rewrite backtrack_S in E.
    destruct (assignment_complete c (deref h asg)) eqn:A.
    + inversion E; subst. now split.
    + inv_bind E. inv_bind E.
      eapply try_values_sound; [| eassumption]. exact IH.
Qed.

End Sound.

(** ** On an arc-consistent store the nested [ac3] removes nothing *)

Section Noop.
Variable c : Crossword.

Lemma revise_noop (x y : Var) (d d' : Domains) (b : bool) :
  arc_consistent c d ->
  revise c x y d = Ok (b, d') -> b = false /\ d' = d.
Proof.
  intros AC E. destruct b.
  - exfalso. destruct (revise_true c x y d d' E) as [i [j O]].
    destruct (revise_effect c x y d d' true i j O E) as [Hx [_ [_ [_ Ht]]]].
    destruct (Ht eq_refl) as [_ [w [I N]]].
    apply N, Hx. split; [assumption |]. now apply (AC x y i j O).
  - split; [reflexivity |]. now destruct (revise_false c x y d d' E).
Qed.

Lemma ac3_loop_noop (fuel : nat) (d : Domains) :
  arc_consistent c d ->
  forall (q : list (Var * Var)) (b : bool) (d' : Domains),
  ac3_loop c fuel d q = Ok (b, d') -> b = true /\ d' = d.
Proof.
  intros AC. induction fuel as [| fuel IH]; intros [| [x y] rest] b d' E;
    simpl in E; try discriminate; try (inversion E; now subst).
  inv_bind E. destruct a as [revised d1].
  destruct (revise_noop x y d d1 revised AC E0) as [-> ->].
  now apply IH in E.
Qed.

Lemma ac3_noop (d d' : Domains) (arcs : option (list (Var * Var))) (b : bool) :
  arc_consistent c d -> ac3 c d arcs = Ok (b, d') -> b = true /\ d' = d.
Proof. intros AC E. unfold ac3 in E. eapply ac3_loop_noop; eassumption. Qed.

Lemma try_values_domains
  (rec : Domains -> Heap -> nat -> res (option nat * Domains * Heap))
  (var : Var) (asg : nat) (values : list string) (d : Domains) :
  arc_consistent c d ->
  (forall h l r d' h', rec d h l = Ok (r, d', h') -> d' = d) ->
  forall h r d' h',
  try_values c rec var asg values d h = Ok (r, d', h') -> d' = d.
Proof.
  intros AC R. induction values as [| value values IH]; intros h r d' h' E.
  - simpl in E. now inversion E.
  - rewrite try_values_cons in E.
    destruct (extend h asg var value) as [new h2].
    inv_bind E. destruct a; [| eauto].
    inv_bind E. destruct a as [arc_ok d1].
    destruct (ac3_noop d d1 _ arc_ok AC E1) as [-> ->].
    inv_bind E. destruct a as [[result d2] h3].
    pose proof (R _ _ _ _ _ E2) as ->.
    destruct (truthy h3 result); [now inversion E | eauto].
Qed.

Lemma backtrack_domains (fuel : nat) (d : Domains) :
  arc_consistent c d ->
  forall h asg r d' h',
  backtrack c fuel d h asg = Ok (r, d', h') -> d' = d.
Proof.
  intros AC. induction fuel as [| fuel IH]; intros h asg r d' h' E.
  - discriminate.
  - rewrite backtrack_S in E.
    destruct (assignment_complete c (deref h asg)).
    + now inversion E.
    + inv_bind E. inv_bind E.
      eapply try_values_domains; [assumption | | eassumption]. exact IH.
Qed.

End Noop.

(** ** The consistency check *)

Lemma nodup_length_NoDup (l : list string) :
  List.length (nodup string_dec l) = List.length l -> NoDup l.
Proof.
  induction l as [| a l IH]; simpl; intros E; [constructor |].
  assert (L : List.length (nodup string_dec l) <= List.length l).
  { apply NoDup_incl_length; [apply NoDup_nodup |].
    intros x I. now apply nodup_In in I. }
  destruct (in_dec string_dec a l) as [I | N].
  - lia.
  - simpl in E. constructor; [assumption |]. apply IH. lia.
Qed.

Lemma In_setitem (K V : Type) `{EqDec K} (k k' : K) (v v' : V) (d : Dict.t K V) :
  In (k', v') (Dict.setitem k v d) -> (k', v') = (k, v) \/ In (k', v') d.
Proof.
  induction d as [| [k0 v0] d IH]; simpl.
  - intros [E | []]. left. now symmetry.
  - destruct (eq_dec k k0) as [-> | N]; simpl.
    + intros [E | I]; [left; now symmetry | right; now right].
    + intros [E | I]; [right; now left |].
      destruct (IH I) as [Q | Q]; [now left | right; now right].
Qed.

Section Consistent.
Variable c : Crossword.

Lemma overlaps_item_get (x y : Var) (o : Overlap) :
  overlaps_item c x y = Ok o -> overlaps_get c x y = o.
Proof.
  unfold overlaps_item, overlaps_get, Dict.getitem.
  destruct (Dict.get (x, y) (overlaps c)); simpl; intros E; now inversion E.
Qed.

Lemma check_neighbors_true (a : Assignment) (var : Var) (value : string)
  (ns : list Var) :
  check_neighbors c a var value ns = Ok true ->
  forall n nv i j,
  In n ns -> Dict.get n a = Some nv -> overlaps_get c var n = Some (i, j) ->
  agree i j value nv.
Proof.
  induction ns as [| m ns IH]; simpl; intros E n nv i j I G O.
  - contradiction.
  - destruct I as [-> | I].
    + rewrite G in E. inv_bind E. apply overlaps_item_get in E0.
      rewrite O in E0. subst a0.
      inv_bind E. inv_bind E. apply index_Ok in E0, E1.
      destruct (eqb a0 a1) eqn:Q; [| discriminate].
      apply eqb_true_iff in Q. subst a1. now exists a0.
    + destruct (Dict.get m a) as [mv |]; [| eauto].
      inv_bind E. destruct a0 as [[i0 j0] |]; [| eauto].
      inv_bind E. inv_bind E.
      destruct (negb (eqb a0 a1)); [discriminate | eauto].
Qed.

Lemma check_items_true (a : Assignment) (items : list (Var * string)) :
  check_items c a items = Ok true ->
  forall x w, In (x, w) items ->
  String.length w = var_length x /\
  check_neighbors c a x w (neighbors c x) = Ok true.
Proof.
  induction items as [| [var value] items IH]; simpl; intros E x w I.
  - contradiction.
  - destruct (Nat.eqb (String.length value) (var_length var)) eqn:L;
      [| discriminate].
    simpl in E. inv_bind E. destruct a0; [| discriminate].
    destruct I as [Q | I].
    + inversion Q; subst. split; [now apply Nat.eqb_eq | assumption].
    + now apply IH.
Qed.

Lemma consistent_true (a : Assignment) :
  wf_crossword c = true ->
  consistent c a = Ok true -> consistent_assignment c a.
Proof.
  intros wf E. unfold consistent in E.
  destruct (Nat.eqb (List.length (Dict.values a))
              (List.length (nodup string_dec (Dict.values a)))) eqn:L;
    [| discriminate].
  simpl in E. apply Nat.eqb_eq in L.
  pose proof (check_items_true a a E) as CI.
  split; [| split].
  - apply nodup_length_NoDup. now symmetry.
  - intros x w G. apply get_Some_In in G. now apply CI.
  - intros x y w w' i j Gx Gy O.
    destruct (wf_overlap c wf x y i j O) as [Vx [Vy [N [_ [_ Oyx]]]]].
    destruct (CI x w (get_Some_In x w a Gx)) as [_ CN].
    apply (check_neighbors_true a x w (neighbors c x) CN y w' i j);
      try assumption.
    apply neighbors_spec. split; [assumption |]. split; [congruence | eauto].
Qed.

Lemma consistent_empty : consistent c [] = Ok true.
Proof. reflexivity. Qed.

Section Returns.
Hypothesis wf : wf_crossword c = true.

Lemma check_neighbors_returns (a : Assignment) (var : Var) (value : string) :
  valid_assignment c a ->
  In var (variables c) -> String.length value = var_length var ->
  forall ns, incl ns (neighbors c var) ->
  exists b, check_neighbors c a var value ns = Ok b.
Proof.
  intros VA Iv L. induction ns as [| n ns IH]; intros I; simpl.
  - now exists true.
  - assert (I' : incl ns (neighbors c var))
      by (intros z Iz; apply I; now right).
    destruct (Dict.get n a) as [nv |] eqn:G; [| now apply IH].
    assert (Nn : In n (neighbors c var)) by (apply I; now left).
    apply neighbors_spec in Nn. destruct Nn as [Vn [Nnv _]].
    rewrite (wf_item c wf var n Iv Vn) by congruence. simpl.
    destruct (overlaps_get c var n) as [[i j] |] eqn:O; [| now apply IH].
    destruct (wf_overlap c wf var n i j O) as [_ [_ [_ [Li [Lj _]]]]].
    destruct (VA n nv (get_Some_In n nv a G)) as [_ Ln].
    destruct (index_total value i) as [p ->]; [lia |].
    destruct (index_total nv j) as [q ->]; [lia |]. simpl.
    destruct (negb (eqb p q)); [now exists false | now apply IH].
Qed.

Lemma check_items_returns (a : Assignment) :
  valid_assignment c a ->
  forall items, incl items a -> exists b, check_items c a items = Ok b.
Proof.
  intros VA. induction items as [| [var value] items IH]; intros I; simpl.
  - now exists true.
  - destruct (Nat.eqb (String.length value) (var_length var)) eqn:L; simpl;
      [| now exists false].
    apply Nat.eqb_eq in L.
    destruct (VA var value (I _ (or_introl eq_refl))) as [Iv _].
    destruct (check_neighbors_returns a var value VA Iv L (neighbors c var)
                (incl_refl _)) as [b ->]. simpl.
    destruct b; [| now exists false].
    apply IH. intros z Iz. apply I. now right.
Qed.

Lemma consistent_returns (a : Assignment) :
  valid_assignment c a -> exists b, consistent c a = Ok b.
Proof.
  intros VA. unfold consistent.
  destruct (negb _); [now exists false |].
  apply check_items_returns; [assumption | apply incl_refl].
Qed.

End Returns.
End Consistent.

(** ** Loops whose body returns *)

Lemma foldM_returns (A B : Type) (f : B -> A -> res B) (l : list A) :
  (forall b a, In a l -> exists b', f b a = Ok b') ->
  forall b, exists r, foldM f l b = Ok r.
Proof.
  induction l as [| a l IH]; intros F b; simpl.
  - now exists b.
  - destruct (F b a (or_introl eq_refl)) as [b' ->]. simpl.
    apply IH. intros b0 a0 I. apply F. now right.
Qed.

Lemma mapM_returns (A B : Type) (f : A -> res B) (l : list A) :
  (forall a, In a l -> exists b, f a = Ok b) ->
  exists bs, mapM f l = Ok bs /\ List.length bs = List.length l.
Proof.
  induction l as [| a l IH]; intros F; simpl.
  - now exists [].
  - destruct (F a (or_introl eq_refl)) as [b ->]. simpl.
    destruct IH as [bs [-> L]]; [intros a0 I; apply F; now right |].
    simpl. exists (b :: bs). split; [reflexivity | simpl; congruence].
Qed.

Lemma mapM_length (A B : Type) (f : A -> res B) (l : list A) :
  forall bs, mapM f l = Ok bs -> List.length bs = List.length l.
Proof.
  induction l as [| a l IH]; simpl; intros bs E.
  - now inversion E.
  - inv_bind E. inv_bind E. inversion E; subst. simpl. f_equal. now apply IH.
Qed.

Lemma forallb_false (A : Type) (f : A -> bool) (l : list A) :
  forallb f l = false -> exists x, In x l /\ f x = false.
Proof.
  induction l as [| a l IH]; simpl; intros E; [discriminate |].
  destruct (f a) eqn:F.
  - destruct (IH E) as [x [I Q]]. exists x. split; [now right | assumption].
  - exists a. split; [now left | assumption].
Qed.

Lemma combine_fst (A B : Type) (l : list A) :
  forall l' : list B, List.length l' = List.length l ->
  map fst (combine l l') = l.
Proof.
  induction l as [| a l IH]; intros [| b l'] E; simpl in *;
    try discriminate; [reflexivity |].
  f_equal. apply IH. congruence.
Qed.

Lemma combine_snd (A B : Type) (l : list A) :
  forall l' : list B, List.length l = List.length l' ->
  map snd (combine l l') = l'.
Proof.
  induction l as [| a l IH]; intros [| b l'] E; simpl in *;
    try discriminate; [reflexivity |].
  f_equal. apply IH. congruence.
Qed.

(** ** The two heuristics *)

Lemma min_by_In (l : list (Var * (Z * Z))) :
  forall best, In (min_by best l) (map fst (best :: l)).
Proof.
  induction l as [| vk l IH]; intros best; simpl.
  - now left.
  - destruct (key_lt (snd vk) (snd best)).
    + right. apply (IH vk).
    + destruct (IH best) as [E | I]; [now left | right; now right].
Qed.

Lemma insert_by_key_perm (kv : nat * string) (l : list (nat * string)) :
  Permutation (insert_by_key kv l) (kv :: l).
Proof.
  induction l as [| kv' l IH]; simpl; [reflexivity |].
  destruct (Nat.leb (fst kv) (fst kv')); [reflexivity |].
  rewrite IH. apply perm_swap.
Qed.

Lemma sorted_by_key_perm (l : list (nat * string)) :
  Permutation (sorted_by_key l) l.
Proof.
  induction l as [| kv l IH]; simpl; [reflexivity |].
  rewrite insert_by_key_perm. now constructor.
Qed.

Section Heuristics.
Variable c : Crossword.

(** [select_unassigned_variable] answers with a slot of the puzzle that
    the assignment lacks. *)
Lemma select_unassigned (d : Domains) (a : Assignment) (var : Var) :
  select_unassigned_variable c d a = Ok var ->
  In var (variables c) /\ Dict.mem var a = false.
Proof.
  unfold select_unassigned_variable. intros E. inv_bind E.
  set (un := filter (fun var => negb (Dict.mem var a)) (variables c)) in *.
  destruct (combine un a0) as [| vk l] eqn:Q; [discriminate |].
  inversion E; subst var.
  assert (I : In (min_by vk l) (map fst (combine un a0)))
    by (rewrite Q; apply min_by_In).
  apply in_map_iff in I. destruct I as [[v k] [F I]]. simpl in F. subst v.
  apply in_combine_l in I. unfold un in I. apply filter_In in I.
  now rewrite negb_true_iff in I.
Qed.

(** The ordering heuristic only reorders the domain. *)
Lemma order_domain_values_perm (d : Domains) (var : Var) (a : Assignment)
  (values : list string) :
  order_domain_values c d var a = Ok values ->
  Permutation values (dom d var).
Proof.
  unfold order_domain_values. intros E. inv_bind E. inv_bind E.
  apply of_option_Ok in E0. inversion E; subst values.
  unfold dom. rewrite E0.
  rewrite sorted_by_key_perm.
  rewrite combine_snd; [reflexivity |].
  eapply mapM_length; eassumption.
Qed.

Section Returns.
Hypothesis wf : wf_crossword c = true.

Lemma select_returns (d : Domains) (a : Assignment) :
  store_ok c d -> assignment_complete c a = false ->
  exists var, select_unassigned_variable c d a = Ok var.
Proof.
  intros [K _] A. unfold select_unassigned_variable.
  set (un := filter (fun var => negb (Dict.mem var a)) (variables c)).
  destruct (mapM_returns _ _ (select_key c d) un) as [ks [-> L]].
  - intros x I. unfold un in I. apply filter_In in I. destruct I as [I _].
    apply K, keys_get in I. destruct I as [s G].
    unfold select_key, Dict.getitem. rewrite G. simpl. eauto.
  - simpl. apply forallb_false in A. destruct A as [x [I M]].
    assert (U : In x un) by (apply filter_In; now rewrite M).
    destruct un as [| u un']; [contradiction |].
    destruct ks as [| k ks]; [discriminate |]. simpl. eauto.
Qed.

Lemma count_conflicts_returns (d : Domains) (var : Var) (a : Assignment)
  (value : string) :
  store_ok c d -> In var (variables c) ->
  String.length value = var_length var ->
  exists n, count_conflicts c d var a value = Ok n.
Proof.
  intros [K N] Iv L. unfold count_conflicts. apply foldM_returns.
  intros conflicts n In_n.
  destruct (Dict.mem n a); [eauto |].
  apply neighbors_spec in In_n. destruct In_n as [Vn [Nn _]].
  rewrite (wf_item c wf var n Iv Vn) by congruence. simpl.
  destruct (overlaps_get c var n) as [[i j] |] eqn:O; [| eauto].
  destruct (wf_overlap c wf var n i j O) as [_ [_ [_ [Li [Lj _]]]]].
  destruct (keys_get n d (proj2 (K n) Vn)) as [ns G].
  unfold Dict.getitem. rewrite G. simpl.
  apply foldM_returns. intros k nv Inv.
  destruct (index_total value i) as [p ->]; [lia |].
  destruct (index_total nv j) as [q ->]; [| simpl; eauto].
  rewrite (N n nv); [assumption |]. unfold dom. now rewrite G.
Qed.

Lemma order_domain_values_returns (d : Domains) (var : Var) (a : Assignment) :
  store_ok c d -> In var (variables c) ->
  exists values, order_domain_values c d var a = Ok values.
Proof.
  intros S Iv. unfold order_domain_values.
  destruct (keys_get var d (proj2 (proj1 S var) Iv)) as [s G].
  unfold Dict.getitem. rewrite G. simpl.
  destruct (mapM_returns _ _ (count_conflicts c d var a) s) as [ks [-> _]].
  - intros value I. apply count_conflicts_returns; try assumption.
    apply (proj2 S). unfold dom. now rewrite G.
  - simpl. eauto.
Qed.

End Returns.
End Heuristics.

(** ** [backtrack] returns *)

Lemma filter_length_lt_pred (A : Type) (f g : A -> bool) (l : list A) (x : A) :
  (forall y, f y = true -> g y = true) ->
  In x l -> g x = true -> f x = false ->
  List.length (filter f l) < List.length (filter g l).
Proof.
  intros FG. 
  assert (LE : forall l', List.length (filter f l') <= List.length (filter g l')).
  { induction l' as [| a l' IH]; simpl; [lia |].
    destruct (f a) eqn:F.
    - rewrite (FG a F). simpl. lia.
    - destruct (g a); simpl; lia. }
  induction l as [| a l IH]; simpl; intros I G F; [contradiction |].
  destruct I as [-> | I].
  - rewrite F, G. simpl. specialize (LE l). lia.
  - specialize (IH I G F). destruct (f a) eqn:Fa.
    + rewrite (FG a Fa). simpl. lia.
    + destruct (g a); simpl; lia.
Qed.

Lemma mem_setitem (var z : Var) (value : string) (a : Assignment) :
  Dict.mem z (Dict.setitem var value a) = eqb z var || Dict.mem z a.
Proof.
  unfold Dict.mem. destruct (eq_dec z var) as [-> | N].
  - rewrite get_setitem_eq, eqb_refl. reflexivity.
  - rewrite get_setitem_ne by congruence.
    assert (E : eqb z var = false) by now apply eqb_false_iff.
    now rewrite E.
Qed.

Section BacktrackReturns.
Variable c : Crossword.
Hypothesis wf : wf_crossword c = true.

Lemma unassigned_count_setitem (var : Var) (value : string) (a : Assignment) :
  In var (variables c) -> Dict.mem var a = false ->
  unassigned_count c (Dict.setitem var value a) < unassigned_count c a.
Proof.
  intros I M. unfold unassigned_count.
  apply filter_length_lt_pred with (x := var); try assumption.
  - intros y. rewrite mem_setitem, negb_orb, andb_true_iff. tauto.
  - now rewrite M.
  - now rewrite mem_setitem, eqb_refl.
Qed.

Lemma valid_assignment_setitem (var : Var) (value : string) (a : Assignment) :
  valid_assignment c a ->
  In var (variables c) -> String.length value = var_length var ->
  valid_assignment c (Dict.setitem var value a).
Proof.
  intros VA I L x w Ix. apply In_setitem in Ix. destruct Ix as [E | Ix].
  - inversion E; subst. now split.
  - now apply VA.
Qed.

Lemma try_values_returns
  (rec : Domains -> Heap -> nat -> res (option nat * Domains * Heap))
  (n : nat) (var : Var) (asg : nat) (a : Assignment) (values : list string) :
  (forall d h l,
     store_ok c d -> valid_assignment c (deref h l) -> l < next h ->
     unassigned_count c (deref h l) < n ->
     exists r d' h', rec d h l = Ok (r, d', h') /\ store_ok c d' /\
                     heap_extends h h') ->
  In var (variables c) -> Dict.mem var a = false ->
  valid_assignment c a -> unassigned_count c a <= n ->
  (forall v, In v values -> String.length v = var_length var) ->
  forall d h,
  store_ok c d -> deref h asg = a -> asg < next h ->
  exists r d' h',
    try_values c rec var asg values d h = Ok (r, d', h') /\
    store_ok c d' /\ heap_extends h h'.
Proof.
  intros R Iv M VA C.
  induction values as [| value values IH]; intros L d h S D B.
  - simpl. exists None, d, h. repeat split; try apply S; try lia.
  - rewrite try_values_cons.
    destruct (extend_spec h asg var value) as [h2 [X0 [Nx [Dn X]]]].
    rewrite X0, Dn, D.
    assert (Lv : String.length value = var_length var) by (apply L; now left).
    assert (L' : forall v, In v values -> String.length v = var_length var)
      by (intros v I; apply L; now right).
    pose proof (valid_assignment_setitem var value a VA Iv Lv) as VA'.
    assert (next_step : forall d' h', store_ok c d' -> heap_extends h h' ->
              exists r d'' h'',
                try_values c rec var asg values d' h' = Ok (r, d'', h'') /\
                store_ok c d'' /\ heap_extends h h'').
    { intros d' h' S' X'.
      destruct (IH L' d' h' S') as [r [d'' [h'' [E [S'' X'']]]]].
      - rewrite (proj2 X') by assumption. assumption.
      - destruct X'. lia.
      - exists r, d'', h''. split; [assumption |]. split; [assumption |].
        eapply heap_extends_trans; eassumption. }
    destruct (consistent_returns c wf _ VA') as [ok ->]. simpl.
    destruct ok; [| now apply next_step].
    destruct (ac3_returns c wf d
                (Some (map (fun neighbor => (var, neighbor)) (neighbors c var))) S)
      as [arc_ok [d1 [-> [S1 _]]]]. simpl.
    destruct arc_ok; [| now apply next_step].
    destruct (R d1 h2 (next h)) as [result [d2 [h3 [-> [S2 X3]]]]];
      try assumption.
    + now rewrite Dn, D.
    + lia.
    + rewrite Dn, D.
      pose proof (unassigned_count_setitem var value a Iv M). lia.
    + simpl. pose proof (heap_extends_trans h h2 h3 X X3) as X'.
      destruct (truthy h3 result); [| now apply next_step].
      exists result, d2, h3. split; [reflexivity | split; assumption].
Qed.

Lemma backtrack_returns (fuel : nat) :
  forall d h asg,
  store_ok c d -> valid_assignment c (deref h asg) -> asg < next h ->
  unassigned_count c (deref h asg) < fuel ->
  exists r d' h',
    backtrack c fuel d h asg = Ok (r, d', h') /\ store_ok c d' /\
    heap_extends h h'.
Proof.
  induction fuel as [| fuel IH]; intros d h asg S VA B C; [lia |].
  rewrite backtrack_S.
  destruct (assignment_complete c (deref h asg)) eqn:A.
  - exists (Some asg), d, h. split; [reflexivity |]. split; [assumption |].
    apply heap_extends_refl.
  - destruct (select_returns c d (deref h asg) S A) as [var E]. rewrite E. simpl.
    destruct (select_unassigned c d (deref h asg) var E) as [Iv M].
    destruct (order_domain_values_returns c wf d var (deref h asg) S Iv)
      as [values O].
    rewrite O. simpl.
    apply try_values_returns with (n := fuel) (a := deref h asg);
      try assumption; try reflexivity; try lia.
    intros v I. apply (proj2 S).
    eapply Permutation_in; [| eassumption].
    eapply order_domain_values_perm; eassumption.
Qed.

End BacktrackReturns.

(** ** More fuel never changes an outcome *)

Section Fuel.
Variable c : Crossword.

Lemma try_values_mono
  (rec1 rec2 : Domains -> Heap -> nat -> res (option nat * Domains * Heap))
  (var : Var) (asg : nat) (values : list string) :
  (forall d h l, rec1 d h l <> OutOfFuel -> rec2 d h l = rec1 d h l) ->
  forall d h,
  try_values c rec1 var asg values d h <> OutOfFuel ->
  try_values c rec2 var asg values d h = try_values c rec1 var asg values d h.
Proof.
  intros R. induction values as [| value values IH]; intros d h N.
  - reflexivity.
  - rewrite try_values_cons in N. rewrite !try_values_cons.
    destruct (extend h asg var value) as [new h2].
    destruct (consistent c (deref h2 new)) as [[|] | e |]; simpl in *;
      try reflexivity; [| now apply IH].
    destruct (ac3 c d _) as [[[|] d1] | e |]; simpl in *;
      try reflexivity; [| now apply IH].
    destruct (rec1 d1 h2 new) as [[[result d2] h3] | e |] eqn:E1.
    + rewrite R by (rewrite E1; discriminate). rewrite E1. simpl in *.
      destruct (truthy h3 result); [reflexivity | now apply IH].
    + rewrite R by (rewrite E1; discriminate). now rewrite E1.
    + simpl in N. contradiction.
Qed.

Lemma backtrack_mono (f1 : nat) :
  forall f2, f1 <= f2 ->
  forall d h asg,
  backtrack c f1 d h asg <> OutOfFuel ->
  backtrack c f2 d h asg = backtrack c f1 d h asg.
Proof.
  induction f1 as [| f1 IH]; intros f2 L d h asg N.
  - simpl in N. contradiction.
  - destruct f2 as [| f2]; [lia |].
    rewrite backtrack_S in N. rewrite !backtrack_S.
    destruct (assignment_complete c (deref h asg)); [reflexivity |].
    destruct (select_unassigned_variable c d (deref h asg)) as [var | e |];
      simpl in *; try reflexivity.
    destruct (order_domain_values c d var (deref h asg)) as [values | e |];
      simpl in *; try reflexivity.
    apply try_values_mono; [| assumption].
    intros d' h' l. apply IH. lia.
Qed.

Lemma solve_fuel_mono (f1 f2 : nat) (d : Domains) (h : Heap) :
  f1 <= f2 ->
  solve_fuel c f1 d h <> OutOfFuel ->
  solve_fuel c f2 d h = solve_fuel c f1 d h.
Proof.
  intros L N. unfold solve_fuel in *.
  destruct (enforce_node_consistency d) as [d0 | e |];
    cbn [bind] in *; try reflexivity.
  destruct (ac3 c d0 None) as [[b d1] | e |]; cbn [bind] in *; try reflexivity.
  destruct (alloc h []) as [l h1].
  now apply backtrack_mono.
Qed.

End Fuel.

(** ** The decision procedures are sound *)

Lemma agreeb_agree (i j : nat) (w w' : string) :
  agreeb i j w w' = true -> agree i j w w'.
Proof.
  unfold agreeb, agree.
  destruct (String.get i w) as [p |]; [| discriminate].
  destruct (String.get j w') as [q |]; [| discriminate].
  intros E. apply eqb_true_iff in E. subst q. now exists p.
Qed.

Lemma node_consistentb_sound (d : Domains) :
  node_consistentb d = true -> node_consistent d.
Proof.
  unfold node_consistentb, node_consistent, dom. intros E x w I.
  destruct (Dict.get x d) as [s |] eqn:G; [| contradiction].
  apply get_Some_In in G. rewrite forallb_forall in E.
  specialize (E _ G). simpl in E. rewrite forallb_forall in E.
  now apply Nat.eqb_eq, E.
Qed.

Lemma arc_consistentb_sound (c : Crossword) (d : Domains) :
  arc_consistentb c d = true -> arc_consistent c d.
Proof.
  unfold arc_consistentb. intros E x y i j O w I.
  assert (G : exists o, Dict.get (x, y) (overlaps c) = Some o).
  { unfold overlaps_get in O.
    destruct (Dict.get (x, y) (overlaps c)) as [o |]; [eauto | discriminate]. }
  destruct G as [o G]. apply get_Some_In in G.
  rewrite forallb_forall in E. specialize (E _ G). simpl in E.
  rewrite O in E. rewrite forallb_forall in E. specialize (E w I).
  apply existsb_exists in E. destruct E as [w' [I' A]].
  exists w'. split; [assumption | now apply agreeb_agree].
Qed.

Lemma keys_okb_sound (c : Crossword) (d : Domains) :
  keys_okb c d = true -> keys_ok c d.
Proof.
  unfold keys_okb. rewrite andb_true_iff, !forallb_forall.
  intros [A B] x. split; intros I.
  - now apply set_mem_true_iff, A.
  - now apply set_mem_true_iff, B.
Qed.

(** ** The full queue covers every arc *)

Lemma all_arcs_In (d : Domains) (x y : Var) :
  In (x, y) (all_arcs d) <->
  In x (Dict.keys d) /\ In y (Dict.keys d) /\ x <> y.
Proof.
  unfold all_arcs. rewrite in_flat_map. split.
  - intros [x' [Ix I]]. apply in_flat_map in I. destruct I as [y' [Iy I]].
    destruct (eqb x' y') eqn:E; [contradiction |].
    destruct I as [Q | []]. inversion Q; subst.
    apply eqb_false_iff in E. tauto.
  - intros [Ix [Iy N]]. exists x. split; [assumption |].
    apply in_flat_map. exists y. split; [assumption |].
    assert (E : eqb x y = false) by now apply eqb_false_iff.
    rewrite E. now left.
Qed.

Lemma all_arcs_cover (c : Crossword) (d : Domains) :
  wf_crossword c = true -> keys_ok c d -> arcs_cover c d (all_arcs d).
Proof.
  intros wf K x y i j O. right.
  destruct (wf_overlap c wf x y i j O) as [Vx [Vy [N _]]].
  apply all_arcs_In. split; [now apply K |]. split; [now apply K | assumption].
Qed.

(** An arc-consistent store is covered by any queue. *)
Lemma arc_consistent_cover (c : Crossword) (d : Domains)
  (q : list (Var * Var)) :
  arc_consistent c d -> arcs_cover c d q.
Proof. intros AC x y i j O. left. now apply AC. Qed.

(** ** A second revision finds nothing to remove *)

Lemma unsupported_none (i j : nat) (y : Var) (d : Domains) (xs : list string) :
  (forall w, In w xs ->
     exists ys, Dict.get y d = Some ys /\ any_agree i j w ys = Ok true) ->
  unsupported i j y d xs = Ok [].
Proof.
  unfold unsupported. generalize (@nil string) as acc.
  induction xs as [| x xs IH]; intros acc S; simpl.
  - reflexivity.
  - destruct (S x (or_introl eq_refl)) as [ys [G A]].
    unfold Dict.getitem at 1. rewrite G. simpl. rewrite A. simpl.
    apply IH. intros w I. apply S. now right.
Qed.

(** ** [solve] *)

Lemma unassigned_count_le (c : Crossword) (a : Assignment) :
  unassigned_count c a <= List.length (variables c).
Proof. apply filter_length_le. Qed.

Lemma assignment_complete_true (c : Crossword) (a : Assignment) :
  assignment_complete c a = true -> complete_assignment c a.
Proof.
  unfold assignment_complete, complete_assignment. rewrite forallb_forall.
  intros E x I. specialize (E x I). unfold Dict.mem in E.
  destruct (Dict.get x a) as [w |]; [now exists w | discriminate].
Qed.

Section Solve.
Variable c : Crossword.

Lemma solve_fuel_inv (fuel : nat) (d d' : Domains) (h h' : Heap)
  (r : option nat) :
  solve_fuel c fuel d h = Ok (r, d', h') ->
  exists d0 b d1,
    enforce_node_consistency d = Ok d0 /\
    ac3 c d0 None = Ok (b, d1) /\
    backtrack c fuel d1 (snd (alloc h [])) (next h) = Ok (r, d', h').
Proof.
  unfold solve_fuel. intros E.
  inv_bind E. inv_bind E. destruct a0 as [b d1].
  exists a, b, d1. repeat split; assumption.
Qed.

Lemma solve_sound (fuel : nat) (d d' : Domains) (h h' : Heap) (l : nat) :
  solve_fuel c fuel d h = Ok (Some l, d', h') -> solution c (deref h' l).
Proof.
  intros E.
  destruct (solve_fuel_inv fuel d d' h h' (Some l) E) as [d0 [b [d1 [_ [_ B]]]]].
  eapply backtrack_sound; [eassumption |].
  unfold alloc, deref. simpl. now rewrite Nat.eqb_refl.
Qed.

Lemma solve_returns (d : Domains) (h : Heap) :
  wf_crossword c = true -> keys_ok c d ->
  exists r d' h', solve c d h = Ok (r, d', h').
Proof.
  intros wf K. unfold solve, solve_fuel.
  destruct (enforce_store_ok c d K) as [d0 [-> S0]]. cbn [bind].
  destruct (ac3_returns c wf d0 None S0) as [b [d1 [-> [S1 _]]]]. cbn [bind].
  change (alloc h []) with (next h, snd (alloc h [])). cbn iota.
  assert (D : deref (snd (alloc h [])) (next h) = [])
    by (unfold alloc, deref; simpl; now rewrite Nat.eqb_refl).
  destruct (backtrack_returns c wf (S (List.length (variables c))) d1
              (snd (alloc h [])) (next h))
    as [res [d2 [h' [E _]]]]; try assumption.
  - rewrite D. intros x w [].
  - simpl. lia.
  - rewrite D. pose proof (unassigned_count_le c []). lia.
  - eauto.
Qed.

End Solve.

(** ** The tie-break of [select_unassigned_variable] *)

Ltac key_order :=
  unfold key_lt in *;
  repeat match goal with
         | p : (Z * Z)%type |- _ => destruct p
         end;
  simpl in *;
  repeat rewrite ?orb_true_iff, ?andb_true_iff, ?orb_false_iff,
    ?andb_false_iff, ?Z.ltb_lt, ?Z.ltb_ge, ?Z.eqb_eq, ?Z.eqb_neq in *;
  lia.

Lemma key_lt_trans (k1 k2 k3 : Z * Z) :
  key_lt k1 k2 = true -> key_lt k2 k3 = true -> key_lt k1 k3 = true.
Proof. intros A B. key_order. Qed.

Lemma key_lt_le_trans (k1 k2 k3 : Z * Z) :
  key_lt k1 k2 = true -> key_lt k3 k2 = false -> key_lt k1 k3 = true.
Proof. intros A B. key_order. Qed.

Lemma key_lt_asym (k1 k2 : Z * Z) :
  key_lt k1 k2 = true -> key_lt k2 k1 = false.
Proof. intros A. key_order. Qed.

Lemma key_lt_irrefl (k : Z * Z) : key_lt k k = false.
Proof. key_order. Qed.

(** [min] answers with the first element whose key is minimal: every
    element before it has a larger key, no element after it a smaller
    one. *)
Lemma min_by_first_minimal (l : list (Var * (Z * Z))) :
  forall best,
  exists l1 k l2,
    best :: l = l1 ++ (min_by best l, k) :: l2 /\
    (forall e, In e l1 -> key_lt k (snd e) = true) /\
    (forall e, In e l2 -> key_lt (snd e) k = false).
Proof.
  induction l as [| vk l IH]; intros best; simpl.
  - exists [], (snd best), []. destruct best. simpl.
    split; [reflexivity |]. split; intros e [].
  - destruct (key_lt (snd vk) (snd best)) eqn:Q.
    + destruct (IH vk) as [l1 [k [l2 [E [B A]]]]].
      exists (best :: l1), k, l2. simpl. rewrite E.
      split; [reflexivity |]. split; [| exact A].
      intros e [<- | I]; [| now apply B].
      destruct l1 as [| e1 l1]; simpl in E; injection E as E1 E2.
      * apply (f_equal snd) in E1. simpl in E1. now rewrite <- E1.
      * subst e1. eapply key_lt_trans; [| exact Q]. apply B. now left.
    + destruct (IH best) as [l1 [k [l2 [E [B A]]]]].
      destruct l1 as [| e1 l1]; simpl in E; injection E as E1 E2.
      * exists [], k, (vk :: l2). simpl. rewrite <- E1, <- E2.
        apply (f_equal snd) in E1. simpl in E1.
        split; [reflexivity |]. split; [intros e [] |].
        intros e [<- | I]; [now rewrite <- E1 | apply A; now rewrite <- E2].
      * subst e1. exists (best :: vk :: l1), k, l2. simpl.
        split; [do 2 f_equal; exact E2 |]. split; [| exact A].
        intros e [<- | [<- | I]].
        -- apply B. now left.
        -- eapply key_lt_le_trans; [| exact Q]. apply B. now left.
        -- apply B. now right.
Qed.

Lemma min_by_minimal (l : list (Var * (Z * Z))) (best : Var * (Z * Z)) :
  exists k, In (min_by best l, k) (best :: l) /\
            forall e, In e (best :: l) -> key_lt (snd e) k = false.
Proof.
  destruct (min_by_first_minimal l best) as [l1 [k [l2 [E [B A]]]]].
  exists k. rewrite E. split.
  - apply in_or_app. right. now left.
  - intros e I. apply in_app_or in I. destruct I as [I | [<- | I]].
    + apply key_lt_asym. now apply B.
    + apply key_lt_irrefl.
    + now apply A.
Qed.

Lemma mapM_combine (A B : Type) (f : A -> res B) (l : list A) :
  forall bs, mapM f l = Ok bs ->
  forall a b, In (a, b) (combine l bs) -> f a = Ok b.
Proof.
  induction l as [| x l IH]; simpl; intros bs E a b I.
  - contradiction.
  - inv_bind E. inv_bind E. inversion E; subst. simpl in I.
    destruct I as [Q | I]; [now inversion Q; subst | eauto].
Qed.

Lemma combine_In_l (A B : Type) (l : list A) :
  forall (bs : list B) a, List.length bs = List.length l -> In a l ->
  exists b, In (a, b) (combine l bs).
Proof.
  induction l as [| x l IH]; intros [| b bs] a L I; simpl in *;
    try contradiction; try discriminate.
  destruct I as [-> | I].
  - exists b. now left.
  - destruct (IH bs a) as [b' I']; [congruence | assumption |].
    exists b'. now right.
Qed.

Section Selection.
Variable c : Crossword.

(** The slot selected has a domain no larger than that of any other
    unassigned slot. *)
Lemma select_min_domain (d : Domains) (a : Assignment) (var : Var) :
  select_unassigned_variable c d a = Ok var ->
  forall x, In x (variables c) -> Dict.mem x a = false ->
  List.length (dom d var) <= List.length (dom d x).
Proof.
  unfold select_unassigned_variable. intros E x Ix Mx. inv_bind E.
  set (un := filter (fun var => negb (Dict.mem var a)) (variables c)) in *.
  destruct (combine un a0) as [| vk l] eqn:Q; [discriminate |].
  inversion E; subst var.
  destruct (min_by_minimal l vk) as [k [Im Min]]. rewrite <- Q in Im, Min.
  assert (Ux : In x un) by (apply filter_In; now rewrite Mx).
  destruct (combine_In_l _ _ un a0 x (mapM_length _ _ _ _ _ E0) Ux) as [kx Ikx].
  specialize (Min _ Ikx). simpl in Min.
  apply (mapM_combine _ _ _ _ _ E0) in Im, Ikx.
  unfold select_key in Im, Ikx. inv_bind Im. inv_bind Ikx.
  apply of_option_Ok in E1, E2. inversion Im; subst k. inversion Ikx; subst kx.
  unfold dom. rewrite E1, E2. key_order.
Qed.

(** With an unassigned slot whose domain is empty, [backtrack] tries no
    candidate at all. *)
Lemma backtrack_empty_domain (fuel : nat) (d d' : Domains) (h h' : Heap)
  (asg : nat) (r : option nat) (x : Var) :
  In x (variables c) -> Dict.mem x (deref h asg) = false -> dom d x = [] ->
  backtrack c fuel d h asg = Ok (r, d', h') ->
  r = None /\ d' = d /\ h' = h.
Proof.
  intros Ix Mx Dx E. destruct fuel as [| fuel]; [discriminate |].
  rewrite backtrack_S in E.
  destruct (assignment_complete c (deref h asg)) eqn:A.
  - exfalso. unfold assignment_complete in A. rewrite forallb_forall in A.
    specialize (A x Ix). congruence.
  - inv_bind E. inv_bind E.
    pose proof (select_min_domain d (deref h asg) a E0 x Ix Mx) as L.
    rewrite Dx in L. simpl in L.
    pose proof (order_domain_values_perm c d a (deref h asg) a0 E1) as P.
    apply Permutation_length in P.
    destruct a0 as [| v vs]; [| simpl in P; lia].
    simpl in E. inversion E; subst. auto.
Qed.

End Selection.

(** ** [ac3] fails exactly when a revision empties a domain *)

Section Ac3Outcome.
Variable c : Crossword.

Lemma ac3_loop_false (fuel : nat) :
  forall (d : Domains) (q : list (Var * Var)) (d' : Domains),
  ac3_loop c fuel d q = Ok (false, d') ->
  exists x xs, Dict.get x d' = Some [] /\ Dict.get x d = Some xs /\ xs <> [].
Proof.
  induction fuel as [| fuel IH]; intros d [| [x y] rest] d' E; simpl in E;
    try discriminate.
  inv_bind E. destruct a as [revised d1].
  assert (G : forall q', ac3_loop c fuel d1 q' = Ok (false, d') ->
              exists x xs, Dict.get x d' = Some [] /\ Dict.get x d = Some xs /\
                           xs <> []).
  { intros q' E'. destruct (IH _ _ _ E') as [z [zs [G1 [G2 N]]]].
    destruct (revise_shrinks c x y d d1 revised E0) as [K [S _]].
    assert (Kz : In z (Dict.keys d))
      by (rewrite <- K; eapply get_Some_keys; eassumption).
    apply keys_get in Kz. destruct Kz as [zs0 G0].
    exists z, zs0. split; [assumption |]. split; [assumption |].
    intros ->. destruct zs as [| w zs]; [congruence |].
    specialize (S z w). unfold dom in S. rewrite G2, G0 in S.
    apply S. now left. }
  destruct revised; [| eauto].
  inv_bind E. apply of_option_Ok in E1.
  destruct a as [| w ws]; simpl in E; [| eauto].
  inversion E; subst d'.
  destruct (revise_true c x y d d1 E0) as [i [j O]].
  destruct (revise_effect c x y d d1 true i j O E0) as [_ [_ [_ [_ Ht]]]].
  destruct (Ht eq_refl) as [_ [w [I _]]].
  unfold dom in I. destruct (Dict.get x d) as [xs |] eqn:Gx; [| contradiction].
  exists x, xs. split; [assumption |]. split; [exact Gx |].
  intros ->. contradiction.
Qed.

Lemma ac3_loop_true (fuel : nat) :
  forall (d : Domains) (q : list (Var * Var)) (d' : Domains),
  ac3_loop c fuel d q = Ok (true, d') ->
  forall x, Dict.get x d' = Some [] -> Dict.get x d = Some [].
Proof.
  induction fuel as [| fuel IH]; intros d [| [x y] rest] d' E z G; simpl in E;
    try discriminate; try (inversion E; now subst).
  inv_bind E. destruct a as [revised d1]. destruct revised.
  - inv_bind E. apply of_option_Ok in E1.
    destruct a as [| w ws]; simpl in E; [discriminate |].
    pose proof (IH _ _ _ E z G) as G1.
    destruct (revise_true c x y d d1 E0) as [i [j O]].
    destruct (revise_effect c x y d d1 true i j O E0) as [_ [Hz _]].
    destruct (eq_dec z x) as [-> | N]; [congruence |].
    now rewrite <- Hz.
  - destruct (revise_false c x y d d1 E0) as [-> _]. eauto.
Qed.

End Ac3Outcome.

(** ** [backtrack] only ever shrinks the domains *)

Section Shrinks.
Variable c : Crossword.

Lemma try_values_shrinks
  (rec : Domains -> Heap -> nat -> res (option nat * Domains * Heap))
  (var : Var) (asg : nat) (values : list string) :
  (forall d h l r d' h', rec d h l = Ok (r, d', h') ->
     forall z w, In w (dom d' z) -> In w (dom d z)) ->
  forall d h r d' h',
  try_values c rec var asg values d h = Ok (r, d', h') ->
  forall z w, In w (dom d' z) -> In w (dom d z).
Proof.
  intros R. induction values as [| value values IH]; intros d h r d' h' E z w I.
  - simpl in E. inversion E; now subst.
  - rewrite try_values_cons in E.
    destruct (extend h asg var value) as [new h2].
    inv_bind E. destruct a; [| eauto].
    inv_bind E. destruct a as [arc_ok d1].
    assert (S1 : forall z w, In w (dom d1 z) -> In w (dom d z)).
    { unfold ac3 in E1. eapply ac3_loop_shrinks. eassumption. }
    destruct arc_ok; [| eauto].
    inv_bind E. destruct a as [[result d2] h3].
    pose proof (R _ _ _ _ _ _ E2) as S2.
    destruct (truthy h3 result).
    + inversion E; subst. auto.
    + eauto.
Qed.

Lemma backtrack_shrinks (fuel : nat) :
  forall d h asg r d' h',
  backtrack c fuel d h asg = Ok (r, d', h') ->
  forall z w, In w (dom d' z) -> In w (dom d z).
Proof.
  induction fuel as [| fuel IH]; intros d h asg r d' h' E.
  - discriminate.
  - rewrite backtrack_S in E.
    destruct (assignment_complete c (deref h asg)).
    + inversion E; subst. auto.
    + inv_bind E. inv_bind E.
      eapply try_values_shrinks; [| eassumption]. exact IH.
Qed.

End Shrinks.

(** ** In [solve] the search leaves the store as [ac3] left it *)

Lemma solve_store (c : Crossword) (d d' : Domains) (h h' : Heap)
  (r : option nat) :
  wf_crossword c = true -> keys_ok c d ->
  solve c d h = Ok (r, d', h') ->
  exists d0 b,
    enforce_node_consistency d = Ok d0 /\
    ac3 c d0 None = Ok (b, d').
Proof.
  intros wf K E.
  destruct (solve_fuel_inv c _ d d' h h' r E) as [d0 [b [d1 [E0 [E1 B]]]]].
  exists d0, b. split; [exact E0 |].
  destruct (enforce_store_ok c d K) as [d0' [E0' S0]].
  assert (d0' = d0) by congruence. subst d0'.
  assert (S1 : store_ok c d1)
    by (unfold ac3 in E1; eapply ac3_loop_store_ok; eassumption).
  destruct b.
  - assert (AC : arc_consistent c d1).
    { unfold ac3 in E1. eapply ac3_loop_arc_consistent; [exact wf | | exact E1].
      apply all_arcs_cover; [exact wf | apply S0]. }
    pose proof (backtrack_domains c _ d1 AC _ _ _ _ _ B) as ->. exact E1.
  - unfold ac3 in E1.
    destruct (ac3_loop_false c _ _ _ _ E1) as [x [xs [G _]]].
    assert (Ix : In x (variables c))
      by (apply (proj1 S1); eapply get_Some_keys; eassumption).
    destruct (backtrack_empty_domain c (S (List.length (variables c)))
                d1 d' (snd (alloc h [])) h' (next h) r x Ix) as [_ [-> _]];
      try assumption.
    + unfold alloc, deref. simpl. now rewrite Nat.eqb_refl.
    + unfold dom. now rewrite G.
Qed.

(** ** The tie-break of [order_domain_values]: a stable ascending sort *)

Lemma insert_by_key_Forall (P : nat * string -> Prop) (kv : nat * string)
  (l : list (nat * string)) :
  P kv -> Forall P l -> Forall P (insert_by_key kv l).
Proof.
  intros Pk F. induction F as [| kv' l Pk' F IH]; simpl.
  - now constructor.
  - destruct (Nat.leb (fst kv) (fst kv')); repeat constructor; assumption.
Qed.

Lemma insert_by_key_sorted (kv : nat * string) (l : list (nat * string)) :
  StronglySorted key_le l -> StronglySorted key_le (insert_by_key kv l).
Proof.
  intros S. induction S as [| kv' l S IH F]; simpl.
  - repeat constructor.
  - destruct (Nat.leb (fst kv) (fst kv')) eqn:L.
    + apply Nat.leb_le in L. constructor; [now constructor |].
      constructor; [exact L |].
      eapply Forall_impl; [| exact F]. unfold key_le. intros e. lia.
    + apply Nat.leb_gt in L. constructor; [exact IH |].
      apply insert_by_key_Forall; [unfold key_le; lia | exact F].
Qed.

Lemma sorted_by_key_sorted (l : list (nat * string)) :
  StronglySorted key_le (sorted_by_key l).
Proof.
  induction l as [| kv l IH]; simpl; [constructor |].
  now apply insert_by_key_sorted.
Qed.

(** Elements with equal keys keep their relative order. *)
Lemma insert_by_key_stable (k : nat) (kv : nat * string)
  (l : list (nat * string)) :
  filter (fun e => Nat.eqb (fst e) k) (insert_by_key kv l) =
  filter (fun e => Nat.eqb (fst e) k) (kv :: l).
Proof.
  induction l as [| kv' l IH]; [reflexivity |].
  simpl insert_by_key. destruct (Nat.leb (fst kv) (fst kv')) eqn:L;
    [reflexivity |].
  apply Nat.leb_gt in L. simpl in *. rewrite IH.
  destruct (Nat.eqb (fst kv) k) eqn:A; destruct (Nat.eqb (fst kv') k) eqn:B;
    try reflexivity.
  apply Nat.eqb_eq in A, B. lia.
Qed.

Lemma sorted_by_key_stable (k : nat) (l : list (nat * string)) :
  filter (fun e => Nat.eqb (fst e) k) (sorted_by_key l) =
  filter (fun e => Nat.eqb (fst e) k) l.
Proof.
  induction l as [| kv l IH]; [reflexivity |].
  simpl sorted_by_key. rewrite insert_by_key_stable. simpl. now rewrite IH.
Qed.

(** ** Fuel is never the reason [solve] stops *)

Section BacktrackFuel.
Variable c : Crossword.

Lemma check_neighbors_fuel (a : Assignment) (var : Var) (value : string)
  (ns : list Var) :
  check_neighbors c a var value ns <> OutOfFuel.
Proof.
  induction ns as [| n ns IH]; simpl; [discriminate |].
  destruct (Dict.get n a) as [nv |]; [| exact IH].
  apply bind_fuel; [apply getitem_fuel |]. intros [[i j] |] _; [| exact IH].
  apply bind_fuel; [apply index_fuel |]. intros p _.
  apply bind_fuel; [apply index_fuel |]. intros q _.
  destruct (negb (eqb p q)); [discriminate | exact IH].
Qed.

Lemma check_items_fuel (a : Assignment) (items : list (Var * string)) :
  check_items c a items <> OutOfFuel.
Proof.
  induction items as [| [var value] items IH]; simpl; [discriminate |].
  destruct (negb _); [discriminate |].
  apply bind_fuel; [apply check_neighbors_fuel |].
  intros [|] _; [exact IH | discriminate].
Qed.

Lemma consistent_fuel (a : Assignment) : consistent c a <> OutOfFuel.
Proof.
  unfold consistent. destruct (negb _); [discriminate |].
  apply check_items_fuel.
Qed.

Lemma select_fuel (d : Domains) (a : Assignment) :
  select_unassigned_variable c d a <> OutOfFuel.
Proof.
  unfold select_unassigned_variable. apply bind_fuel.
  - apply mapM_fuel. intros v. unfold select_key.
    apply bind_fuel; [apply getitem_fuel | discriminate].
  - intros ks _. destruct (combine _ ks); discriminate.
Qed.

Lemma count_conflicts_fuel (d : Domains) (var : Var) (a : Assignment)
  (value : string) :
  count_conflicts c d var a value <> OutOfFuel.
Proof.
  unfold count_conflicts. apply foldM_fuel. intros n v.
  destruct (Dict.mem v a); [discriminate |].
  apply bind_fuel; [apply getitem_fuel |]. intros [[i j] |] _; [| discriminate].
  apply bind_fuel; [apply getitem_fuel |]. intros ns _.
  apply foldM_fuel. intros k nv.
  apply bind_fuel; [apply index_fuel |]. intros p _.
  apply bind_fuel; [apply index_fuel | discriminate].
Qed.

Lemma order_domain_values_fuel (d : Domains) (var : Var) (a : Assignment) :
  order_domain_values c d var a <> OutOfFuel.
Proof.
  unfold order_domain_values.
  apply bind_fuel; [apply getitem_fuel |]. intros s _.
  apply bind_fuel; [| discriminate].
  apply mapM_fuel. apply count_conflicts_fuel.
Qed.

Lemma try_values_fuel
  (rec : Domains -> Heap -> nat -> res (option nat * Domains * Heap))
  (n : nat) (var : Var) (asg : nat) (a : Assignment) (values : list string) :
  (forall d h l, l < next h -> unassigned_count c (deref h l) < n ->
     rec d h l <> OutOfFuel) ->
  (forall d h l r d' h', rec d h l = Ok (r, d', h') -> heap_extends h h') ->
  In var (variables c) -> Dict.mem var a = false ->
  unassigned_count c a <= n ->
  forall d h, deref h asg = a -> asg < next h ->
  try_values c rec var asg values d h <> OutOfFuel.
Proof.
  intros R F Iv M C.
  induction values as [| value values IH]; intros d h D B; [discriminate |].
  rewrite try_values_cons.
  destruct (extend_spec h asg var value) as [h2 [X0 [Nx [Dn X]]]].
  rewrite X0.
  assert (next_step : forall d' h', heap_extends h h' ->
            try_values c rec var asg values d' h' <> OutOfFuel).
  { intros d' h' [L E]. apply IH; [| lia]. now rewrite E. }
  apply bind_fuel; [apply consistent_fuel |].
  intros [|] _; [| now apply next_step].
  apply bind_fuel; [apply ac3_fuel_enough |].
  intros [[|] d1] _; [| now apply next_step].
  apply bind_fuel.
  - apply R; [lia |]. rewrite Dn, D.
    pose proof (unassigned_count_setitem c var value a Iv M). lia.
  - intros [[result d2] h3] E.
    destruct (truthy h3 result); [discriminate |].
    apply next_step. eapply heap_extends_trans; [exact X |].
    eapply F. exact E.
Qed.

Lemma backtrack_fuel_enough (fuel : nat) :
  forall d h asg,
  asg < next h -> unassigned_count c (deref h asg) < fuel ->
  backtrack c fuel d h asg <> OutOfFuel.
Proof.
  induction fuel as [| fuel IH]; intros d h asg B C; [lia |].
  rewrite backtrack_S.
  destruct (assignment_complete c (deref h asg)); [discriminate |].
  apply bind_fuel; [apply select_fuel |]. intros var E.
  destruct (select_unassigned c d (deref h asg) var E) as [Iv M].
  apply bind_fuel; [apply order_domain_values_fuel |]. intros values _.
  apply try_values_fuel with (n := fuel) (a := deref h asg).
  - intros d' h' l. apply IH.
  - exact (backtrack_frame c fuel).
  - exact Iv.
  - exact M.
  - lia.
  - reflexivity.
  - exact B.
Qed.

Lemma enforce_node_consistency_fuel (d : Domains) :
  enforce_node_consistency d <> OutOfFuel.
Proof.
  destruct (enforce_node_consistency_spec d) as [d' [-> _]]. discriminate.
Qed.

(** The depth [solve] grants suffices, whatever the structure. *)
Lemma solve_fuel_enough (d : Domains) (h : Heap) : solve c d h <> OutOfFuel.
Proof.
  unfold solve, solve_fuel.
  apply bind_fuel; [apply enforce_node_consistency_fuel |]. intros d0 _.
  apply bind_fuel; [apply ac3_fuel_enough |]. intros [b d1] _.
  change (alloc h []) with (next h, snd (alloc h [])). cbn iota.
  apply backtrack_fuel_enough.
  - simpl. lia.
  - assert (D : deref (snd (alloc h [])) (next h) = [])
      by (unfold alloc, deref; simpl; now rewrite Nat.eqb_refl).
    rewrite D. pose proof (unassigned_count_le c []). lia.
Qed.

(** Every run that finishes has the outcome of [solve]. *)
Lemma solve_fuel_solve (fuel : nat) (d : Domains) (h : Heap) :
  solve_fuel c fuel d h <> OutOfFuel -> solve_fuel c fuel d h = solve c d h.
Proof.
  intros N. unfold solve.
  destruct (Nat.le_ge_cases fuel (S (List.length (variables c)))) as [L | L].
  - symmetry. now apply solve_fuel_mono.
  - apply solve_fuel_mono; [exact L |]. apply solve_fuel_enough.
Qed.

End BacktrackFuel.

(** ** The heap a run starts from does not show in its outcome *)

Lemma truthy_deref (h1 h2 : Heap) (r1 r2 : option nat) :
  option_map (deref h1) r1 = option_map (deref h2) r2 ->
  truthy h1 r1 = truthy h2 r2.
Proof.
  destruct r1 as [l1 |], r2 as [l2 |]; simpl; intros E; try discriminate;
    [| reflexivity].
  inversion E as [E']. now rewrite E'.
Qed.

Section HeapIndependence.
Variable c : Crossword.

Lemma try_values_same
  (rec : Domains -> Heap -> nat -> res (option nat * Domains * Heap))
  (var : Var) (asg1 asg2 : nat) (values : list string) :
  (forall d h1 l1 h2 l2,
     deref h1 l1 = deref h2 l2 -> l1 < next h1 -> l2 < next h2 ->
     same_outcome (rec d h1 l1) (rec d h2 l2)) ->
  (forall d h l r d' h', rec d h l = Ok (r, d', h') -> heap_extends h h') ->
  forall d h1 h2,
  deref h1 asg1 = deref h2 asg2 -> asg1 < next h1 -> asg2 < next h2 ->
  same_outcome (try_values c rec var asg1 values d h1)
               (try_values c rec var asg2 values d h2).
Proof.
  intros R F. induction values as [| value values IH]; intros d h1 h2 D B1 B2.
  - simpl. now split.
  - rewrite !try_values_cons.
    destruct (extend_spec h1 asg1 var value) as [k1 [-> [N1 [D1 X1]]]].
    destruct (extend_spec h2 asg2 var value) as [k2 [-> [N2 [D2 X2]]]].
    assert (Dn : deref k1 (next h1) = deref k2 (next h2)) by congruence.
    assert (next_step : forall d' m1 m2,
              heap_extends h1 m1 -> heap_extends h2 m2 ->
              same_outcome (try_values c rec var asg1 values d' m1)
                           (try_values c rec var asg2 values d' m2)).
    { intros d' m1 m2 [L1 E1] [L2 E2]. apply IH; try lia.
      rewrite E1, E2 by assumption. exact D. }
    rewrite Dn.
    destruct (consistent c (deref k2 (next h2))) as [[|] | e |]; simpl;
      try reflexivity; try exact I; [| now apply next_step].
    destruct (ac3 c d _) as [[[|] d1] | e |]; simpl;
      try reflexivity; try exact I; [| now apply next_step].
    assert (S : same_outcome (rec d1 k1 (next h1)) (rec d1 k2 (next h2)))
      by (apply R; [exact Dn | lia | lia]).
    destruct (rec d1 k1 (next h1)) as [[[r1 e1] m1] | e1 |] eqn:E1;
      destruct (rec d1 k2 (next h2)) as [[[r2 e2] m2] | e2 |] eqn:E2;
      simpl in S; try contradiction; simpl; try assumption.
    destruct S as [S ->]. rewrite (truthy_deref m1 m2 r1 r2 S).
    destruct (truthy m2 r2).
    + simpl. now split.
    + apply next_step.
      * eapply heap_extends_trans; [exact X1 | eapply F; exact E1].
      * eapply heap_extends_trans; [exact X2 | eapply F; exact E2].
Qed.

Lemma backtrack_same (fuel : nat) :
  forall d h1 l1 h2 l2,
  deref h1 l1 = deref h2 l2 ->
  l1 < next h1 -> l2 < next h2 ->
  same_outcome (backtrack c fuel d h1 l1) (backtrack c fuel d h2 l2).
Proof.
  induction fuel as [| fuel IH]; intros d h1 l1 h2 l2 D B1 B2.
  - exact I.
  - rewrite !backtrack_S. rewrite D.
    destruct (assignment_complete c (deref h2 l2)).
    + simpl. split; [now rewrite D | reflexivity].
    + destruct (select_unassigned_variable c d (deref h2 l2)) as [var | e |];
        simpl; try reflexivity; try exact I.
      destruct (order_domain_values c d var (deref h2 l2)) as [values | e |];
        simpl; try reflexivity; try exact I.
      apply try_values_same.
      * exact IH.
      * exact (backtrack_frame c fuel).
      * exact D.
      * exact B1.
      * exact B2.
Qed.

Lemma solve_same (fuel : nat) (d : Domains) (h1 h2 : Heap) :
  same_outcome (solve_fuel c fuel d h1) (solve_fuel c fuel d h2).
Proof.
  unfold solve_fuel.
  destruct (enforce_node_consistency d) as [d0 | e |]; cbn [bind];
    try reflexivity; try exact I.
  destruct (ac3 c d0 None) as [[b d1] | e |]; cbn [bind];
    try reflexivity; try exact I.
  change (alloc h1 []) with (next h1, snd (alloc h1 [])).
  change (alloc h2 []) with (next h2, snd (alloc h2 [])). cbn iota.
  apply backtrack_same.
  - unfold alloc, deref. simpl. now rewrite !Nat.eqb_refl.
  - simpl. lia.
  - simpl. lia.
Qed.

End HeapIndependence.

Lemma observe_same (o1 o2 : res (option nat * Domains * Heap)) :
  same_outcome o1 o2 -> observe o1 = observe o2.
Proof.
  destruct o1 as [[[r1 d1] h1] | e1 |], o2 as [[[r2 d2] h2] | e2 |]; simpl;
    try contradiction; try reflexivity.
  - intros [-> ->]. reflexivity.
  - intros ->. reflexivity.
Qed.

(** ** The scenarios of the specification *)

Local Open Scope string_scope.

(** One slot of one letter and the vocabulary A, B: the slot gets one of
    the two words. *)
Example solve_single :
  generate cw_single = Ok (Some [(single, "A")], [(single, ["A"; "B"])]).
Proof. reflexivity. Qed.

(** Which of the two depends on the order in which the vocabulary is
    iterated: ties are broken by position. *)
Example solve_single_rev :
  generate cw_single_rev = Ok (Some [(single, "B")], [(single, ["B"; "A"])]).
Proof. reflexivity. Qed.

(** CAT, DOG and TIE have three different middle letters, and no word
    may be used twice. *)
Example solve_middle :
  generate cw_middle
  = Ok (None, [(mid_across, ["CAT"; "DOG"; "TIE"]);
               (mid_down, ["CAT"; "DOG"; "TIE"])]).
Proof. reflexivity. Qed.

(** Fewer words than slots of their length. *)
Example solve_twin : generate cw_twin = Ok (None, twin_store).
Proof. reflexivity. Qed.

(** Without overlaps [ac3] prunes nothing and the search only has to
    keep the words distinct. *)
Example solve_apart :
  generate cw_apart
  = Ok (Some [(apart_top, "AB"); (apart_bottom, "CD")],
        [(apart_top, ["AB"; "CD"]); (apart_bottom, ["AB"; "CD"])]).
Proof. reflexivity. Qed.

Example solve_cross :
  generate cw_cross
  = Ok (Some [(slot_across, "AB"); (slot_down, "BA")], cross_store).
Proof. reflexivity. Qed.

Example wf_examples :
  forallb wf_crossword
    [cw_cross; cw_stuck; cw_short; cw_corner; cw_twin; cw_apart; cw_single;
     cw_single_rev; cw_middle; cw_empty] = true.
Proof. reflexivity. Qed.

Local Close Scope string_scope.

(** ** Pruning keeps every family of words that supports itself *)

Section Keeps.
Variable c : Crossword.
Variable P : Var -> string -> Prop.
Hypothesis closed : forall x y i j w,
  overlaps_get c x y = Some (i, j) -> P x w ->
  exists w', P y w' /\ agree i j w w'.

Lemma revise_keeps (x y : Var) (d d' : Domains) (b : bool) :
  (forall z w, P z w -> In w (dom d z)) ->
  revise c x y d = Ok (b, d') ->
  forall z w, P z w -> In w (dom d' z).
Proof.
  intros I E z w Pz.
  destruct (overlaps_get c x y) as [[i j] |] eqn:O.
  - destruct (revise_effect c x y d d' b i j O E) as [Dx [Dz _]].
    destruct (eq_dec z x) as [-> | N].
    + apply Dx. split; [now apply I |].
      destruct (closed x y i j w O Pz) as [w' [Py A]].
      exists w'. split; [now apply I | exact A].
    + unfold dom. rewrite (Dz z N). now apply I.
  - rewrite (revise_no_overlap c x y d O) in E. inversion E; subst.
    now apply I.
Qed.

Lemma ac3_loop_keeps (fuel : nat) :
  forall (d : Domains) (q : list (Var * Var)) (b : bool) (d' : Domains),
  (forall z w, P z w -> In w (dom d z)) ->
  ac3_loop c fuel d q = Ok (b, d') ->
  (forall z w, P z w -> In w (dom d' z)) /\
  ((forall x y i j, overlaps_get c x y = Some (i, j) -> exists w, P x w) ->
   b = true).
Proof.
  induction fuel as [| fuel IH]; intros d q b d' I E.
  - destruct q as [| [x y] q]; simpl in E; [| discriminate].
    inversion E; subst. split; [assumption | reflexivity].
  - destruct q as [| [x y] q]; simpl in E.
    + inversion E; subst. split; [assumption | reflexivity].
    + inv_bind E. destruct a as [revised d1].
      pose proof (revise_keeps x y d d1 revised I E0) as I1.
      destruct revised.
      * inv_bind E. destruct (is_nil a) eqn:Z.
        -- inversion E; subst. split; [assumption |].
           intros NE. exfalso.
           destruct (revise_true c x y d d' E0) as [i [j O]].
           destruct (NE x y i j O) as [w Pw].
           apply I1 in Pw. apply of_option_Ok in E1.
           unfold dom in Pw. rewrite E1 in Pw.
           destruct a; [contradiction | discriminate].
        -- eapply IH; eassumption.
      * eapply IH; eassumption.
Qed.

End Keeps.

(** ** The consistency check accepts what satisfies the constraints *)

Lemma values_NoDup_inj (K : Type) `{EqDec K} (s : Dict.t K string) :
  NoDup (Dict.values s) ->
  forall x y w, Dict.get x s = Some w -> Dict.get y s = Some w -> x = y.
Proof.
  induction s as [| [k v] s IH]; simpl; intros ND x y w Gx Gy; [discriminate |].
  inversion ND as [| v0 l NI ND']; subst.
  destruct (eq_dec x k) as [-> | Nx], (eq_dec y k) as [-> | Ny].
  - reflexivity.
  - exfalso. apply NI. inversion Gx; subst.
    apply get_Some_In in Gy. apply (in_map snd) in Gy. exact Gy.
  - exfalso. apply NI. inversion Gy; subst.
    apply get_Some_In in Gx. apply (in_map snd) in Gx. exact Gx.
  - eapply IH; eassumption.
Qed.

Lemma sub_assignment_get (a s : Assignment) (x : Var) (w : string) :
  sub_assignment a s -> Dict.get x a = Some w -> Dict.get x s = Some w.
Proof. intros S G. apply S. now apply get_Some_In. Qed.

Lemma sub_assignment_NoDup (a s : Assignment) :
  NoDup (Dict.keys a) -> NoDup (Dict.values s) -> sub_assignment a s ->
  NoDup (Dict.values a).
Proof.
  induction a as [| [x w] a IH]; simpl; intros NK NV S; [constructor |].
  inversion NK as [| x0 l NI NK']; subst.
  constructor.
  - intros I. apply in_map_iff in I. destruct I as [[y w'] [Q I]].
    simpl in Q. subst w'. apply NI.
    assert (y = x).
    { apply (values_NoDup_inj _ s NV y x w); apply S; [now right | now left]. }
    subst y. apply (in_map fst) in I. exact I.
  - apply IH; try assumption. intros y w' I. apply S. now right.
Qed.

Lemma consistent_assignment_sub (c : Crossword) (a s : Assignment) :
  NoDup (Dict.keys a) -> sub_assignment a s ->
  consistent_assignment c s -> consistent_assignment c a.
Proof.
  intros NK S [NV [L A]]. split; [| split].
  - eapply sub_assignment_NoDup; eassumption.
  - intros x w G. apply L. eapply sub_assignment_get; eassumption.
  - intros x y w w' i j Gx Gy O.
    apply (A x y w w' i j); try assumption;
      eapply sub_assignment_get; eassumption.
Qed.

Section ConsistentComplete.
Variable c : Crossword.
Hypothesis wf : wf_crossword c = true.

Lemma check_neighbors_complete (a : Assignment) (var : Var) (value : string) :
  consistent_assignment c a -> Dict.get var a = Some value ->
  forall ns, incl ns (neighbors c var) ->
  check_neighbors c a var value ns = Ok true.
Proof.
  intros [_ [L A]] G. induction ns as [| n ns IH]; intros I; simpl.
  - reflexivity.
  - assert (I' : incl ns (neighbors c var))
      by (intros z Iz; apply I; now right).
    destruct (Dict.get n a) as [nv |] eqn:Gn; [| now apply IH].
    assert (Nn : In n (neighbors c var)) by (apply I; now left).
    apply neighbors_spec in Nn. destruct Nn as [Vn [Nnv [[j i] O]]].
    destruct (wf_overlap c wf n var j i O) as [_ [Vv [_ [_ [_ O']]]]].
    rewrite (wf_item c wf var n Vv Vn) by congruence. simpl. rewrite O'.
    destruct (A var n value nv i j G Gn O') as [ch [P Q]].
    apply index_Ok in P, Q. rewrite P, Q. simpl.
    rewrite eqb_refl. simpl. now apply IH.
Qed.

Lemma check_items_complete (a : Assignment) :
  NoDup (Dict.keys a) -> consistent_assignment c a ->
  forall items, incl items a -> check_items c a items = Ok true.
Proof.
  intros NK CA. induction items as [| [var value] items IH]; intros I; simpl.
  - reflexivity.
  - assert (G : Dict.get var a = Some value)
      by (apply In_get_NoDup; [assumption | apply I; now left]).
    rewrite (proj1 (proj2 CA) var value G), Nat.eqb_refl. simpl.
    rewrite (check_neighbors_complete a var value CA G _ (incl_refl _)).
    simpl. apply IH. intros z Iz. apply I. now right.
Qed.

Lemma consistent_complete (a : Assignment) :
  NoDup (Dict.keys a) -> consistent_assignment c a -> consistent c a = Ok true.
Proof.
  intros NK CA. unfold consistent.
  rewrite (nodup_fixed_point string_dec (proj1 CA)), Nat.eqb_refl. simpl.
  apply check_items_complete; [assumption | assumption | apply incl_refl].
Qed.

End ConsistentComplete.

(** ** The search finds a solution whenever the store holds one *)

Section Complete.
Variable c : Crossword.
Hypothesis wf : wf_crossword c = true.
Variable s : Assignment.
Hypothesis s_complete : complete_assignment c s.
Hypothesis s_consistent : consistent_assignment c s.

Lemma solution_closed (x y : Var) (i j : nat) (w : string) :
  overlaps_get c x y = Some (i, j) -> Dict.get x s = Some w ->
  exists w', Dict.get y s = Some w' /\ agree i j w w'.
Proof.
  intros O G.
  destruct (wf_overlap c wf x y i j O) as [_ [Vy _]].
  destruct (s_complete y Vy) as [w' G'].
  exists w'. split; [exact G' |].
  exact (proj2 (proj2 s_consistent) x y w w' i j G G' O).
Qed.

Lemma ac3_keeps_solution (d d' : Domains) (arcs : option (list (Var * Var)))
  (b : bool) :
  within d s -> ac3 c d arcs = Ok (b, d') -> b = true /\ within d' s.
Proof.
  intros W E. unfold ac3 in E.
  destruct (ac3_loop_keeps c (fun x w => Dict.get x s = Some w)
              solution_closed _ _ _ _ _ W E) as [W' B].
  split; [| exact W'].
  apply B. intros x y i j O.
  destruct (wf_overlap c wf x y i j O) as [Vx _].
  exact (s_complete x Vx).
Qed.

Lemma try_values_keeps_solution
  (rec : Domains -> Heap -> nat -> res (option nat * Domains * Heap))
  (var : Var) (asg : nat) (values : list string) :
  (forall d h l r d' h', within d s -> rec d h l = Ok (r, d', h') ->
     within d' s) ->
  forall d h r d' h',
  within d s ->
  try_values c rec var asg values d h = Ok (r, d', h') -> within d' s.
Proof.
  intros R. induction values as [| value values IH]; intros d h r d' h' W E.
  - simpl in E. inversion E; subst. exact W.
  - rewrite try_values_cons in E.
    destruct (extend h asg var value) as [new h2].
    inv_bind E. destruct a; [| eauto].
    inv_bind E. destruct a as [arc_ok d1].
    destruct (ac3_keeps_solution _ _ _ _ W E1) as [_ W1].
    destruct arc_ok; [| eauto].
    inv_bind E. destruct a as [[result d2] h3].
    pose proof (R _ _ _ _ _ _ W1 E2) as W2.
    destruct (truthy h3 result); [| eauto].
    inversion E; subst. exact W2.
Qed.

Lemma backtrack_keeps_solution (fuel : nat) :
  forall d h asg r d' h',
  within d s -> backtrack c fuel d h asg = Ok (r, d', h') -> within d' s.
Proof.
  induction fuel as [| fuel IH]; intros d h asg r d' h' W E; [discriminate |].
  rewrite backtrack_S in E.
  destruct (assignment_complete c (deref h asg)).
  - inversion E; subst. exact W.
  - inv_bind E. inv_bind E.
    eapply try_values_keeps_solution; eassumption.
Qed.

Lemma try_values_complete
  (rec : Domains -> Heap -> nat -> res (option nat * Domains * Heap))
  (n : nat) (var : Var) (asg : nat) (a : Assignment) (values : list string)
  (sv : string) :
  (forall d h l,
     store_ok c d -> valid_assignment c (deref h l) -> l < next h ->
     unassigned_count c (deref h l) < n ->
     exists r d' h', rec d h l = Ok (r, d', h') /\ store_ok c d' /\
                     heap_extends h h') ->
  (forall d h l r d' h', within d s -> rec d h l = Ok (r, d', h') ->
     within d' s) ->
  (forall d h l r d' h',
     store_ok c d -> within d s -> valid_assignment c (deref h l) ->
     NoDup (Dict.keys (deref h l)) -> sub_assignment (deref h l) s ->
     l < next h -> unassigned_count c (deref h l) < n ->
     deref h l <> [] ->
     rec d h l = Ok (r, d', h') -> truthy h' r = true) ->
  In var (variables c) -> Dict.mem var a = false ->
  valid_assignment c a -> NoDup (Dict.keys a) -> sub_assignment a s ->
  unassigned_count c a <= n ->
  Dict.get var s = Some sv ->
  forall d h,
  In sv values ->
  (forall v, In v values -> String.length v = var_length var) ->
  store_ok c d -> within d s -> deref h asg = a -> asg < next h ->
  forall r d' h',
  try_values c rec var asg values d h = Ok (r, d', h') -> truthy h' r = true.
Proof.
  intros R1 R2 R3 Iv M VA NK SA C Gs.
  induction values as [| value values IH];
    intros d h I L S W D B r d' h' E; [contradiction |].
  rewrite try_values_cons in E.
  destruct (extend_spec h asg var value) as [h2 [X0 [Nx [Dn X]]]].
  rewrite X0, Dn, D in E.
  assert (Lv : String.length value = var_length var) by (apply L; now left).
  assert (L' : forall v, In v values -> String.length v = var_length var)
    by (intros v Iv'; apply L; now right).
  pose proof (valid_assignment_setitem c var value a VA Iv Lv) as VA'.
  assert (next_step : forall d1 h1 r d' h', value <> sv ->
            store_ok c d1 -> within d1 s -> heap_extends h h1 ->
            try_values c rec var asg values d1 h1 = Ok (r, d', h') ->
            truthy h' r = true).
  { intros d1 h1 r1 d1' h1' NE S1 W1 X1 E1.
    apply (IH d1 h1) with (d' := d1') (4 := W1) (7 := E1); try assumption.
    - destruct I as [Q | I]; [congruence | exact I].
    - rewrite (proj2 X1) by assumption. exact D.
    - destruct X1. lia. }
  assert (here : value = sv ->
            consistent c (Dict.setitem var value a) = Ok true /\
            NoDup (Dict.keys (Dict.setitem var value a)) /\
            sub_assignment (Dict.setitem var value a) s).
  { intros ->.
    assert (SA' : sub_assignment (Dict.setitem var sv a) s).
    { intros x w Ix. apply In_setitem in Ix. destruct Ix as [Q | Ix].
      - inversion Q; subst. exact Gs.
      - now apply SA. }
    pose proof (NoDup_keys_setitem var sv a NK) as NK'.
    split; [| split; assumption].
    apply (consistent_complete c wf); [assumption |].
    eapply consistent_assignment_sub; eassumption. }
  inv_bind E. destruct a0.
  - inv_bind E. destruct a0 as [arc_ok d1].
    destruct (ac3_keeps_solution _ _ _ _ W E1) as [-> W1].
    assert (S1 : store_ok c d1)
      by (unfold ac3 in E1; eapply ac3_loop_store_ok; eassumption).
    inv_bind E. destruct a0 as [[result d2] h3].
    destruct (R1 d1 h2 (next h)) as [r0 [d0 [h0 [E3 [S2 X3]]]]];
      try assumption.
    + now rewrite Dn, D.
    + lia.
    + rewrite Dn, D.
      pose proof (unassigned_count_setitem c var value a Iv M). lia.
    + rewrite E2 in E3. inversion E3; subst r0 d0 h0.
      destruct (truthy h3 result) eqn:T.
      * inversion E; subst. exact T.
      * destruct (eq_dec value sv) as [Q | NE].
        -- destruct (here Q) as [_ [NK' SA']].
           rewrite (R3 d1 h2 (next h) result d2 h3) in T;
             try assumption; try discriminate.
           ++ now rewrite Dn, D.
           ++ now rewrite Dn, D.
           ++ now rewrite Dn, D.
           ++ lia.
           ++ rewrite Dn, D.
              pose proof (unassigned_count_setitem c var value a Iv M). lia.
           ++ rewrite Dn, D. intros Z.
              pose proof (get_setitem_eq var value a) as G.
              rewrite Z in G. discriminate.
        -- apply (next_step d2 h3 r d' h'); try assumption.
           ++ eapply R2; eassumption.
           ++ eapply heap_extends_trans; eassumption.
  - destruct (eq_dec value sv) as [Q | NE].
    + destruct (here Q) as [CT _]. congruence.
    + apply (next_step d h2 r d' h'); assumption.
Qed.

Lemma backtrack_complete (fuel : nat) :
  forall d h asg r d' h',
  store_ok c d -> within d s -> valid_assignment c (deref h asg) ->
  NoDup (Dict.keys (deref h asg)) -> sub_assignment (deref h asg) s ->
  asg < next h -> unassigned_count c (deref h asg) < fuel ->
  backtrack c fuel d h asg = Ok (r, d', h') ->
  (exists l, r = Some l) /\ (deref h asg <> [] -> truthy h' r = true).
Proof.
  induction fuel as [| fuel IH];
    intros d h asg r d' h' S W VA NK SA B C E; [lia |].
  rewrite backtrack_S in E.
  destruct (assignment_complete c (deref h asg)) eqn:A.
  - inversion E; subst. split; [now exists asg |].
    intros NE. simpl. now destruct (deref h' asg).
  - inv_bind E. inv_bind E. rename a into var, a0 into values.
    destruct (select_unassigned c d (deref h asg) var E0) as [Iv M].
    destruct (s_complete var Iv) as [sv Gs].
    pose proof (order_domain_values_perm c d var (deref h asg) values E1) as P.
    assert (T : truthy h' r = true).
    { apply (try_values_complete (backtrack c fuel) fuel var asg (deref h asg)
               values sv) with (d := d) (h := h) (d' := d');
        try assumption; try reflexivity; try lia.
      - intros d0 h0 l S0 VA0 B0 C0.
        now apply (backtrack_returns c wf).
      - intros d0 h0 l r0 d0' h0' W0 E2.
        eapply backtrack_keeps_solution; eassumption.
      - intros d0 h0 l r0 d0' h0' S0 W0 VA0 NK0 SA0 B0 C0 NE E2.
        now apply (IH d0 h0 l r0 d0' h0').
      - eapply Permutation_in; [apply Permutation_sym; exact P |].
        now apply W.
      - intros v I. apply (proj2 S).
        eapply Permutation_in; eassumption. }
    split; [| intros _; exact T].
    destruct r as [l |]; [now exists l | discriminate].
Qed.

End Complete.

(** ** More decision procedures *)

Lemma withinb_sound (d : Domains) (s : Assignment) :
  withinb d s = true -> within d s.
Proof.
  unfold withinb. rewrite forallb_forall. intros E x w G.
  apply get_Some_In in G. specialize (E _ G). simpl in E.
  now apply set_mem_true_iff in E.
Qed.

Lemma arcs_coverb_sound (c : Crossword) (d : Domains)
  (arcs : list (Var * Var)) :
  arcs_coverb c d arcs = true -> arcs_cover c d arcs.
Proof.
  unfold arcs_coverb. intros E x y i j O.
  assert (G : exists o, Dict.get (x, y) (overlaps c) = Some o).
  { unfold overlaps_get in O.
    destruct (Dict.get (x, y) (overlaps c)) as [o |]; [eauto | discriminate]. }
  destruct G as [o G]. apply get_Some_In in G.
  rewrite forallb_forall in E. specialize (E _ G). simpl in E.
  rewrite O in E. apply orb_true_iff in E. destruct E as [E | E].
  - right. now apply set_mem_true_iff in E.
  - left. intros w I. rewrite forallb_forall in E. specialize (E w I).
    apply existsb_exists in E. destruct E as [w' [I' A]].
    exists w'. split; [assumption | now apply agreeb_agree].
Qed.

(** ** What [backtrack] returns grows out of what it was given *)

Section Grown.
Variable c : Crossword.

Lemma grown_from_refl (d : Domains) (a : Assignment) : grown_from c d a a.
Proof. split; [auto | intros x w G; now left]. Qed.

Lemma grown_from_step (d d1 : Domains) (a r : Assignment) (var : Var)
  (value : string) :
  (forall z w, In w (dom d1 z) -> In w (dom d z)) ->
  In var (variables c) -> Dict.mem var a = false -> In value (dom d var) ->
  grown_from c d1 (Dict.setitem var value a) r ->
  grown_from c d a r.
Proof.
  intros S Iv M Id [K N].
  assert (Gv : Dict.get var a = None)
    by (unfold Dict.mem in M; destruct (Dict.get var a);
        [discriminate | reflexivity]).
  split.
  - intros x w G. apply K. rewrite get_setitem_ne; [exact G | congruence].
  - intros x w G. destruct (N x w G) as [G' | [Ix Iw]].
    + destruct (eq_dec var x) as [<- | NE].
      * rewrite get_setitem_eq in G'. inversion G'; subst. right. now split.
      * rewrite get_setitem_ne in G' by assumption. now left.
    + right. split; [exact Ix | now apply S].
Qed.

Lemma try_values_grown
  (rec : Domains -> Heap -> nat -> res (option nat * Domains * Heap))
  (var : Var) (asg : nat) (a : Assignment) (values : list string)
  (d0 : Domains) :
  (forall d h l r d' h', l < next h -> rec d h l = Ok (Some r, d', h') ->
     grown_from c d (deref h l) (deref h' r)) ->
  (forall d h l r d' h', rec d h l = Ok (r, d', h') ->
     heap_extends h h' /\ forall z w, In w (dom d' z) -> In w (dom d z)) ->
  In var (variables c) -> Dict.mem var a = false ->
  (forall v, In v values -> In v (dom d0 var)) ->
  forall d h r d' h',
  (forall z w, In w (dom d z) -> In w (dom d0 z)) ->
  deref h asg = a -> asg < next h ->
  try_values c rec var asg values d h = Ok (Some r, d', h') ->
  grown_from c d0 a (deref h' r).
Proof.
  intros R F Iv M. induction values as [| value values IH];
    intros I d h r d' h' S D B E; [discriminate |].
  rewrite try_values_cons in E.
  destruct (extend_spec h asg var value) as [h2 [X0 [Nx [Dn X]]]].
  rewrite X0, Dn, D in E.
  assert (I' : forall v, In v values -> In v (dom d0 var))
    by (intros v Iv'; apply I; now right).
  assert (next_step : forall d1 h1,
            (forall z w, In w (dom d1 z) -> In w (dom d z)) ->
            heap_extends h h1 ->
            try_values c rec var asg values d1 h1 = Ok (Some r, d', h') ->
            grown_from c d0 a (deref h' r)).
  { intros d1 h1 S1 X1 E1.
    apply (IH I' d1 h1 r d' h'); try assumption.
    - intros z w Iw. now apply S, S1.
    - rewrite (proj2 X1) by assumption. exact D.
    - destruct X1. lia. }
  inv_bind E. destruct a0; [| apply (next_step d h2); auto].
  inv_bind E. destruct a0 as [arc_ok d1].
  assert (S1 : forall z w, In w (dom d1 z) -> In w (dom d z)).
  { unfold ac3 in E1.
    now destruct (ac3_loop_shrinks c _ _ _ _ _ E1) as [_ [S1 _]]. }
  destruct arc_ok; [| apply (next_step d1 h2); auto].
  inv_bind E. destruct a0 as [[result d2] h3].
  destruct (F _ _ _ _ _ _ E2) as [X3 S2].
  destruct (truthy h3 result).
  - inversion E; subst result d2 h3.
    apply (grown_from_step d0 d1 a (deref h' r) var value).
    + intros z w Iw. now apply S, S1.
    + exact Iv.
    + exact M.
    + apply I. now left.
    + pose proof (R d1 h2 (next h) r d' h') as G.
      rewrite Dn, D in G. apply G; [lia | exact E2].
  - apply (next_step d2 h3); [| | exact E].
    + intros z w Iw. now apply S1, S2.
    + eapply heap_extends_trans; eassumption.
Qed.

Lemma backtrack_grown (fuel : nat) :
  forall d h asg r d' h',
  asg < next h -> backtrack c fuel d h asg = Ok (Some r, d', h') ->
  grown_from c d (deref h asg) (deref h' r).
Proof.
  induction fuel as [| fuel IH]; intros d h asg r d' h' B E; [discriminate |].
  rewrite backtrack_S in E.
  destruct (assignment_complete c (deref h asg)).
  - inversion E; subst. apply grown_from_refl.
  - inv_bind E. inv_bind E. rename a into var, a0 into values.
    destruct (select_unassigned c d (deref h asg) var E0) as [Iv M].
    pose proof (order_domain_values_perm c d var (deref h asg) values E1) as P.
    apply (try_values_grown (backtrack c fuel) var asg (deref h asg) values d)
      with (d := d) (h := h) (d' := d'); try assumption; auto.
    + intros d1 h1 l r1 d1' h1' E2. split.
      * eapply backtrack_frame; eassumption.
      * eapply backtrack_shrinks; eassumption.
    + intros v I. eapply Permutation_in; eassumption.
Qed.

End Grown.

(** ** Node consistency keeps every solution *)

Lemma within_enforce (d d0 : Domains) (c : Crossword) (s : Assignment) :
  consistent_assignment c s -> within d s ->
  enforce_node_consistency d = Ok d0 -> within d0 s.
Proof.
  intros SA W E x w G.
  destruct (enforce_node_consistency_spec d) as [d0' [E' [_ I]]].
  assert (d0' = d0) by congruence. subst d0'.
  apply I. split; [now apply W | exact (proj1 (proj2 SA) x w G)].
Qed.

(** ** The order in which the candidates are tried *)

Lemma mapM_combine_r (A B : Type) (f : A -> res B) (l : list A) :
  forall bs, mapM f l = Ok bs ->
  forall a b, In (b, a) (combine bs l) -> f a = Ok b.
Proof.
  induction l as [| x l IH]; simpl; intros bs E a b I.
  - inversion E; subst. contradiction.
  - inv_bind E. inv_bind E. inversion E; subst bs. simpl in I.
    destruct I as [Q | I]; [inversion Q; now subst | eauto].
Qed.

Lemma StronglySorted_app_r (A : Type) (R : A -> A -> Prop) (l1 l2 : list A) :
  StronglySorted R (l1 ++ l2) -> StronglySorted R l2.
Proof.
  induction l1 as [| a l1 IH]; simpl; intros S; [exact S |].
  inversion S; subst. now apply IH.
Qed.

Lemma filter_map_comm (A B : Type) (f : A -> B) (p : B -> bool) (l : list A) :
  filter p (map f l) = map f (filter (fun x => p (f x)) l).
Proof.
  induction l as [| a l IH]; simpl; [reflexivity |].
  destruct (p (f a)); simpl; now rewrite IH.
Qed.

Lemma sorted_by_key_constant (k : nat) (l : list (nat * string)) :
  (forall e, In e l -> fst e = k) -> sorted_by_key l = l.
Proof.
  induction l as [| e l IH]; simpl; intros C; [reflexivity |].
  rewrite IH by (intros e' I; apply C; now right).
  destruct l as [| e' l']; [reflexivity |]. simpl.
  rewrite (C e) by now left. rewrite (C e') by (right; now left).
  now rewrite Nat.leb_refl.
Qed.

Lemma order_domain_values_inv (c : Crossword) (d : Domains) (var : Var)
  (a : Assignment) (values : list string) :
  order_domain_values c d var a = Ok values ->
  exists s ks,
    Dict.get var d = Some s /\
    mapM (count_conflicts c d var a) s = Ok ks /\
    List.length ks = List.length s /\
    values = map snd (sorted_by_key (combine ks s)).
Proof.
  unfold order_domain_values. intros E. inv_bind E. inv_bind E.
  apply of_option_Ok in E0. inversion E; subst values.
  exists a0, a1. split; [assumption |]. split; [assumption |].
  split; [eapply mapM_length; eassumption | reflexivity].
Qed.

Lemma NoDup_app_cons_unique (A : Type) (x : A) (l1 l2 l1' l2' : list A) :
  NoDup (l1 ++ x :: l2) -> l1 ++ x :: l2 = l1' ++ x :: l2' -> l1 = l1'.
Proof.
  revert l1'. induction l1 as [| a l1 IH]; intros l1' ND E.
  - destruct l1' as [| b l1']; [reflexivity | exfalso].
    simpl in E. inversion E; subst b. subst l2.
    inversion ND as [| y l NI _]; subst. apply NI.
    apply in_or_app. right. now left.
  - destruct l1' as [| b l1']; simpl in E.
    + exfalso. inversion E; subst a.
      inversion ND as [| y l NI _]; subst. apply NI.
      apply in_or_app. right. now left.
    + inversion E; subst b. f_equal.
      inversion ND; subst. now apply (IH l1').
Qed.

Lemma nodupb_false (A : Type) `{EqDec A} (l : list A) :
  nodupb l = false -> ~ NoDup l.
Proof.
  induction l as [| a l IH]; simpl; intros E ND; [discriminate |].
  inversion ND; subst. apply andb_false_iff in E. destruct E as [E | E].
  - apply negb_false_iff, set_mem_true_iff in E. contradiction.
  - now apply IH.
Qed.

(** ** The slot selected *)

Lemma select_inv (c : Crossword) (d : Domains) (a : Assignment) (var : Var) :
  select_unassigned_variable c d a = Ok var ->
  exists ks vk l,
    mapM (select_key c d)
         (filter (fun var => negb (Dict.mem var a)) (variables c)) = Ok ks /\
    combine (filter (fun var => negb (Dict.mem var a)) (variables c)) ks
    = vk :: l /\
    var = min_by vk l.
Proof.
  unfold select_unassigned_variable. intros E. inv_bind E.
  destruct (combine _ a0) as [| vk l] eqn:Q; [discriminate |].
  inversion E. exists a0, vk, l. auto.
Qed.

Lemma select_key_inv (c : Crossword) (d : Domains) (x : Var) (k : Z * Z) :
  select_key c d x = Ok k ->
  k = (Z.of_nat (List.length (dom d x)),
       (- Z.of_nat (List.length (neighbors c x)))%Z).
Proof.
  unfold select_key. intros E. inv_bind E. apply of_option_Ok in E0.
  inversion E. unfold dom. now rewrite E0.
Qed.

(** ** Node consistency, word by word *)

Lemma node_loop_filter (ks : list Var) :
  forall d : Domains,
  incl ks (Dict.keys d) ->
  exists d',
    foldM (fun d var =>
             s <- Dict.getitem d var ;;
             foldM (discard var) (wrong_length var s) d) ks d = Ok d' /\
    Dict.keys d' = Dict.keys d /\
    forall x, dom d' x =
              if set_mem x ks
              then filter (fun w => Nat.eqb (String.length w) (var_length x))
                          (dom d x)
              else dom d x.
Proof.
  induction ks as [| var ks IH]; intros d I.
  - exists d. simpl. auto.
  - assert (Iv : In var (Dict.keys d)) by (apply I; now left).
    destruct (keys_get var d Iv) as [s G].
    cbn [foldM]. unfold Dict.getitem at 1. rewrite G. cbn [of_option bind].
    rewrite (node_step var d s G).  cbn [bind].
    set (d1 := Dict.setitem var _ d).
    assert (K1 : Dict.keys d1 = Dict.keys d)
      by (unfold d1; eapply keys_setitem_present; eassumption).
    destruct (IH d1) as [d' [E [K F]]].
    { rewrite K1. intros z Iz. apply I. now right. }
    exists d'. split; [exact E |]. split; [congruence |].
    intros x. rewrite F.
    change (set_mem x (var :: ks)) with (eqb x var || set_mem x ks).
    destruct (eq_dec x var) as [-> | N].
    + rewrite eqb_refl. cbn [orb]. unfold d1. rewrite dom_setitem_eq.
      replace (dom d var) with s by (unfold dom; now rewrite G).
      destruct (set_mem var ks); [| reflexivity].
      rewrite filter_filter. apply filter_ext. intros w.
      now rewrite andb_diag.
    + assert (Q : eqb x var = false) by now apply eqb_false_iff.
      rewrite Q. cbn [orb]. unfold d1.
      rewrite dom_setitem_ne by congruence. reflexivity.
Qed.

(** ** Arc revision off a node-consistent store *)

Lemma any_agree_short (i j : nat) (w y : string) (ys : list string) :
  String.length w <= i -> any_agree i j w (y :: ys) = Raise IndexError.
Proof.
  intros L. simpl. unfold index at 1.
  destruct (String.get i w) as [ch |] eqn:G; [| reflexivity].
  exfalso. assert (i < String.length w) by (apply get_Some_lt; eauto). lia.
Qed.

Lemma any_agree_outcome (i j : nat) (w : string) (ys : list string) :
  (exists b, any_agree i j w ys = Ok b) \/
  any_agree i j w ys = Raise IndexError.
Proof.
  induction ys as [| y ys IH]; simpl; [left; eauto |].
  unfold index. destruct (String.get i w); simpl; [| now right].
  destruct (String.get j y); simpl; [| now right].
  destruct (eqb a a0); [left; eauto | exact IH].
Qed.

Lemma unsupported_empty (i j : nat) (y : Var) (d : Domains) (xs : list string) :
  Dict.get y d = Some [] ->
  forall acc,
  foldM (fun to_remove x_value =>
           ys <- Dict.getitem d y ;;
           ok <- any_agree i j x_value ys ;;
           Ok (if ok then to_remove else set_add x_value to_remove))
        xs acc
  = Ok (fold_left (fun to_remove x_value => set_add x_value to_remove) xs acc).
Proof.
  intros G. unfold Dict.getitem. rewrite G.
  induction xs as [| x xs IH]; intros acc; simpl; [reflexivity |].
  apply IH.
Qed.

Lemma set_add_all (xs : list string) :
  forall acc, NoDup acc ->
  NoDup (fold_left (fun to_remove x_value => set_add x_value to_remove)
           xs acc) /\
  forall w, In w (fold_left (fun to_remove x_value => set_add x_value to_remove)
                    xs acc) <-> In w acc \/ In w xs.
Proof.
  induction xs as [| x xs IH]; intros acc ND; simpl.
  - split; [exact ND | intros w; tauto].
  - destruct (IH (set_add x acc) (set_add_NoDup x acc ND)) as [ND' I].
    split; [exact ND' |]. intros w. rewrite I, set_add_In.
    intuition (subst; auto).
Qed.

Lemma node_loop_fixed (ks : list Var) (d : Domains) :
  node_consistent d -> incl ks (Dict.keys d) ->
  foldM (fun d var =>
           s <- Dict.getitem d var ;;
           foldM (discard var) (wrong_length var s) d) ks d = Ok d.
Proof.
  intros NC. induction ks as [| var ks IH]; intros I; [reflexivity |].
  assert (Iv : In var (Dict.keys d)) by (apply I; now left).
  destruct (keys_get var d Iv) as [s G].
  cbn [foldM]. unfold Dict.getitem at 1. rewrite G. cbn [of_option bind].
  rewrite (node_step var d s G). cbn [bind].
  rewrite filter_all.
  - rewrite (setitem_same var s d G). apply IH.
    intros z Iz. apply I. now right.
  - intros w Iw. apply Nat.eqb_eq. apply NC. unfold dom. now rewrite G.
Qed.

Lemma unsupported_short (i j : nat) (y : Var) (d : Domains) (ys : list string)
  (w : string) (xs : list string) :
  Dict.get y d = Some ys -> ys <> [] -> String.length w <= i -> In w xs ->
  forall acc,
  foldM (fun to_remove x_value =>
           ys <- Dict.getitem d y ;;
           ok <- any_agree i j x_value ys ;;
           Ok (if ok then to_remove else set_add x_value to_remove))
        xs acc
  = Raise IndexError.
Proof.
  intros G NE L. unfold Dict.getitem. rewrite G.
  induction xs as [| x xs IH]; intros I acc; [contradiction |].
  cbn [foldM of_option bind].
  destruct (any_agree_outcome i j x ys) as [[b Eb] | Er].
  - rewrite Eb. cbn [bind]. apply IH.
    destruct I as [-> | I]; [| exact I].
    destruct ys as [| y0 ys]; [congruence |].
    rewrite (any_agree_short i j w y0 ys L) in Eb. discriminate.
  - now rewrite Er.
Qed.

Lemma filter_none (A : Type) (f : A -> bool) (l : list A) :
  (forall a, In a l -> f a = false) -> filter f l = [].
Proof.
  induction l as [| a l IH]; simpl; intros F; [reflexivity |].
  rewrite (F a) by now left. apply IH. intros b I. apply F. now right.
Qed.

Lemma complete_no_unassigned (c : Crossword) (a : Assignment) :
  assignment_complete c a = true ->
  filter (fun var => negb (Dict.mem var a)) (variables c) = [].
Proof.
  unfold assignment_complete. rewrite forallb_forall. intros F.
  apply filter_none. intros x I. now rewrite (F x I).
Qed.

(** ** Writing into the letter grid *)

Lemma foldM_app (A B : Type) (f : B -> A -> res B) (l1 l2 : list A) :
  forall b, foldM f (l1 ++ l2) b = b' <- foldM f l1 b ;; foldM f l2 b'.
Proof.
  induction l1 as [| a l1 IH]; intros b; simpl; [reflexivity |].
  destruct (f b a); simpl; [apply IH | reflexivity | reflexivity].
Qed.

Lemma list_set_Ok (A : Type) (l : list A) :
  forall i v, i < List.length l ->
  exists l', list_set l i v = Ok l' /\
             List.length l' = List.length l /\
             nth_error l' i = Some v /\
             forall i', i' <> i -> nth_error l' i' = nth_error l i'.
Proof.
  induction l as [| a l IH]; intros i v L; simpl in L; [lia |].
  destruct i as [| i]; simpl.
  - exists (v :: l). repeat split. intros [| i'] N; [congruence | reflexivity].
  - destruct (IH i v) as [l' [E [Len [G O]]]]; [lia |].
    rewrite E. simpl. exists (a :: l'). split; [reflexivity |].
    split; [simpl; lia |]. split; [exact G |].
    intros [| i'] N; [reflexivity |]. simpl. apply O. congruence.
Qed.

Lemma list_set_Raise (A : Type) (l : list A) :
  forall i v, List.length l <= i -> list_set l i v = Raise IndexError.
Proof.
  induction l as [| a l IH]; intros i v L; simpl; [reflexivity |].
  destruct i as [| i]; simpl in L; [lia |].
  rewrite IH by lia. reflexivity.
Qed.

Lemma list_set_In (A : Type) (l : list A) :
  forall i v l' x, list_set l i v = Ok l' -> In x l' -> x = v \/ In x l.
Proof.
  induction l as [| a l IH]; intros i v l' x E I; simpl in E; [discriminate |].
  destruct i as [| i].
  - inversion E; subst. destruct I as [<- | I]; [now left | right; now right].
  - inv_bind E. inversion E; subst. destruct I as [<- | I].
    + right. now left.
    + destruct (IH i v a0 x E0 I) as [-> | I']; [now left | right; now right].
Qed.

Lemma grid_set_Ok (height width : nat) (g : Grid) (i j : nat) (ch : ascii) :
  rect height width g -> i < height -> j < width ->
  exists g',
    grid_set g i j ch = Ok g' /\ rect height width g' /\
    grid_get g' i j = Some (Some ch) /\
    forall i' j', (i', j') <> (i, j) -> grid_get g' i' j' = grid_get g i' j'.
Proof.
  intros [Lg Lr] Li Lj. unfold grid_set, list_index.
  destruct (nth_error g i) as [row |] eqn:Gi.
  2:{ apply nth_error_None in Gi. lia. }
  simpl. pose proof (Lr row (nth_error_In _ _ Gi)) as Lrow.
  destruct (list_set_Ok _ row j (Some ch)) as [row' [E [Len [G O]]]]; [lia |].
  rewrite E. simpl.
  destruct (list_set_Ok _ g i row') as [g' [E' [Len' [G' O']]]]; [lia |].
  rewrite E'. exists g'. split; [reflexivity |]. split; [split |]; [lia | |].
  - intros r I. destruct (list_set_In _ _ _ _ _ _ E' I) as [-> | I'];
      [lia | now apply Lr].
  - split.
    + unfold grid_get. now rewrite G'.
    + intros i' j' N. unfold grid_get.
      destruct (Nat.eq_dec i' i) as [-> | Ni].
      * rewrite G', Gi. apply O. congruence.
      * now rewrite (O' i' Ni).
Qed.

Lemma grid_set_Raise (height width : nat) (g : Grid) (i j : nat) (ch : ascii) :
  rect height width g -> height <= i \/ width <= j ->
  grid_set g i j ch = Raise IndexError.
Proof.
  intros [Lg Lr] L. unfold grid_set, list_index.
  destruct (nth_error g i) as [row |] eqn:Gi; [| reflexivity].
  simpl. pose proof (Lr row (nth_error_In _ _ Gi)) as Lrow.
  assert (i < List.length g) by (apply nth_error_Some; congruence).
  rewrite list_set_Raise by lia. reflexivity.
Qed.

Lemma rect_repeat (height width : nat) :
  rect height width (repeat (repeat (@None ascii) width) height).
Proof.
  split; [apply repeat_length |].
  intros row I. apply repeat_spec in I. subst. apply repeat_length.
Qed.

Lemma grid_get_repeat (height width i j : nat) :
  i < height -> j < width ->
  grid_get (repeat (repeat (@None ascii) width) height) i j = Some None.
Proof.
  intros Li Lj. unfold grid_get.
  rewrite nth_error_repeat by assumption. now rewrite nth_error_repeat.
Qed.

Lemma letter_cell_inj (x : Var) (k k' : nat) :
  letter_cell x k = letter_cell x k' -> k = k'.
Proof.
  unfold letter_cell. destruct (var_direction x); intros E; inversion E; lia.
Qed.

Lemma covered_dec (x : Var) (i j : nat) (n : nat) :
  (exists k, k < n /\ letter_cell x k = (i, j)) \/
  (forall k, k < n -> letter_cell x k <> (i, j)).
Proof.
  induction n as [| n [[k [L E]] | N]].
  - right. intros k L. lia.
  - left. exists k. split; [lia | exact E].
  - destruct (eq_dec (letter_cell x n) (i, j)) as [E | NE].
    + left. exists n. split; [lia | exact E].
    + right. intros k L. destruct (Nat.eq_dec k n) as [-> | Nk]; [exact NE |].
      apply N. lia.
Qed.

Lemma write_prefix (height width : nat) (x : Var) (word : string)
  (g : Grid) (n : nat) :
  rect height width g -> n <= String.length word ->
  (exists g',
     foldM (fun letters k =>
              ch <- index word k ;;
              grid_set letters (fst (letter_cell x k))
                       (snd (letter_cell x k)) ch)
           (seq 0 n) g = Ok g' /\
     rect height width g' /\
     (forall k, k < n ->
        fst (letter_cell x k) < height /\ snd (letter_cell x k) < width) /\
     (forall k ch, k < n -> String.get k word = Some ch ->
        grid_get g' (fst (letter_cell x k)) (snd (letter_cell x k))
        = Some (Some ch)) /\
     (forall i j, (forall k, k < n -> letter_cell x k <> (i, j)) ->
        grid_get g' i j = grid_get g i j)) \/
  (foldM (fun letters k =>
            ch <- index word k ;;
            grid_set letters (fst (letter_cell x k))
                     (snd (letter_cell x k)) ch)
         (seq 0 n) g = Raise IndexError /\
   exists k, k < n /\
     ~ (fst (letter_cell x k) < height /\ snd (letter_cell x k) < width)).
Proof.
  set (body := fun (letters : Grid) (k : nat) =>
         ch <- index word k ;;
         grid_set letters (fst (letter_cell x k)) (snd (letter_cell x k)) ch).
  intros R. induction n as [| n IH]; intros L.
  - left. exists g. split; [reflexivity |]. split; [exact R |].
    split; [intros k Lk; lia |]. split; [intros k ch Lk; lia | reflexivity].
  - rewrite seq_S, foldM_app. cbn [foldM Nat.add].
    destruct IH as [[g' [E [R' [In' [W K]]]]] | [E [k [Lk B]]]]; [lia | |].
    2:{ right. rewrite E. split; [reflexivity |]. exists k.
        split; [lia | exact B]. }
    rewrite E. cbn [bind].
    destruct (index_total word n) as [ch Ech]; [lia |].
    assert (Step : body g' n
                   = grid_set g' (fst (letter_cell x n))
                       (snd (letter_cell x n)) ch)
      by (unfold body; now rewrite Ech).
    rewrite Step. apply index_Ok in Ech.
    destruct (le_lt_dec height (fst (letter_cell x n))) as [Bi | Li].
    { right. rewrite (grid_set_Raise height width) by (auto; lia).
      split; [reflexivity |]. exists n. split; [lia |]. lia. }
    destruct (le_lt_dec width (snd (letter_cell x n))) as [Bj | Lj].
    { right. rewrite (grid_set_Raise height width) by (auto; lia).
      split; [reflexivity |]. exists n. split; [lia |]. lia. }
    destruct (grid_set_Ok height width g' _ _ ch R' Li Lj)
      as [g'' [E' [R'' [G O]]]].
    left. rewrite E'. exists g''. split; [reflexivity |]. split; [exact R'' |].
    split; [| split].
    + intros k Lk. destruct (Nat.eq_dec k n) as [-> | N];
        [split; assumption | apply In'; lia].
    + intros k c Lk Gk. destruct (Nat.eq_dec k n) as [-> | N].
      * rewrite G. congruence.
      * rewrite O; [apply W; [lia | exact Gk] |].
        rewrite <- !surjective_pairing. intros Q.
        apply letter_cell_inj in Q. contradiction.
    + intros i j N. rewrite O.
      * apply K. intros k Lk. apply N. lia.
      * rewrite <- surjective_pairing. intros Q.
        apply (N n); [lia | congruence].
Qed.
Lemma fits_inside (height width : nat) (x : Var) (word : string) :
  fits height width x word = true <->
  forall k, k < String.length word ->
  fst (letter_cell x k) < height /\ snd (letter_cell x k) < width.
Proof.
  unfold fits. rewrite forallb_forall. split.
  - intros F k L. specialize (F k). rewrite in_seq in F.
    rewrite andb_true_iff, !Nat.ltb_lt in F. apply F. lia.
  - intros F k I. apply in_seq in I.
    rewrite andb_true_iff, !Nat.ltb_lt. apply F. lia.
Qed.

Lemma write_word_outcome (height width : nat) (g : Grid) (x : Var)
  (word : string) :
  rect height width g ->
  (fits height width x word = true /\
   exists g',
     write_word g x word = Ok g' /\ rect height width g' /\
     (forall k ch, String.get k word = Some ch ->
        grid_get g' (fst (letter_cell x k)) (snd (letter_cell x k))
        = Some (Some ch)) /\
     (forall i j,
        (forall k, k < String.length word -> letter_cell x k <> (i, j)) ->
        grid_get g' i j = grid_get g i j)) \/
  (fits height width x word = false /\
   write_word g x word = Raise IndexError).
Proof.
  intros R. unfold write_word.
  destruct (write_prefix height width x word g (String.length word) R
              (le_n _)) as [[g' [E [R' [I [W K]]]]] | [E [k [L B]]]].
  - left. split; [now apply fits_inside |].
    exists g'. split; [exact E |]. split; [exact R' |]. split; [| exact K].
    intros k ch G. apply W; [| exact G]. apply get_Some_lt. eauto.
  - right. split; [| exact E].
    destruct (fits height width x word) eqn:F; [| reflexivity].
    exfalso. apply B. now apply (proj1 (fits_inside height width x word) F).
Qed.

Lemma cells_agree_app (a a' : Assignment) :
  cells_agree (a ++ a') -> cells_agree a.
Proof.
  intros C x w k ch x' w' k' ch' I I'.
  apply (C x w k ch x' w' k' ch'); apply in_or_app; now left.
Qed.

Lemma letter_grid_outcome (height width : nat) (a : Assignment) :
  (forallb (fun e => fits height width (fst e) (snd e)) a = true /\
   exists g,
     letter_grid height width a = Ok g /\ rect height width g /\
     (cells_agree a ->
      (forall x word k ch, In (x, word) a -> String.get k word = Some ch ->
         grid_get g (fst (letter_cell x k)) (snd (letter_cell x k))
         = Some (Some ch)) /\
      (forall i j, i < height -> j < width ->
         (forall x word k, In (x, word) a -> k < String.length word ->
            letter_cell x k <> (i, j)) ->
         grid_get g i j = Some None))) \/
  (forallb (fun e => fits height width (fst e) (snd e)) a = false /\
   letter_grid height width a = Raise IndexError).
Proof.
  unfold letter_grid. induction a as [| [x word] a IH] using rev_ind.
  - left. split; [reflexivity |]. exists (repeat (repeat None width) height).
    split; [reflexivity |]. split; [apply rect_repeat |].
    intros _. split; [intros x word k ch [] |].
    intros i j Li Lj _. now apply grid_get_repeat.
  - rewrite foldM_app, forallb_app. cbn [foldM forallb fst snd].
    destruct IH as [[F [g [E [R Inv]]]] | [F E]].
    2:{ right. rewrite F, E. split; reflexivity. }
    rewrite F, E. cbn [bind andb].
    destruct (write_word_outcome height width g x word R)
      as [[Fx [g' [E' [R' [W K]]]]] | [Fx E']].
    2:{ right. rewrite Fx, E'. split; reflexivity. }
    left. rewrite Fx, E'. split; [reflexivity |].
    exists g'. split; [reflexivity |]. split; [exact R' |].
    intros C. destruct (Inv (cells_agree_app _ _ C)) as [B N]. split.
    + intros x' word' k' ch' I G'.
      destruct (covered_dec x (fst (letter_cell x' k'))
                  (snd (letter_cell x' k')) (String.length word))
        as [[k [L Q]] | NC].
      * rewrite <- surjective_pairing in Q.
        apply get_Some_lt in L. destruct L as [ch G].
        rewrite <- Q. rewrite (W k ch G). do 2 f_equal.
        apply (C x word k ch x' word' k' ch'); try assumption.
        apply in_or_app. right. now left.
      * rewrite (K _ _ NC). apply in_app_or in I.
        destruct I as [I | [Q | []]]; [now apply (B x' word') |].
        inversion Q; subst x' word'. exfalso.
        apply (NC k'); [apply get_Some_lt; eauto |].
        apply surjective_pairing.
    + intros i j Li Lj NC. rewrite K.
      * apply N; try assumption. intros x' word' k I L.
        apply (NC x' word' k); [apply in_or_app; now left | exact L].
      * intros k L. apply (NC x word k); [| exact L].
        apply in_or_app. right. now left.
Qed.

Lemma in_seq_lt (k : nat) (w : string) (ch : ascii) :
  String.get k w = Some ch -> In k (seq 0 (String.length w)).
Proof.
  intros G. apply in_seq. split; [lia |]. simpl. apply get_Some_lt. eauto.
Qed.

Lemma cells_agreeb_sound (a : Assignment) :
  cells_agreeb a = true -> cells_agree a.
Proof.
  unfold cells_agreeb. intros F x w k ch x' w' k' ch' I I' G G' Q.
  rewrite forallb_forall in F. specialize (F _ I).
  rewrite forallb_forall in F. specialize (F _ I').
  rewrite forallb_forall in F. specialize (F k).
  rewrite forallb_forall in F. specialize (F (in_seq_lt k w ch G) k').
  specialize (F (in_seq_lt k' w' ch' G')).
  simpl in F. rewrite Q, eqb_refl, G, G' in F. simpl in F.
  now apply eqb_true_iff in F.
Qed.

(** ** Printing the grid *)

Lemma mapM_seq (B : Type) (f : nat -> res B) (n : nat) :
  forall s,
  (forall i, i < n -> exists b, f (s + i) = Ok b) ->
  exists bs,
    mapM f (seq s n) = Ok bs /\ List.length bs = n /\
    forall i, i < n -> exists b, f (s + i) = Ok b /\ nth_error bs i = Some b.
Proof.
  induction n as [| n IH]; intros s F; simpl.
  - exists []. split; [reflexivity |]. split; [reflexivity |]. intros i L. lia.
  - destruct (F 0) as [b E]; [lia |]. rewrite Nat.add_0_r in E. rewrite E.
    destruct (IH (S s)) as [bs [Em [Len N]]].
    { intros i L. destruct (F (S i)) as [b' E']; [lia |].
      exists b'. now rewrite <- E', Nat.add_succ_r. }
    rewrite Em. simpl. exists (b :: bs). split; [reflexivity |].
    split; [simpl; lia |].
    intros [| i] L.
    + exists b. rewrite Nat.add_0_r. now split.
    + destruct (N i) as [b' [E' G]]; [lia |]. exists b'.
      rewrite Nat.add_succ_r. now split.
Qed.

Lemma grid_get_rect (A : Type) (height width : nat) (g : list (list A))
  (i j : nat) :
  rect height width g -> i < height -> j < width ->
  exists row v,
    nth_error g i = Some row /\ nth_error row j = Some v /\
    grid_get g i j = Some v.
Proof.
  intros [Lg Lr] Li Lj. unfold grid_get.
  destruct (nth_error g i) as [row |] eqn:Gi.
  2:{ apply nth_error_None in Gi. lia. }
  pose proof (Lr row (nth_error_In _ _ Gi)) as Lrow.
  destruct (nth_error row j) as [v |] eqn:Gj.
  2:{ apply nth_error_None in Gj. lia. }
  exists row, v. auto.
Qed.

Lemma grid_get_bounds (A : Type) (height width : nat) (g : list (list A))
  (i j : nat) (v : A) :
  rect height width g -> grid_get g i j = Some v -> i < height /\ j < width.
Proof.
  intros [Lg Lr] G. unfold grid_get in G.
  destruct (nth_error g i) as [row |] eqn:Gi; [| discriminate].
  pose proof (Lr row (nth_error_In _ _ Gi)) as Lrow.
  assert (i < List.length g) by (apply nth_error_Some; congruence).
  assert (j < List.length row) by (apply nth_error_Some; congruence).
  lia.
Qed.

Lemma print_rows (structure : list (list bool)) (height width : nat)
  (letters : Grid) :
  rect height width structure -> rect height width letters ->
  exists rows,
    mapM (fun i =>
            mapM (fun j =>
                    structure_row <- list_index structure i ;;
                    open <- list_index structure_row j ;;
                    if (open : bool) then
                      letters_row <- list_index letters i ;;
                      letter <- list_index letters_row j ;;
                      Ok (match letter with
                          | Some ch => String ch EmptyString
                          | None => " "%string
                          end)
                    else Ok "█"%string)
                 (seq 0 width))
         (seq 0 height) = Ok rows /\
    rect height width rows /\
    forall i j, i < height -> j < width ->
      grid_get rows i j =
      match grid_get structure i j with
      | Some true =>
          match grid_get letters i j with
          | Some (Some ch) => Some (String ch EmptyString)
          | _ => Some " "%string
          end
      | _ => Some "█"%string
      end.
Proof.
  intros RS RL.
  set (cell := fun i j =>
         structure_row <- list_index structure i ;;
         open <- list_index structure_row j ;;
         if (open : bool) then
           letters_row <- list_index letters i ;;
           letter <- list_index letters_row j ;;
           Ok (match letter with
               | Some ch => String ch EmptyString
               | None => " "%string
               end)
         else Ok "█"%string).
  assert (C : forall i j, i < height -> j < width ->
            exists t, cell i j = Ok t /\
              Some t = match grid_get structure i j with
                       | Some true =>
                           match grid_get letters i j with
                           | Some (Some ch) => Some (String ch EmptyString)
                           | _ => Some " "%string
                           end
                       | _ => Some "█"%string
                       end).
  { intros i j Li Lj. unfold cell, list_index.
    destruct (grid_get_rect _ height width structure i j RS Li Lj)
      as [srow [open [Gs [Go ->]]]].
    destruct (grid_get_rect _ height width letters i j RL Li Lj)
      as [lrow [letter [Gl [Gt ->]]]].
    rewrite Gs. cbn [of_option bind]. rewrite Go. cbn [of_option bind].
    destruct open; [| eauto].
    rewrite Gl. cbn [of_option bind]. rewrite Gt. cbn [of_option bind].
    destruct letter; eauto. }
  destruct (mapM_seq _ (fun i => mapM (cell i) (seq 0 width)) height 0)
    as [rows [E [Len N]]].
  { intros i Li. simpl.
    destruct (mapM_seq _ (cell i) width 0) as [row [Er _]]; [| eauto].
    intros j Lj. simpl. destruct (C i j Li Lj) as [t [Et _]]. eauto. }
  exists rows. split; [exact E |].
  assert (Row : forall i, i < height ->
            exists row, nth_error rows i = Some row /\
                        mapM (cell i) (seq 0 width) = Ok row).
  { intros i Li. destruct (N i Li) as [row [Er G]]. simpl in Er. eauto. }
  split; [split; [exact Len |] |].
  - intros row I. apply In_nth_error in I. destruct I as [i G].
    assert (Li : i < height)
      by (rewrite <- Len; apply nth_error_Some; congruence).
    destruct (Row i Li) as [row' [G' Er]].
    assert (row' = row) by congruence. subst row'.
    eapply mapM_length in Er. now rewrite Er, length_seq.
  - intros i j Li Lj. destruct (Row i Li) as [row [G Er]].
    destruct (mapM_seq _ (cell i) width 0) as [row' [Er' [_ N']]].
    { intros j' Lj'. simpl. destruct (C i j' Li Lj') as [t [Et _]]. eauto. }
    assert (row' = row) by congruence. subst row'.
    destruct (N' j Lj) as [t [Et Gt]]. simpl in Et.
    destruct (C i j Li Lj) as [t' [Et' Q]].
    assert (t' = t) by congruence. subst t'.
    unfold grid_get at 1. rewrite G, Gt. exact Q.
Qed.

Lemma sub_assignmentb_sound (a s : Assignment) :
  sub_assignmentb a s = true -> sub_assignment a s.
Proof.
  unfold sub_assignmentb. rewrite forallb_forall. intros F x w I.
  specialize (F _ I). simpl in F.
  destruct (Dict.get x s) as [w' |]; [| discriminate].
  apply eqb_true_iff in F. now subst.
Qed.

(** * The properties of the specification *)

Local Open Scope string_scope.

(** C6.  After [enforce_node_consistency], which always returns, every
    word that remains in a slot's domain was there before and has the
    slot's length, and every word that was removed has a different
    length. *)
Theorem node_consistency_filters_by_length (d : Domains) :
  exists d',
    enforce_node_consistency d = Ok d' /\
    forall x w,
      (In w (dom d' x) -> In w (dom d x) /\ String.length w = var_length x) /\
      (In w (dom d x) -> ~ In w (dom d' x) -> String.length w <> var_length x).
Proof.
  destruct (enforce_node_consistency_spec d) as [d' [E [_ S]]].
  exists d'. split; [exact E |]. intros x w. split.
  - intros I. now apply S.
  - intros I N L. apply N, S. now split.
Qed.

(** C5.  For two distinct slots [x] and [y]: without an overlap,
    [revise] returns false and leaves the store as it is.  With an
    overlap [(i, j)], a call that returns leaves in the domain of [x]
    exactly the words that have a word of [y] agreeing at the overlap,
    leaves the domain of [y] and of every slot other than [x] untouched,
    and returns true exactly when some word of [x] was removed.  The call
    does return when both slots have a domain whose words reach the
    overlap offsets. *)
Theorem revise_removes_unsupported (c : Crossword) (x y : Var) (d : Domains) :
  x <> y ->
  (overlaps_get c x y = None -> revise c x y d = Ok (false, d)) /\
  (forall i j, overlaps_get c x y = Some (i, j) ->
     (In x (Dict.keys d) -> In y (Dict.keys d) ->
      (forall w, In w (dom d x) -> i < String.length w) ->
      (forall w', In w' (dom d y) -> j < String.length w') ->
      exists b d', revise c x y d = Ok (b, d')) /\
     (forall b d', revise c x y d = Ok (b, d') ->
        (forall w, In w (dom d' x) <->
                   In w (dom d x) /\ supported d y i j w) /\
        Dict.get y d' = Dict.get y d /\
        (forall z, z <> x -> Dict.get z d' = Dict.get z d) /\
        (b = true <-> exists w, In w (dom d x) /\ ~ In w (dom d' x)))).
Proof.
  intros N. split; [apply revise_no_overlap |].
  intros i j O. split; [now apply revise_total |].
  intros b d' E.
  destruct (revise_effect c x y d d' b i j O E) as [Hx [Hz [_ [Hf Ht]]]].
  split; [exact Hx |]. split; [apply Hz; congruence |]. split; [exact Hz |].
  split.
  - intros B. now apply Ht.
  - intros [w [I Q]]. destruct b; [reflexivity |].
    destruct (Hf eq_refl) as [-> _]. contradiction.
Qed.

Lemma revise_removes_unsupported_witness :
  slot_across <> slot_down /\
  (forall w,
     In w (dom [(slot_across, ["AB"; "BA"]); (slot_down, ["AB"; "CD"; "BA"])]
              slot_across) <->
     In w (dom cross_store_nc slot_across) /\
     supported cross_store_nc slot_down 0 1 w).
Proof.
  split; [discriminate |].
  destruct (revise_removes_unsupported cw_cross slot_across slot_down
              cross_store_nc) as [_ H]; [discriminate |].
  destruct (H 0 1 eq_refl) as [_ H2].
  destruct (H2 true [(slot_across, ["AB"; "BA"]);
                     (slot_down, ["AB"; "CD"; "BA"])] eq_refl) as [H3 _].
  exact H3.
Defined.

(** C7.  [revise] is idempotent: for two distinct slots, a second call
    right after the first returns false and changes nothing. *)
Theorem revise_idempotent (c : Crossword) (x y : Var) (d d' : Domains)
  (b : bool) :
  x <> y ->
  revise c x y d = Ok (b, d') ->
  revise c x y d' = Ok (false, d').
Proof.
  intros N E. destruct (overlaps_get c x y) as [[i j] |] eqn:O.
  - destruct (revise_inv c x y d d' b i j O E) as [xs [tr [G [U [-> _]]]]].
    unfold revise. rewrite O.
    unfold Dict.getitem. rewrite get_setitem_eq. simpl.
    rewrite unsupported_none; [reflexivity |].
    intros w I.
    destruct (unsupported_acc i j y d xs [] tr U (NoDup_nil _)) as [_ [_ T]].
    assert (Iw : In w xs) by (apply filter_In in I; tauto).
    destruct (T w Iw) as [ys [ok [Gy A]]].
    exists ys. split; [rewrite get_setitem_ne; assumption |].
    apply (kept_supported i j y d xs tr U) in I. destruct I as [_ S].
    apply (any_agree_supported i j d y w ys ok Gy A) in S. now subst ok.
  - rewrite revise_no_overlap in E by assumption. inversion E; subst.
    now apply revise_no_overlap.
Qed.

Lemma revise_idempotent_witness :
  slot_across <> slot_down /\
  revise cw_cross slot_across slot_down cross_store_nc
  = Ok (true, [(slot_across, ["AB"; "BA"]); (slot_down, ["AB"; "CD"; "BA"])]) /\
  revise cw_cross slot_across slot_down
    [(slot_across, ["AB"; "BA"]); (slot_down, ["AB"; "CD"; "BA"])]
  = Ok (false, [(slot_across, ["AB"; "BA"]); (slot_down, ["AB"; "CD"; "BA"])]).
Proof.
  split; [discriminate |]. split; [reflexivity |].
  apply (revise_idempotent cw_cross slot_across slot_down cross_store_nc
           [(slot_across, ["AB"; "BA"]); (slot_down, ["AB"; "CD"; "BA"])] true).
  - discriminate.
  - reflexivity.
Defined.

(** Counterexample to C2, which speaks of any call that returns true.
    With an explicit, empty queue [ac3] returns true on the fresh store
    of [cw_stuck] although AB has no support across the overlap; with
    the default queue it returns true on the fresh store of [cw_corner]
    although ABC is too long for its slot. *)
Lemma ac3_true_not_arc_consistent :
  (ac3 cw_stuck (init_domains cw_stuck) (Some [])
   = Ok (true, init_domains cw_stuck) /\
   overlaps_get cw_stuck slot_across slot_down = Some (0, 1) /\
   In "AB" (dom (init_domains cw_stuck) slot_across) /\
   ~ supported (init_domains cw_stuck) slot_down 0 1 "AB") /\
  (ac3 cw_corner (init_domains cw_corner) None
   = Ok (true, init_domains cw_corner) /\
   overlaps_get cw_corner corner_across corner_down = Some (0, 0) /\
   In "ABC" (dom (init_domains cw_corner) corner_across) /\
   String.length "ABC" <> var_length corner_across).
Proof.
  split.
  - split; [reflexivity |]. split; [reflexivity |]. split; [now left |].
    intros [w' [I [ch [A B]]]]. simpl in A. inversion A; subst ch.
    simpl in I. destruct I as [<- | [<- | []]]; discriminate.
  - split; [reflexivity |]. split; [reflexivity |]. split; [right; now left |].
    discriminate.
Qed.

(** C2, amended.  Let [ac3] start on a node-consistent store, either with
    the default queue of all arcs on a store that has an entry for every
    slot, or with a queue that holds every arc not yet consistent.  If it
    returns true then, for every pair of slots with an overlap, every
    word left in the domain of the first has the slot's length and has a
    word in the domain of the second that agrees at the overlap. *)
Theorem ac3_establishes_arc_consistency (c : Crossword) (d d' : Domains)
  (arcs : option (list (Var * Var))) :
  wf_crossword c = true ->
  node_consistent d ->
  match arcs with
  | None => keys_ok c d
  | Some q => arcs_cover c d q
  end ->
  ac3 c d arcs = Ok (true, d') ->
  forall x y i j, overlaps_get c x y = Some (i, j) ->
  forall w, In w (dom d' x) ->
  String.length w = var_length x /\ supported d' y i j w.
Proof.
  intros wf NC Q E x y i j O w I. unfold ac3 in E.
  destruct (ac3_loop_shrinks c _ _ _ _ _ E) as [_ [S _]].
  split; [apply NC; now apply S |].
  assert (AC : arc_consistent c d').
  { eapply ac3_loop_arc_consistent; [exact wf | | exact E].
    destruct arcs as [q |]; [exact Q | now apply all_arcs_cover]. }
  now apply (AC x y i j O).
Qed.

Lemma ac3_establishes_arc_consistency_witness :
  wf_crossword cw_cross = true /\
  node_consistent cross_store_nc /\
  keys_ok cw_cross cross_store_nc /\
  ac3 cw_cross cross_store_nc None = Ok (true, cross_store) /\
  (forall x y i j, overlaps_get cw_cross x y = Some (i, j) ->
   forall w, In w (dom cross_store x) ->
   String.length w = var_length x /\ supported cross_store y i j w).
Proof.
  split; [reflexivity |].
  split; [apply node_consistentb_sound; reflexivity |].
  split; [apply keys_okb_sound; reflexivity |].
  split; [reflexivity |].
  apply (ac3_establishes_arc_consistency cw_cross cross_store_nc cross_store None).
  - reflexivity.
  - apply node_consistentb_sound. reflexivity.
  - apply keys_okb_sound. reflexivity.
  - reflexivity.
Defined.

(** Counterexample to C1, which has the store restored after every
    abandoned candidate.  On the fresh store of [cw_stuck] the nested
    [ac3] empties the domain of the across slot while the first
    candidate is tried; every candidate is abandoned, [backtrack]
    returns [None], and the domain is still empty. *)
Lemma backtrack_leaves_store_pruned :
  exists h',
    backtrack cw_stuck 3 (init_domains cw_stuck) heap0 0
    = Ok (None, [(slot_across, []); (slot_down, ["AB"; "CD"])], h') /\
    dom (init_domains cw_stuck) slot_across = ["AB"; "CD"] /\
    dom [(slot_across, []); (slot_down, ["AB"; "CD"])] slot_across = [].
Proof.
  eexists. split; [vm_compute; reflexivity |]. split; reflexivity.
Qed.

(** C1, amended.  [backtrack] takes no snapshot and never restores the
    store.  Whatever it returns, an assignment or [None] after abandoning
    every candidate, each domain it leaves behind is a subset of the
    domain it was given; and when the store was arc-consistent on entry,
    as after a successful [ac3] in [solve], the nested [ac3] calls remove
    nothing and each domain is the one it was given. *)
Theorem backtrack_keeps_consistent_store (c : Crossword) (fuel : nat)
  (d d' : Domains) (h h' : Heap) (asg : nat) (r : option nat) :
  backtrack c fuel d h asg = Ok (r, d', h') ->
  (forall x w, In w (dom d' x) -> In w (dom d x)) /\
  (arc_consistent c d -> forall x, dom d' x = dom d x).
Proof.
  intros E. split.
  - eapply backtrack_shrinks; eassumption.
  - intros AC x.
    now rewrite (backtrack_domains c fuel d AC h asg r d' h' E).
Qed.

Lemma backtrack_keeps_consistent_store_witness :
  exists d' h',
    backtrack cw_twin 3 twin_store heap0 0 = Ok (None, d', h') /\
    arc_consistent cw_twin twin_store /\
    forall x, dom d' x = dom twin_store x.
Proof.
  eexists. eexists. split; [vm_compute; reflexivity |].
  split; [apply arc_consistentb_sound; reflexivity |].
  eapply (backtrack_keeps_consistent_store cw_twin 3 twin_store _
            heap0 _ 0 None).
  - vm_compute. reflexivity.
  - apply arc_consistentb_sound. reflexivity.
Defined.

(** In [solve] the search meets one of two stores: an arc-consistent one,
    or one with an empty domain, on which no candidate is tried.  Either
    way the store [solve] ends with is the store the first [ac3] left. *)
Lemma solve_keeps_ac3_store (c : Crossword) (d d' : Domains) (h h' : Heap)
  (r : option nat) :
  wf_crossword c = true -> keys_ok c d ->
  solve c d h = Ok (r, d', h') ->
  exists d0 b,
    enforce_node_consistency d = Ok d0 /\
    ac3 c d0 None = Ok (b, d').
Proof. apply solve_store. Qed.

(** C3.  Whenever [solve] returns a result other than [None], the result
    assigns a word to every slot and passes [consistent].  On a
    well-formed structure, with a store that has an entry for every slot,
    [solve] does return, without raising; the words of a result are
    pairwise distinct, each has the length of its slot, and crossing
    words agree at their overlap; and when no such assignment exists the
    result is [None]. *)
Theorem solve_returns_solution_or_none (c : Crossword) (d : Domains)
  (h : Heap) :
  (forall a d', observe (solve c d h) = Ok (Some a, d') ->
     complete_assignment c a /\ consistent c a = Ok true) /\
  (wf_crossword c = true -> keys_ok c d ->
   exists r d',
     observe (solve c d h) = Ok (r, d') /\
     (forall a, r = Some a -> consistent_assignment c a) /\
     ((forall a, ~ (complete_assignment c a /\ consistent_assignment c a)) ->
      r = None)).
Proof.
  assert (S : forall a d', observe (solve c d h) = Ok (Some a, d') ->
            complete_assignment c a /\ consistent c a = Ok true).
  { intros a d' E. unfold observe in E. inv_bind E.
    destruct a0 as [[r d2] h']. inversion E; subst d2.
    destruct r as [l |]; [| discriminate].
    match goal with Q : option_map _ _ = Some a |- _ =>
      inversion Q; subst a end.
    destruct (solve_sound c _ d d' h h' l E0) as [A C].
    split; [now apply assignment_complete_true | exact C]. }
  split; [exact S |].
  intros wf K. destruct (solve_returns c d h wf K) as [r [d' [h' E]]].
  assert (O : observe (solve c d h) = Ok (option_map (deref h') r, d'))
    by now rewrite E.
  exists (option_map (deref h') r), d'. split; [exact O |].
  assert (C : forall a, option_map (deref h') r = Some a ->
            consistent_assignment c a).
  { intros a Q. rewrite Q in O. apply consistent_true; [exact wf |].
    now apply (S a d'). }
  split; [exact C |].
  intros N. destruct (option_map (deref h') r) as [a |] eqn:Q; [| reflexivity].
  exfalso. apply (N a). split; [| now apply C].
  now apply (S a d').
Qed.

Lemma solve_returns_solution_or_none_witness :
  wf_crossword cw_cross = true /\
  keys_ok cw_cross (init_domains cw_cross) /\
  exists r d',
    observe (solve cw_cross (init_domains cw_cross) empty_heap) = Ok (r, d') /\
    (forall a, r = Some a -> consistent_assignment cw_cross a) /\
    ((forall a, ~ (complete_assignment cw_cross a /\
                   consistent_assignment cw_cross a)) ->
     r = None).
Proof.
  split; [reflexivity |].
  split; [apply keys_okb_sound; reflexivity |].
  apply (solve_returns_solution_or_none cw_cross (init_domains cw_cross)
           empty_heap).
  - reflexivity.
  - apply keys_okb_sound. reflexivity.
Defined.

(** C4.  A call of [ac3] that returns true although domains are empty:
    no word of [cw_short] has the length of its slots, so node
    consistency empties both domains; [revise] then has nothing to
    remove, and the emptiness test, which only follows a revision that
    removed a word, is never reached. *)
Theorem ac3_true_with_empty_domains :
  enforce_node_consistency (init_domains cw_short)
  = Ok [(slot_across, []); (slot_down, [])] /\
  ac3 cw_short [(slot_across, []); (slot_down, [])] None
  = Ok (true, [(slot_across, []); (slot_down, [])]).
Proof. split; reflexivity. Qed.

(** What the code does instead: [ac3] returns false exactly when a
    revision empties a domain that still had words when the call began,
    and a call that returns true leaves no domain empty that was not
    empty already. *)
Lemma ac3_false_emptied (c : Crossword) (d d' : Domains)
  (arcs : option (list (Var * Var))) :
  ac3 c d arcs = Ok (false, d') ->
  exists x xs, Dict.get x d' = Some [] /\ Dict.get x d = Some xs /\ xs <> [].
Proof. unfold ac3. apply ac3_loop_false. Qed.

Lemma ac3_true_none_emptied (c : Crossword) (d d' : Domains)
  (arcs : option (list (Var * Var))) :
  ac3 c d arcs = Ok (true, d') ->
  forall x, Dict.get x d' = Some [] -> Dict.get x d = Some [].
Proof. unfold ac3. apply ac3_loop_true. Qed.

(** C8.  [solve] is deterministic.  The iteration orders of the sets,
    which break the ties of both heuristics, are part of the input: the
    structure, the vocabulary and the store as lists.  Two runs on the
    same input that both finish show the caller the same outcome, the
    same assignment or [None] both times, whatever the heap each run
    starts from and whatever recursion depth it is granted. *)
Theorem solve_deterministic (c : Crossword) (d : Domains) (h1 h2 : Heap)
  (f1 f2 : nat) :
  solve_fuel c f1 d h1 <> OutOfFuel ->
  solve_fuel c f2 d h2 <> OutOfFuel ->
  observe (solve_fuel c f1 d h1) = observe (solve_fuel c f2 d h2).
Proof.
  intros N1 N2.
  rewrite (solve_fuel_solve c f1 d h1 N1), (solve_fuel_solve c f2 d h2 N2).
  apply observe_same. apply solve_same.
Qed.

Lemma solve_deterministic_witness :
  solve_fuel cw_cross 3 (init_domains cw_cross) empty_heap <> OutOfFuel /\
  solve_fuel cw_cross 7 (init_domains cw_cross) heap0 <> OutOfFuel /\
  observe (solve_fuel cw_cross 3 (init_domains cw_cross) empty_heap)
  = observe (solve_fuel cw_cross 7 (init_domains cw_cross) heap0).
Proof.
  split; [vm_compute; discriminate |].
  split; [vm_compute; discriminate |].
  apply (solve_deterministic cw_cross (init_domains cw_cross) empty_heap heap0
           3 7); vm_compute; discriminate.
Defined.

(** C9.  [backtrack] never mutates the assignment it is given: after it
    returns, with an assignment or with [None], the caller's dictionary
    and every other dictionary that existed before the call holds the
    entries it held; the extensions are written to fresh copies. *)
Theorem backtrack_keeps_assignment (c : Crossword) (fuel : nat)
  (d d' : Domains) (h h' : Heap) (asg : nat) (r : option nat) :
  asg < next h ->
  backtrack c fuel d h asg = Ok (r, d', h') ->
  deref h' asg = deref h asg /\
  forall l, l < next h -> deref h' l = deref h l.
Proof.
  intros B E. destruct (backtrack_frame c fuel d h asg r d' h' E) as [_ F].
  split; [now apply F | exact F].
Qed.

Lemma backtrack_keeps_assignment_witness :
  0 < next heap0 /\
  exists r d' h',
    backtrack cw_cross 3 cross_store heap0 0 = Ok (r, d', h') /\
    deref h' 0 = deref heap0 0 /\
    forall l, l < next heap0 -> deref h' l = deref heap0 l.
Proof.
  split; [vm_compute; lia |].
  eexists. eexists. eexists. split; [vm_compute; reflexivity |].
  eapply (backtrack_keeps_assignment cw_cross 3 cross_store _ heap0 _ 0 _).
  - vm_compute. lia.
  - vm_compute. reflexivity.
Defined.

(** C10.  On a structure without slots [solve], called on the creator
    that [__init__] builds, succeeds with the empty assignment. *)
Theorem solve_no_slots (c : Crossword) (h : Heap) :
  variables c = [] ->
  observe (solve c (init_domains c) h) = Ok (Some [], []).
Proof.
  destruct c as [vs ws os]. simpl. intros ->.
  unfold solve, solve_fuel, init_domains, observe, alloc, deref. simpl.
  now rewrite Nat.eqb_refl.
Qed.

Lemma solve_no_slots_witness :
  variables cw_empty = [] /\
  observe (solve cw_empty (init_domains cw_empty) empty_heap)
  = Ok (Some [], []).
Proof.
  split; [reflexivity |].
  apply (solve_no_slots cw_empty empty_heap). reflexivity.
Defined.

Local Close Scope string_scope.

(** * Further properties of the solver *)

Local Open Scope string_scope.

(** X1.  [__init__] gives the store one entry per slot of the puzzle,
    and no other entry; every slot starts with the whole vocabulary, in
    the order in which the vocabulary is iterated. *)
Theorem init_domains_whole_vocabulary (c : Crossword) (x : Var) :
  (In x (Dict.keys (init_domains c)) <-> In x (variables c)) /\
  (In x (variables c) -> Dict.get x (init_domains c) = Some (words c)) /\
  (~ In x (variables c) -> Dict.get x (init_domains c) = None).
Proof.
  unfold init_domains.
  destruct (init_loop (words c) (variables c) []) as [K [G N]].
  split; [| split].
  - rewrite K. simpl. tauto.
  - apply G.
  - intros I. now rewrite (N x I).
Qed.

Lemma init_domains_whole_vocabulary_witness :
  (In slot_down (Dict.keys (init_domains cw_cross)) <->
   In slot_down (variables cw_cross)) /\
  (In slot_down (variables cw_cross) ->
   Dict.get slot_down (init_domains cw_cross) = Some (words cw_cross)) /\
  (~ In slot_down (variables cw_cross) ->
   Dict.get slot_down (init_domains cw_cross) = None).
Proof.
  apply (init_domains_whole_vocabulary cw_cross slot_down).
Defined.

(** X2.  [letter_grid] returns exactly when every letter of every
    assigned word falls inside the grid, and what it returns then has
    [height] rows of [width] cells.  When some letter falls outside,
    the assignment to [letters[i][j]] raises [IndexError]. *)
Theorem letter_grid_raises_iff_word_outside (height width : nat)
  (a : Assignment) :
  (forallb (fun e => fits height width (fst e) (snd e)) a = true ->
   exists letters,
     letter_grid height width a = Ok letters /\
     List.length letters = height /\
     forall row, In row letters -> List.length row = width) /\
  (forallb (fun e => fits height width (fst e) (snd e)) a = false ->
   letter_grid height width a = Raise IndexError).
Proof.
  destruct (letter_grid_outcome height width a)
    as [[F [g [E [[Lg Lr] _]]]] | [F E]]; rewrite F.
  - split; [| discriminate]. intros _. exists g. auto.
  - split; [discriminate | intros _; exact E].
Qed.

Lemma letter_grid_raises_iff_word_outside_witness :
  forallb (fun e => fits 2 1 (fst e) (snd e)) [(slot_across, "AB")] = false /\
  letter_grid 2 1 [(slot_across, "AB")] = Raise IndexError.
Proof.
  split; [reflexivity |].
  apply (letter_grid_raises_iff_word_outside 2 1 [(slot_across, "AB")]).
  reflexivity.
Defined.

(** X3.  The grid that [letter_grid] returns shows the assignment.
    When words that share a cell have the same letter there, every
    letter of every assigned word is in its cell: the [k]-th letter of
    an across word [k] columns to the right of the start of its slot,
    that of a down word [k] rows below it.  Every cell of the grid that
    no assigned word covers holds [None]. *)
Theorem letter_grid_shows_every_word (height width : nat) (a : Assignment)
  (letters : Grid) :
  cells_agree a ->
  letter_grid height width a = Ok letters ->
  (forall x word k ch,
     In (x, word) a -> String.get k word = Some ch ->
     grid_get letters (fst (letter_cell x k)) (snd (letter_cell x k))
     = Some (Some ch)) /\
  (forall i j, i < height -> j < width ->
     (forall x word k, In (x, word) a -> k < String.length word ->
        letter_cell x k <> (i, j)) ->
     grid_get letters i j = Some None).
Proof.
  intros C E.
  destruct (letter_grid_outcome height width a)
    as [[_ [g [E' [_ Inv]]]] | [_ E']]; [| congruence].
  assert (g = letters) by congruence. subst g.
  exact (Inv C).
Qed.

Lemma letter_grid_shows_every_word_witness :
  cells_agree [(slot_across, "AB"); (slot_down, "BA")] /\
  letter_grid 2 2 [(slot_across, "AB"); (slot_down, "BA")]
  = Ok [[Some "B"%char; None]; [Some "A"%char; Some "B"%char]] /\
  (forall x word k ch,
     In (x, word) [(slot_across, "AB"); (slot_down, "BA")] ->
     String.get k word = Some ch ->
     grid_get [[Some "B"%char; None]; [Some "A"%char; Some "B"%char]]
       (fst (letter_cell x k)) (snd (letter_cell x k))
     = Some (Some ch)) /\
  (forall i j, i < 2 -> j < 2 ->
     (forall x word k,
        In (x, word) [(slot_across, "AB"); (slot_down, "BA")] ->
        k < String.length word -> letter_cell x k <> (i, j)) ->
     grid_get [[Some "B"%char; None]; [Some "A"%char; Some "B"%char]] i j
     = Some None).
Proof.
  split; [apply cells_agreeb_sound; reflexivity |].
  split; [reflexivity |].
  apply (letter_grid_shows_every_word 2 2
           [(slot_across, "AB"); (slot_down, "BA")]
           [[Some "B"%char; None]; [Some "A"%char; Some "B"%char]]).
  - apply cells_agreeb_sound. reflexivity.
  - reflexivity.
Defined.

(** X4.  [print] shows the assignment.  On a structure of [height] rows
    of [width] cells, with every assigned word inside the grid and
    words that share a cell agreeing on its letter, [print] returns
    after writing [height] rows of [width] cells: a blocked cell is
    written as a full block, an open cell that an assigned word covers
    as the letter of that word, and an open cell that none covers as a
    space. *)
Theorem print_shows_every_word (structure : list (list bool))
  (height width : nat) (a : Assignment) :
  rect height width structure ->
  cells_agree a ->
  forallb (fun e => fits height width (fst e) (snd e)) a = true ->
  exists rows,
    print structure height width a = Ok rows /\
    rect height width rows /\
    (forall i j, grid_get structure i j = Some false ->
       grid_get rows i j = Some "█") /\
    (forall x word k ch,
       In (x, word) a -> String.get k word = Some ch ->
       grid_get structure (fst (letter_cell x k)) (snd (letter_cell x k))
       = Some true ->
       grid_get rows (fst (letter_cell x k)) (snd (letter_cell x k))
       = Some (String ch EmptyString)) /\
    (forall i j, grid_get structure i j = Some true ->
       (forall x word k, In (x, word) a -> k < String.length word ->
          letter_cell x k <> (i, j)) ->
       grid_get rows i j = Some " ").
Proof.
  intros RS C F.
  destruct (letter_grid_outcome height width a)
    as [[_ [g [E [RL Inv]]]] | [F' _]]; [| congruence].
  destruct (Inv C) as [B N].
  destruct (print_rows structure height width g RS RL) as [rows [Er [RR G]]].
  exists rows. unfold print. rewrite E. cbn [bind].
  split; [exact Er |]. split; [exact RR |]. split; [| split].
  - intros i j S.
    destruct (grid_get_bounds _ height width structure i j false RS S)
      as [Li Lj].
    now rewrite (G i j Li Lj), S.
  - intros x word k ch I Gk S.
    destruct (grid_get_bounds _ height width structure _ _ true RS S)
      as [Li Lj].
    now rewrite (G _ _ Li Lj), S, (B x word k ch I Gk).
  - intros i j S NC.
    destruct (grid_get_bounds _ height width structure i j true RS S)
      as [Li Lj].
    now rewrite (G i j Li Lj), S, (N i j Li Lj NC).
Qed.

Lemma print_shows_every_word_witness :
  rect 2 2 [[true; false]; [true; true]] /\
  cells_agree [(slot_across, "AB"); (slot_down, "BA")] /\
  forallb (fun e => fits 2 2 (fst e) (snd e))
    [(slot_across, "AB"); (slot_down, "BA")] = true /\
  print [[true; false]; [true; true]] 2 2
    [(slot_across, "AB"); (slot_down, "BA")]
  = Ok [["B"; "█"]; ["A"; "B"]] /\
  exists rows,
    print [[true; false]; [true; true]] 2 2
      [(slot_across, "AB"); (slot_down, "BA")] = Ok rows /\
    rect 2 2 rows /\
    (forall i j, grid_get [[true; false]; [true; true]] i j = Some false ->
       grid_get rows i j = Some "█") /\
    (forall x word k ch,
       In (x, word) [(slot_across, "AB"); (slot_down, "BA")] ->
       String.get k word = Some ch ->
       grid_get [[true; false]; [true; true]]
         (fst (letter_cell x k)) (snd (letter_cell x k)) = Some true ->
       grid_get rows (fst (letter_cell x k)) (snd (letter_cell x k))
       = Some (String ch EmptyString)) /\
    (forall i j, grid_get [[true; false]; [true; true]] i j = Some true ->
       (forall x word k,
          In (x, word) [(slot_across, "AB"); (slot_down, "BA")] ->
          k < String.length word -> letter_cell x k <> (i, j)) ->
       grid_get rows i j = Some " ").
Proof.
  assert (R : rect 2 2 [[true; false]; [true; true]]).
  { split; [reflexivity |].
    intros row [<- | [<- | []]]; reflexivity. }
  split; [exact R |].
  split; [apply cells_agreeb_sound; reflexivity |].
  split; [reflexivity |]. split; [reflexivity |].
  apply (print_shows_every_word [[true; false]; [true; true]] 2 2
           [(slot_across, "AB"); (slot_down, "BA")]).
  - exact R.
  - apply cells_agreeb_sound. reflexivity.
  - reflexivity.
Defined.

(** X5.  The search is complete.  On a well-formed structure and a
    store with an entry for every slot, if the puzzle has a solution
    whose words are all in the domains of their slots, then [solve]
    returns an assignment, and that assignment gives every slot a word
    and satisfies the constraints. *)
Theorem solve_finds_solution (c : Crossword) (d : Domains) (h : Heap)
  (s : Assignment) :
  wf_crossword c = true -> keys_ok c d ->
  complete_assignment c s -> consistent_assignment c s -> within d s ->
  exists a d',
    observe (solve c d h) = Ok (Some a, d') /\
    complete_assignment c a /\ consistent_assignment c a.
Proof.
  intros wf K SC SA W.
  destruct (solve_returns c d h wf K) as [r [d' [h' E]]].
  destruct (solve_fuel_inv c _ d d' h h' r E) as [d0 [b [d1 [E0 [E1 B]]]]].
  destruct (enforce_store_ok c d K) as [d0' [E0' S0]].
  assert (d0' = d0) by congruence. subst d0'.
  pose proof (within_enforce d d0 c s SA W E0) as W0.
  destruct (ac3_keeps_solution c wf s SC SA d0 d1 None b W0 E1) as [_ W1].
  assert (S1 : store_ok c d1)
    by (unfold ac3 in E1; eapply ac3_loop_store_ok; eassumption).
  assert (D0 : deref (snd (alloc h [])) (next h) = []).
  { unfold alloc, deref. simpl. now rewrite Nat.eqb_refl. }
  destruct (backtrack_complete c wf s SC SA (S (List.length (variables c)))
              d1 (snd (alloc h [])) (next h)
              r d' h') as [[l ->] _]; try assumption.
  - rewrite D0. intros x w [].
  - rewrite D0. constructor.
  - rewrite D0. intros x w [].
  - simpl. lia.
  - rewrite D0. pose proof (unassigned_count_le c []). lia.
  - destruct (solve_sound c _ d d' h h' l E) as [A C].
    exists (deref h' l), d'. unfold observe. rewrite E. simpl.
    split; [reflexivity |].
    split; [now apply assignment_complete_true | now apply consistent_true].
Qed.

Lemma solve_finds_solution_witness :
  wf_crossword cw_cross = true /\
  keys_ok cw_cross (init_domains cw_cross) /\
  complete_assignment cw_cross [(slot_down, "AB"); (slot_across, "BA")] /\
  consistent_assignment cw_cross [(slot_down, "AB"); (slot_across, "BA")] /\
  within (init_domains cw_cross) [(slot_down, "AB"); (slot_across, "BA")] /\
  exists a d',
    observe (solve cw_cross (init_domains cw_cross) empty_heap)
    = Ok (Some a, d') /\
    complete_assignment cw_cross a /\ consistent_assignment cw_cross a.
Proof.
  assert (K : keys_ok cw_cross (init_domains cw_cross))
    by (apply keys_okb_sound; reflexivity).
  assert (SC : complete_assignment cw_cross
                 [(slot_down, "AB"); (slot_across, "BA")])
    by (apply assignment_complete_true; reflexivity).
  assert (SA : consistent_assignment cw_cross
                 [(slot_down, "AB"); (slot_across, "BA")])
    by (apply consistent_true; reflexivity).
  assert (W : within (init_domains cw_cross)
                [(slot_down, "AB"); (slot_across, "BA")])
    by (apply withinb_sound; reflexivity).
  split; [reflexivity |]. split; [exact K |]. split; [exact SC |].
  split; [exact SA |]. split; [exact W |].
  apply (solve_finds_solution cw_cross (init_domains cw_cross) empty_heap
           [(slot_down, "AB"); (slot_across, "BA")]);
    [reflexivity | exact K | exact SC | exact SA | exact W].
Defined.

(** X6.  [solve] drops what [ac3] returns, and loses nothing by it:
    when the first [ac3] returns false, the search tries no candidate,
    and [solve] returns [None] with the store as [ac3] left it. *)
Theorem solve_none_when_ac3_fails (c : Crossword) (d d0 d1 : Domains)
  (h : Heap) :
  wf_crossword c = true -> keys_ok c d ->
  enforce_node_consistency d = Ok d0 ->
  ac3 c d0 None = Ok (false, d1) ->
  observe (solve c d h) = Ok (None, d1).
Proof.
  intros wf K E0 E1.
  destruct (solve_returns c d h wf K) as [r [d' [h' E]]].
  destruct (solve_fuel_inv c _ d d' h h' r E) as [d0' [b [d1' [E0' [E1' B]]]]].
  assert (d0' = d0) by congruence. subst d0'.
  assert (Q : (b, d1') = (false, d1)) by congruence.
  inversion Q; subst b d1'. clear Q.
  unfold ac3 in E1.
  destruct (ac3_loop_false c _ _ _ _ E1) as [x [xs [G _]]].
  destruct (ac3_loop_shrinks c _ _ _ _ _ E1) as [K1 _].
  destruct (enforce_node_consistency_spec d) as [d0' [E0'' [K0 _]]].
  assert (d0' = d0) by congruence. subst d0'.
  assert (Ix : In x (variables c)).
  { apply K. rewrite <- K0, <- K1. eapply get_Some_keys; eassumption. }
  destruct (backtrack_empty_domain c (S (List.length (variables c))) d1 d'
              (snd (alloc h [])) h' (next h)
              r x Ix) as [-> [-> _]]; try assumption.
  - unfold alloc, deref. simpl. now rewrite Nat.eqb_refl.
  - unfold dom. now rewrite G.
  - unfold observe. now rewrite E.
Qed.

Lemma solve_none_when_ac3_fails_witness :
  wf_crossword cw_stuck = true /\
  keys_ok cw_stuck (init_domains cw_stuck) /\
  enforce_node_consistency (init_domains cw_stuck)
  = Ok [(slot_across, ["AB"; "CD"]); (slot_down, ["AB"; "CD"])] /\
  ac3 cw_stuck [(slot_across, ["AB"; "CD"]); (slot_down, ["AB"; "CD"])] None
  = Ok (false, [(slot_across, []); (slot_down, ["AB"; "CD"])]) /\
  observe (solve cw_stuck (init_domains cw_stuck) empty_heap)
  = Ok (None, [(slot_across, []); (slot_down, ["AB"; "CD"])]).
Proof.
  split; [reflexivity |].
  split; [apply keys_okb_sound; reflexivity |].
  split; [reflexivity |]. split; [reflexivity |].
  apply (solve_none_when_ac3_fails cw_stuck (init_domains cw_stuck)
           [(slot_across, ["AB"; "CD"]); (slot_down, ["AB"; "CD"])]
           [(slot_across, []); (slot_down, ["AB"; "CD"])] empty_heap).
  - reflexivity.
  - apply keys_okb_sound. reflexivity.
  - reflexivity.
  - reflexivity.
Defined.

(** X7.  What [main] gets from [CrosswordCreator(crossword).solve()] on
    a well-formed structure: the call returns, and its result is right
    both ways.  An assignment that is returned is a solution of the
    puzzle: every slot has a word, every word is a word of the
    vocabulary, the words are pairwise distinct, fit their slots and
    agree where slots cross.  [None] is returned only when the puzzle
    has no solution. *)
Theorem generate_sound_and_complete (c : Crossword) :
  wf_crossword c = true ->
  exists r d',
    generate c = Ok (r, d') /\
    match r with
    | Some a => puzzle_solution c a
    | None => forall s, ~ puzzle_solution c s
    end.
Proof.
  intros wf. unfold generate.
  destruct (solve_returns c (init_domains c) empty_heap wf
              (init_domains_keys c)) as [r [d' [h' E]]].
  exists (option_map (deref h') r), d'.
  split; [unfold observe; now rewrite E |].
  destruct (solve_fuel_inv c _ _ d' _ h' r E) as [d0 [b [d1 [E0 [E1 B]]]]].
  destruct (enforce_node_consistency_spec (init_domains c))
    as [d0' [E0' [_ I]]].
  assert (d0' = d0) by congruence. subst d0'.
  destruct r as [l |]; simpl.
  - destruct (solve_sound c _ _ d' _ h' l E) as [A C].
    split; [now apply assignment_complete_true |].
    split; [now apply consistent_true |].
    assert (G : grown_from c d1 [] (deref h' l)).
    { pose proof (backtrack_grown c (S (List.length (variables c))) d1
                    (snd (alloc empty_heap [])) 0 l d' h') as G.
      apply G; [simpl; lia | exact B]. }
    intros x w Gx. destruct (proj2 G x w Gx) as [Z | [Ix Iw]];
      [discriminate |].
    split; [exact Ix |].
    unfold ac3 in E1. destruct (ac3_loop_shrinks c _ _ _ _ _ E1) as [_ [S _]].
    apply S, I in Iw. destruct Iw as [Iw _].
    now rewrite (init_domains_dom c x Ix) in Iw.
  - intros s [SC [SA V]].
    destruct (enforce_store_ok c (init_domains c) (init_domains_keys c))
      as [d0' [E0'' S0]].
    assert (d0' = d0) by congruence. subst d0'.
    assert (W : within (init_domains c) s).
    { intros x w G. destruct (V x w G) as [Ix Iw].
      now rewrite (init_domains_dom c x Ix). }
    pose proof (within_enforce _ d0 c s SA W E0) as W0.
    destruct (ac3_keeps_solution c wf s SC SA d0 d1 None b W0 E1) as [_ W1].
    assert (S1 : store_ok c d1)
      by (unfold ac3 in E1; eapply ac3_loop_store_ok; eassumption).
    destruct (backtrack_complete c wf s SC SA (S (List.length (variables c)))
                d1 (snd (alloc empty_heap [])) 0 None d' h')
      as [[l Q] _]; try assumption; try discriminate.
    + intros x w [].
    + constructor.
    + intros x w [].
    + simpl. lia.
    + pose proof (unassigned_count_le c []).
      change (deref (snd (alloc empty_heap [])) 0) with (@nil (Var * string)).
      lia.
Qed.

Lemma generate_sound_and_complete_witness :
  wf_crossword cw_cross = true /\
  exists r d',
    generate cw_cross = Ok (r, d') /\
    match r with
    | Some a => puzzle_solution cw_cross a
    | None => forall s, ~ puzzle_solution cw_cross s
    end.
Proof.
  split; [reflexivity |].
  apply (generate_sound_and_complete cw_cross). reflexivity.
Defined.

(** X8.  [enforce_node_consistency] always returns.  It keeps the slots
    of the store and their order, and leaves in every domain exactly the
    words of the slot's length, in the order in which they were. *)
Theorem enforce_node_consistency_keeps_order (d : Domains) :
  exists d',
    enforce_node_consistency d = Ok d' /\
    Dict.keys d' = Dict.keys d /\
    forall x, dom d' x =
              filter (fun w => Nat.eqb (String.length w) (var_length x))
                     (dom d x).
Proof.
  destruct (node_loop_filter (Dict.keys d) d (incl_refl _)) as [d' [E [K F]]].
  exists d'. split; [exact E |]. split; [exact K |].
  intros x. rewrite F.
  destruct (set_mem x (Dict.keys d)) eqn:M; [reflexivity |].
  apply set_mem_false_iff in M. apply get_None_keys in M.
  unfold dom. now rewrite M.
Qed.

(** X9.  [enforce_node_consistency] is idempotent: run on the store it
    has left, it removes nothing and leaves the very same store. *)
Theorem enforce_node_consistency_idempotent (d d' : Domains) :
  enforce_node_consistency d = Ok d' ->
  enforce_node_consistency d' = Ok d'.
Proof.
  intros E. unfold enforce_node_consistency.
  apply node_loop_fixed; [| apply incl_refl].
  destruct (enforce_node_consistency_spec d) as [d0 [E0 [_ I]]].
  assert (d0 = d') by congruence. subst d0.
  intros x w Iw. now apply I in Iw.
Qed.

Lemma enforce_node_consistency_idempotent_witness :
  enforce_node_consistency (init_domains cw_cross) = Ok cross_store_nc /\
  enforce_node_consistency cross_store_nc = Ok cross_store_nc.
Proof.
  split; [reflexivity |].
  apply (enforce_node_consistency_idempotent (init_domains cw_cross)
           cross_store_nc).
  reflexivity.
Defined.

(** X10.  [revise] relies on node consistency.  When the two slots
    overlap, the domain of [y] is not empty, and the domain of [x] holds
    a word too short to have a letter at its overlap index, [revise]
    raises [IndexError]. *)
Theorem revise_raises_on_short_word (c : Crossword) (x y : Var) (d : Domains)
  (i j : nat) (xs ys : list string) (w : string) :
  overlaps_get c x y = Some (i, j) ->
  Dict.get x d = Some xs -> Dict.get y d = Some ys -> ys <> [] ->
  In w xs -> String.length w <= i ->
  revise c x y d = Raise IndexError.
Proof.
  intros O Gx Gy NE I L. unfold revise. rewrite O.
  unfold Dict.getitem at 1. rewrite Gx. cbn [of_option bind].
  unfold unsupported.
  now rewrite (unsupported_short i j y d ys w xs Gy NE L I []).
Qed.

Lemma revise_raises_on_short_word_witness :
  overlaps_get cw_cross slot_down slot_across = Some (1, 0) /\
  Dict.get slot_down [(slot_across, ["AB"]); (slot_down, ["BA"; "A"])]
  = Some ["BA"; "A"] /\
  Dict.get slot_across [(slot_across, ["AB"]); (slot_down, ["BA"; "A"])]
  = Some ["AB"] /\
  ["AB"] <> [] /\ In "A" ["BA"; "A"] /\ String.length "A" <= 1 /\
  revise cw_cross slot_down slot_across
    [(slot_across, ["AB"]); (slot_down, ["BA"; "A"])] = Raise IndexError.
Proof.
  split; [reflexivity |]. split; [reflexivity |]. split; [reflexivity |].
  split; [discriminate |]. split; [simpl; auto |]. split; [simpl; lia |].
  apply (revise_raises_on_short_word cw_cross slot_down slot_across
           [(slot_across, ["AB"]); (slot_down, ["BA"; "A"])] 1 0
           ["BA"; "A"] ["AB"] "A");
    [reflexivity | reflexivity | reflexivity | discriminate | simpl; auto
    | simpl; lia].
Defined.

(** X11.  Against an empty domain nothing has support: when the two
    slots overlap and the domain of [y] is empty, [revise] empties the
    domain of [x], returns true unless that domain was empty already,
    and reads no letter, so it cannot raise. *)
Theorem revise_against_empty_domain (c : Crossword) (x y : Var) (d : Domains)
  (i j : nat) (xs : list string) :
  overlaps_get c x y = Some (i, j) ->
  Dict.get x d = Some xs -> Dict.get y d = Some [] ->
  revise c x y d = Ok (negb (is_nil xs), Dict.setitem x [] d).
Proof.
  intros O Gx Gy. unfold revise. rewrite O.
  unfold Dict.getitem at 1. rewrite Gx. cbn [of_option bind].
  unfold unsupported. rewrite (unsupported_empty i j y d xs Gy []).
  cbn [bind].
  destruct (set_add_all xs [] (NoDup_nil _)) as [ND I].
  set (tr := fold_left _ xs []) in *.
  rewrite revised_loop.
  rewrite (discard_loop x tr d xs Gx ND).
  - cbn [bind]. rewrite filter_none.
    + f_equal. f_equal. destruct xs as [| w xs]; [reflexivity |].
      destruct tr as [| t tr'] eqn:Q; [| reflexivity].
      exfalso. apply (I w). right. now left.
    + intros w Iw. apply negb_false_iff, set_mem_true_iff, I. now right.
  - intros w Iw. apply I in Iw. destruct Iw as [[] | Iw]. exact Iw.
Qed.

Lemma revise_against_empty_domain_witness :
  overlaps_get cw_cross slot_down slot_across = Some (1, 0) /\
  Dict.get slot_down [(slot_across, []); (slot_down, ["AB"; "CD"])]
  = Some ["AB"; "CD"] /\
  Dict.get slot_across [(slot_across, []); (slot_down, ["AB"; "CD"])]
  = Some [] /\
  revise cw_cross slot_down slot_across
    [(slot_across, []); (slot_down, ["AB"; "CD"])]
  = Ok (negb (is_nil ["AB"; "CD"]),
        Dict.setitem slot_down []
          [(slot_across, []); (slot_down, ["AB"; "CD"])]).
Proof.
  split; [reflexivity |]. split; [reflexivity |]. split; [reflexivity |].
  apply (revise_against_empty_domain cw_cross slot_down slot_across
           [(slot_across, []); (slot_down, ["AB"; "CD"])] 1 0 ["AB"; "CD"]);
    reflexivity.
Defined.

(** X12.  [ac3] only removes words, and it removes no more than it must:
    the store it leaves has the same slots, every domain is a part of
    what it was, and every arc-consistent store that fits inside the
    store [ac3] started from still fits inside the store it leaves. *)
Theorem ac3_leaves_greatest_consistent_store (c : Crossword) (d d' : Domains)
  (arcs : option (list (Var * Var))) (b : bool) :
  ac3 c d arcs = Ok (b, d') ->
  Dict.keys d' = Dict.keys d /\
  (forall x w, In w (dom d' x) -> In w (dom d x)) /\
  (forall e, arc_consistent c e ->
     (forall x w, In w (dom e x) -> In w (dom d x)) ->
     forall x w, In w (dom e x) -> In w (dom d' x)).
Proof.
  intros E. unfold ac3 in E.
  destruct (ac3_loop_shrinks c _ _ _ _ _ E) as [K [S _]].
  split; [exact K |]. split; [exact S |].
  intros e AC I.
  refine (proj1 (ac3_loop_keeps c (fun x w => In w (dom e x)) _ _ _ _ _ _ I E)).
  intros x y i j w O Iw. exact (AC x y i j O w Iw).
Qed.

Lemma ac3_leaves_greatest_consistent_store_witness :
  ac3 cw_cross cross_store_nc None = Ok (true, cross_store) /\
  Dict.keys cross_store = Dict.keys cross_store_nc /\
  (forall x w, In w (dom cross_store x) -> In w (dom cross_store_nc x)) /\
  (forall e, arc_consistent cw_cross e ->
     (forall x w, In w (dom e x) -> In w (dom cross_store_nc x)) ->
     forall x w, In w (dom e x) -> In w (dom cross_store x)).
Proof.
  split; [reflexivity |].
  apply (ac3_leaves_greatest_consistent_store cw_cross cross_store_nc
           cross_store None true).
  reflexivity.
Defined.

(** X13.  The store that a successful [ac3] leaves does not depend on the
    queue: if one run from a queue that holds every arc not yet
    consistent returns true, then a run from any other queue returns
    true as well; and if that queue too holds every arc not yet
    consistent, both runs leave the same words in every domain. *)
Theorem ac3_result_independent_of_queue (c : Crossword) (d d1 d2 : Domains)
  (q1 q2 : list (Var * Var)) (b : bool) :
  wf_crossword c = true ->
  arcs_cover c d q1 ->
  ac3 c d (Some q1) = Ok (true, d1) ->
  ac3 c d (Some q2) = Ok (b, d2) ->
  b = true /\
  (arcs_cover c d q2 -> forall x w, In w (dom d1 x) <-> In w (dom d2 x)).
Proof.
  intros wf C1 E1 E2. unfold ac3 in E1, E2.
  pose proof (ac3_loop_arc_consistent c wf _ _ _ _ C1 E1) as AC1.
  destruct (ac3_loop_shrinks c _ _ _ _ _ E1) as [_ [S1 _]].
  destruct (ac3_loop_shrinks c _ _ _ _ _ E2) as [_ [S2 _]].
  assert (I12 : forall x w, In w (dom d1 x) -> In w (dom d2 x)).
  { refine (proj1 (ac3_loop_keeps c (fun x w => In w (dom d1 x))
                      _ _ _ _ _ _ S1 E2)).
    intros x y i j w O Iw. exact (AC1 x y i j O w Iw). }
  assert (B : b = true).
  { destruct b; [reflexivity | exfalso].
    destruct (ac3_loop_false c _ _ _ _ E2) as [x [xs [G2 [G N]]]].
    destruct (Dict.get x d1) as [s |] eqn:G1.
    - assert (s = []).
      { destruct s as [| w s]; [reflexivity | exfalso].
        specialize (I12 x w). unfold dom in I12. rewrite G1, G2 in I12.
        apply I12. now left. }
      subst s. pose proof (ac3_loop_true c _ _ _ _ E1 x G1). congruence.
    - destruct (ac3_loop_shrinks c _ _ _ _ _ E1) as [K _].
      apply get_None_keys in G1. apply G1. rewrite K.
      eapply get_Some_keys; eassumption. }
  split; [exact B |]. subst b.
  intros C2 x w. split; [apply I12 |].
  pose proof (ac3_loop_arc_consistent c wf _ _ _ _ C2 E2) as AC2.
  refine (proj1 (ac3_loop_keeps c (fun x w => In w (dom d2 x))
                    _ _ _ _ _ _ S2 E1) x w).
  intros x0 y i j w0 O Iw. exact (AC2 x0 y i j O w0 Iw).
Qed.

Lemma ac3_result_independent_of_queue_witness :
  wf_crossword cw_cross = true /\
  arcs_cover cw_cross cross_store_nc
    [(slot_across, slot_down); (slot_down, slot_across)] /\
  arcs_cover cw_cross cross_store_nc
    [(slot_down, slot_across); (slot_across, slot_down)] /\
  ac3 cw_cross cross_store_nc
    (Some [(slot_across, slot_down); (slot_down, slot_across)])
  = Ok (true, cross_store) /\
  ac3 cw_cross cross_store_nc
    (Some [(slot_down, slot_across); (slot_across, slot_down)])
  = Ok (true, cross_store) /\
  true = true /\
  forall x w, In w (dom cross_store x) <-> In w (dom cross_store x).
Proof.
  assert (C1 : arcs_cover cw_cross cross_store_nc
                 [(slot_across, slot_down); (slot_down, slot_across)])
    by (apply arcs_coverb_sound; reflexivity).
  assert (C2 : arcs_cover cw_cross cross_store_nc
                 [(slot_down, slot_across); (slot_across, slot_down)])
    by (apply arcs_coverb_sound; reflexivity).
  split; [reflexivity |]. split; [exact C1 |]. split; [exact C2 |].
  split; [reflexivity |]. split; [reflexivity |].
  destruct (ac3_result_independent_of_queue cw_cross cross_store_nc
              cross_store cross_store
              [(slot_across, slot_down); (slot_down, slot_across)]
              [(slot_down, slot_across); (slot_across, slot_down)] true)
    as [B I]; [reflexivity | exact C1 | reflexivity | reflexivity |].
  split; [exact B | exact (I C2)].
Defined.

(** X14.  Pruning never loses a solution.  On a node-consistent store
    with an entry for every slot, if every word of some solution of the
    puzzle is in the domain of its slot, then [ac3], from any queue,
    returns true and every word of that solution is still in the domain
    of its slot. *)
Theorem ac3_keeps_every_solution (c : Crossword) (d : Domains)
  (arcs : option (list (Var * Var))) (s : Assignment) :
  wf_crossword c = true -> store_ok c d ->
  complete_assignment c s -> consistent_assignment c s -> within d s ->
  exists d', ac3 c d arcs = Ok (true, d') /\ within d' s.
Proof.
  intros wf S SC SA W.
  destruct (ac3_returns c wf d arcs S) as [b [d' [E _]]].
  destruct (ac3_keeps_solution c wf s SC SA d d' arcs b W E) as [-> W'].
  now exists d'.
Qed.

Lemma ac3_keeps_every_solution_witness :
  wf_crossword cw_cross = true /\
  store_ok cw_cross cross_store_nc /\
  complete_assignment cw_cross [(slot_across, "AB"); (slot_down, "BA")] /\
  consistent_assignment cw_cross [(slot_across, "AB"); (slot_down, "BA")] /\
  within cross_store_nc [(slot_across, "AB"); (slot_down, "BA")] /\
  exists d', ac3 cw_cross cross_store_nc None = Ok (true, d') /\
             within d' [(slot_across, "AB"); (slot_down, "BA")].
Proof.
  assert (S : store_ok cw_cross cross_store_nc).
  { split; [apply keys_okb_sound | apply node_consistentb_sound];
      reflexivity. }
  assert (SC : complete_assignment cw_cross
                 [(slot_across, "AB"); (slot_down, "BA")])
    by (apply assignment_complete_true; reflexivity).
  assert (SA : consistent_assignment cw_cross
                 [(slot_across, "AB"); (slot_down, "BA")])
    by (apply consistent_true; reflexivity).
  assert (W : within cross_store_nc [(slot_across, "AB"); (slot_down, "BA")])
    by (apply withinb_sound; reflexivity).
  split; [reflexivity |]. split; [exact S |]. split; [exact SC |].
  split; [exact SA |]. split; [exact W |].
  apply (ac3_keeps_every_solution cw_cross cross_store_nc None
           [(slot_across, "AB"); (slot_down, "BA")]);
    [reflexivity | exact S | exact SC | exact SA | exact W].
Defined.

(** X15.  On a node-consistent store with an entry for every slot [ac3]
    terminates without raising and leaves such a store.  It returns
    false only when it has emptied a domain that held words when the
    call began; when it returns true, the only empty domains are those
    that were empty already. *)
Theorem ac3_returns_false_iff_emptied (c : Crossword) (d : Domains)
  (arcs : option (list (Var * Var))) :
  wf_crossword c = true -> store_ok c d ->
  exists b d',
    ac3 c d arcs = Ok (b, d') /\ store_ok c d' /\
    (b = false ->
     exists x xs, Dict.get x d' = Some [] /\ Dict.get x d = Some xs /\
                  xs <> []) /\
    (b = true -> forall x, Dict.get x d' = Some [] -> Dict.get x d = Some []).
Proof.
  intros wf S.
  destruct (ac3_returns c wf d arcs S) as [b [d' [E [S' _]]]].
  exists b, d'. split; [exact E |]. split; [exact S' |].
  unfold ac3 in E. split; intros ->.
  - eapply ac3_loop_false; eassumption.
  - eapply ac3_loop_true; eassumption.
Qed.

Lemma ac3_returns_false_iff_emptied_witness :
  wf_crossword cw_stuck = true /\
  store_ok cw_stuck (init_domains cw_stuck) /\
  exists b d',
    ac3 cw_stuck (init_domains cw_stuck) None = Ok (b, d') /\
    store_ok cw_stuck d' /\
    (b = false ->
     exists x xs, Dict.get x d' = Some [] /\
                  Dict.get x (init_domains cw_stuck) = Some xs /\ xs <> []) /\
    (b = true -> forall x, Dict.get x d' = Some [] ->
                 Dict.get x (init_domains cw_stuck) = Some []).
Proof.
  assert (S : store_ok cw_stuck (init_domains cw_stuck)).
  { split; [apply keys_okb_sound | apply node_consistentb_sound];
      reflexivity. }
  split; [reflexivity |]. split; [exact S |].
  apply (ac3_returns_false_iff_emptied cw_stuck (init_domains cw_stuck) None);
    [reflexivity | exact S].
Defined.

(** X16.  On a well-formed structure [consistent] decides the
    constraints of the puzzle: it returns true exactly when the words of
    the assignment are pairwise distinct, each has the length of its
    slot, and any two assigned slots that cross have the same letter at
    the overlap.  When every word has the length of its slot, which is a
    slot of the puzzle, [consistent] returns without raising. *)
Theorem consistent_decides_constraints (c : Crossword) (a : Assignment) :
  wf_crossword c = true -> NoDup (Dict.keys a) ->
  (consistent c a = Ok true <-> consistent_assignment c a) /\
  (valid_assignment c a -> exists b, consistent c a = Ok b).
Proof.
  intros wf NK. split; [split |].
  - now apply consistent_true.
  - now apply consistent_complete.
  - now apply consistent_returns.
Qed.

Lemma consistent_decides_constraints_witness :
  wf_crossword cw_cross = true /\
  NoDup (Dict.keys [(slot_across, "AB"); (slot_down, "BA")]) /\
  (consistent cw_cross [(slot_across, "AB"); (slot_down, "BA")] = Ok true <->
   consistent_assignment cw_cross [(slot_across, "AB"); (slot_down, "BA")]) /\
  (valid_assignment cw_cross [(slot_across, "AB"); (slot_down, "BA")] ->
   exists b,
     consistent cw_cross [(slot_across, "AB"); (slot_down, "BA")] = Ok b).
Proof.
  assert (NK : NoDup (Dict.keys [(slot_across, "AB"); (slot_down, "BA")]))
    by (eapply nodupb_NoDup; reflexivity).
  split; [reflexivity |]. split; [exact NK |].
  apply (consistent_decides_constraints cw_cross
           [(slot_across, "AB"); (slot_down, "BA")]);
    [reflexivity | exact NK].
Defined.

(** X17.  An assignment that gives two slots the same word is rejected
    at once: [consistent] returns false before it looks at any length or
    letter, so it cannot raise, whatever else the assignment holds. *)
Theorem consistent_rejects_repeated_word (c : Crossword) (a : Assignment)
  (x y : Var) (w : string) :
  x <> y -> Dict.get x a = Some w -> Dict.get y a = Some w ->
  consistent c a = Ok false.
Proof.
  intros N Gx Gy. unfold consistent.
  destruct (Nat.eqb (List.length (Dict.values a))
              (List.length (nodup string_dec (Dict.values a)))) eqn:L;
    [| reflexivity].
  exfalso. apply N. apply Nat.eqb_eq in L. symmetry in L.
  apply nodup_length_NoDup in L.
  exact (values_NoDup_inj Var a L x y w Gx Gy).
Qed.

Lemma consistent_rejects_repeated_word_witness :
  slot_across <> slot_down /\
  Dict.get slot_across [(slot_across, "AB"); (slot_down, "AB")] = Some "AB" /\
  Dict.get slot_down [(slot_across, "AB"); (slot_down, "AB")] = Some "AB" /\
  consistent cw_cross [(slot_across, "AB"); (slot_down, "AB")] = Ok false.
Proof.
  split; [discriminate |]. split; [reflexivity |]. split; [reflexivity |].
  apply (consistent_rejects_repeated_word cw_cross
           [(slot_across, "AB"); (slot_down, "AB")] slot_across slot_down "AB");
    [discriminate | reflexivity | reflexivity].
Defined.

(** X18.  [order_domain_values] tries every word of the domain, each as
    often as the domain holds it, in ascending order of the number of
    conflicts that [count_conflicts] gives it. *)
Theorem order_domain_values_ascending (c : Crossword) (d : Domains)
  (var : Var) (a : Assignment) :
  wf_crossword c = true -> store_ok c d -> In var (variables c) ->
  exists values,
    order_domain_values c d var a = Ok values /\
    Permutation values (dom d var) /\
    forall l1 v1 l2 v2 l3 n1 n2,
      values = (l1 ++ v1 :: l2 ++ v2 :: l3)%list ->
      count_conflicts c d var a v1 = Ok n1 ->
      count_conflicts c d var a v2 = Ok n2 -> n1 <= n2.
Proof.
  intros wf S Iv.
  destruct (order_domain_values_returns c wf d var a S Iv) as [values E].
  exists values. split; [exact E |].
  split; [now apply (order_domain_values_perm c d var a) |].
  destruct (order_domain_values_inv c d var a values E)
    as [s [ks [G [M [L ->]]]]].
  intros l1 v1 l2 v2 l3 n1 n2 Q C1 C2.
  apply map_eq_app in Q. destruct Q as [L1 [R1 [Q [_ Q1]]]].
  apply map_eq_cons in Q1. destruct Q1 as [e1 [R2 [-> [F1 Q2]]]].
  apply map_eq_app in Q2. destruct Q2 as [L2 [R3 [-> [_ Q3]]]].
  apply map_eq_cons in Q3. destruct Q3 as [e2 [L3 [-> [F2 _]]]].
  pose proof (sorted_by_key_sorted (combine ks s)) as St.
  assert (key : forall e, In e (sorted_by_key (combine ks s)) ->
            count_conflicts c d var a (snd e) = Ok (fst e)).
  { intros [k v] I.
    apply (Permutation_in _ (sorted_by_key_perm (combine ks s))) in I.
    exact (mapM_combine_r _ _ _ _ _ M v k I). }
  rewrite Q in St, key. apply StronglySorted_app_r in St.
  inversion St as [| e l _ F]; subst.
  rewrite Forall_forall in F.
  assert (K12 : key_le e1 e2) by (apply F, in_elt).
  assert (K1 : count_conflicts c d var a (snd e1) = Ok (fst e1))
    by (apply key, in_elt).
  assert (K2 : count_conflicts c d var a (snd e2) = Ok (fst e2)).
  { apply key. apply in_or_app. right. right. apply in_elt. }
  unfold key_le in K12.
  assert (n1 = fst e1) by congruence. assert (n2 = fst e2) by congruence.
  lia.
Qed.

Lemma order_domain_values_ascending_witness :
  wf_crossword cw_cross = true /\
  store_ok cw_cross cross_store_nc /\
  In slot_across (variables cw_cross) /\
  exists values,
    order_domain_values cw_cross cross_store_nc slot_across [] = Ok values /\
    Permutation values (dom cross_store_nc slot_across) /\
    forall l1 v1 l2 v2 l3 n1 n2,
      values = (l1 ++ v1 :: l2 ++ v2 :: l3)%list ->
      count_conflicts cw_cross cross_store_nc slot_across [] v1 = Ok n1 ->
      count_conflicts cw_cross cross_store_nc slot_across [] v2 = Ok n2 ->
      n1 <= n2.
Proof.
  assert (S : store_ok cw_cross cross_store_nc).
  { split; [apply keys_okb_sound | apply node_consistentb_sound];
      reflexivity. }
  split; [reflexivity |]. split; [exact S |].
  split; [simpl; auto |].
  apply (order_domain_values_ascending cw_cross cross_store_nc slot_across []);
    [reflexivity | exact S | simpl; auto].
Defined.

(** X19.  The sort of [order_domain_values] is stable: words with the
    same number of conflicts are tried in the order in which the domain
    is iterated. *)
Theorem order_domain_values_stable (c : Crossword) (d : Domains) (var : Var)
  (a : Assignment) (values : list string) (n : nat) :
  order_domain_values c d var a = Ok values ->
  filter (fun v => match count_conflicts c d var a v with
                   | Ok m => Nat.eqb m n
                   | _ => false
                   end) values
  = filter (fun v => match count_conflicts c d var a v with
                     | Ok m => Nat.eqb m n
                     | _ => false
                     end) (dom d var).
Proof.
  intros E.
  destruct (order_domain_values_inv c d var a values E)
    as [s [ks [G [M [L ->]]]]].
  unfold dom. rewrite G.
  set (p := fun v : string => match count_conflicts c d var a v with
                              | Ok m => Nat.eqb m n
                              | _ => false
                              end).
  assert (key : forall l, incl l (combine ks s) ->
            filter (fun e : nat * string => p (snd e)) l
            = filter (fun e => Nat.eqb (fst e) n) l).
  { intros l I. apply filter_ext_in. intros [k v] Ie. unfold p. simpl.
    now rewrite (mapM_combine_r _ _ _ _ _ M v k (I _ Ie)). }
  rewrite (filter_map_comm _ _ snd p), key.
  - rewrite sorted_by_key_stable, <- key by apply incl_refl.
    rewrite <- (filter_map_comm _ _ snd p). now rewrite combine_snd.
  - intros e I.
    exact (Permutation_in _ (sorted_by_key_perm (combine ks s)) I).
Qed.

Lemma order_domain_values_stable_witness :
  order_domain_values cw_cross cross_store_nc slot_across []
  = Ok ["AB"; "BA"; "CD"] /\
  filter (fun v => match count_conflicts cw_cross cross_store_nc slot_across
                           [] v with
                   | Ok m => Nat.eqb m 2
                   | _ => false
                   end) ["AB"; "BA"; "CD"]
  = filter (fun v => match count_conflicts cw_cross cross_store_nc slot_across
                             [] v with
                     | Ok m => Nat.eqb m 2
                     | _ => false
                     end) (dom cross_store_nc slot_across).
Proof.
  split; [reflexivity |].
  apply (order_domain_values_stable cw_cross cross_store_nc slot_across [] 
           ["AB"; "BA"; "CD"] 2).
  reflexivity.
Defined.

(** X20.  For a slot whose neighbors are all assigned, or that has
    none, the ordering heuristic has nothing to count:
    [order_domain_values] returns the domain in the order in which it is
    iterated, and reads neither the overlap table nor any letter. *)
Theorem order_domain_values_without_open_neighbors (c : Crossword)
  (d : Domains) (var : Var) (a : Assignment) (s : list string) :
  Dict.get var d = Some s ->
  (forall n, In n (neighbors c var) -> Dict.mem n a = true) ->
  order_domain_values c d var a = Ok s.
Proof.
  intros G A.
  assert (Z : forall value, count_conflicts c d var a value = Ok 0).
  { intros value. unfold count_conflicts.
    generalize 0 as k. induction (neighbors c var) as [| n ns IH]; intros k.
    - reflexivity.
    - simpl. rewrite (A n) by now left. simpl. apply IH.
      intros m I. apply A. now right. }
  assert (M : forall l, mapM (count_conflicts c d var a) l
                        = Ok (map (fun _ => 0) l)).
  { induction l as [| v l IH]; simpl; [reflexivity |].
    now rewrite Z, IH. }
  unfold order_domain_values, Dict.getitem. rewrite G. simpl.
  rewrite M. simpl. f_equal.
  rewrite (sorted_by_key_constant 0).
  - apply combine_snd. now rewrite length_map.
  - intros [k v] I. apply in_combine_l in I. apply in_map_iff in I.
    destruct I as [_ [Q _]]. now subst k.
Qed.

Lemma order_domain_values_without_open_neighbors_witness :
  Dict.get slot_across cross_store_nc = Some ["AB"; "CD"; "BA"] /\
  (forall n, In n (neighbors cw_cross slot_across) ->
             Dict.mem n [(slot_down, "BA")] = true) /\
  order_domain_values cw_cross cross_store_nc slot_across [(slot_down, "BA")]
  = Ok ["AB"; "CD"; "BA"].
Proof.
  assert (A : forall n, In n (neighbors cw_cross slot_across) ->
                        Dict.mem n [(slot_down, "BA")] = true).
  { intros n I. vm_compute in I. destruct I as [<- | []]. reflexivity. }
  split; [reflexivity |]. split; [exact A |].
  apply (order_domain_values_without_open_neighbors cw_cross cross_store_nc
           slot_across [(slot_down, "BA")] ["AB"; "CD"; "BA"]);
    [reflexivity | exact A].
Defined.

(** X21.  [select_unassigned_variable] answers with a slot of the puzzle
    that the assignment lacks, and among those with one of fewest
    remaining values; among those with as few, with one of most
    neighbors. *)
Theorem select_unassigned_variable_minimal (c : Crossword) (d : Domains)
  (a : Assignment) (var : Var) :
  select_unassigned_variable c d a = Ok var ->
  In var (variables c) /\ Dict.mem var a = false /\
  forall x, In x (variables c) -> Dict.mem x a = false ->
    List.length (dom d var) < List.length (dom d x) \/
    (List.length (dom d var) = List.length (dom d x) /\
     List.length (neighbors c x) <= List.length (neighbors c var)).
Proof.
  intros E. destruct (select_unassigned c d a var E) as [Iv Mv].
  split; [exact Iv |]. split; [exact Mv |].
  intros x Ix Mx.
  destruct (select_inv c d a var E) as [ks [vk [l [M [Q ->]]]]].
  set (un := filter (fun var => negb (Dict.mem var a)) (variables c)) in *.
  destruct (min_by_minimal l vk) as [k [Im Min]]. rewrite <- Q in Im, Min.
  assert (Ux : In x un) by (apply filter_In; now rewrite Mx).
  destruct (combine_In_l _ _ un ks x (mapM_length _ _ _ _ _ M) Ux) as [kx Ikx].
  specialize (Min _ Ikx). simpl in Min.
  apply (mapM_combine _ _ _ _ _ M) in Im, Ikx.
  apply select_key_inv in Im, Ikx. subst k kx. key_order.
Qed.

Lemma select_unassigned_variable_minimal_witness :
  select_unassigned_variable cw_cross
    [(slot_across, ["AB"; "BA"]); (slot_down, ["AB"])] [] = Ok slot_down /\
  In slot_down (variables cw_cross) /\
  Dict.mem slot_down ([] : Assignment) = false /\
  forall x, In x (variables cw_cross) -> Dict.mem x ([] : Assignment) = false ->
    List.length (dom [(slot_across, ["AB"; "BA"]); (slot_down, ["AB"])]
                     slot_down)
    < List.length (dom [(slot_across, ["AB"; "BA"]); (slot_down, ["AB"])] x) \/
    (List.length (dom [(slot_across, ["AB"; "BA"]); (slot_down, ["AB"])]
                      slot_down)
     = List.length (dom [(slot_across, ["AB"; "BA"]); (slot_down, ["AB"])] x) /\
     List.length (neighbors cw_cross x)
     <= List.length (neighbors cw_cross slot_down)).
Proof.
  split; [reflexivity |].
  apply (select_unassigned_variable_minimal cw_cross
           [(slot_across, ["AB"; "BA"]); (slot_down, ["AB"])] [] slot_down).
  reflexivity.
Defined.

(** X22.  Among the unassigned slots with the fewest remaining values
    and the most neighbors, [select_unassigned_variable] answers with
    the one that comes first when the slots of the puzzle are iterated:
    every unassigned slot before it has more remaining values, or as
    many and fewer neighbors. *)
Theorem select_unassigned_variable_first_of_ties (c : Crossword) (d : Domains)
  (a : Assignment) (var : Var) (l1 l2 : list Var) :
  NoDup (variables c) ->
  select_unassigned_variable c d a = Ok var ->
  variables c = (l1 ++ var :: l2)%list ->
  forall x, In x l1 -> Dict.mem x a = false ->
    List.length (dom d var) < List.length (dom d x) \/
    (List.length (dom d var) = List.length (dom d x) /\
     List.length (neighbors c x) < List.length (neighbors c var)).
Proof.
  intros ND E V x Ix Mx.
  destruct (select_unassigned c d a var E) as [_ Mv].
  destruct (select_inv c d a var E) as [ks [vk [l [M [Q ->]]]]].
  set (p := fun var => negb (Dict.mem var a)) in *.
  destruct (min_by_first_minimal l vk) as [L1 [k [L2 [Q' [Before _]]]]].
  rewrite <- Q in Q'.
  assert (U : filter p (variables c)
              = (map fst L1 ++ min_by vk l :: map fst L2)%list).
  { rewrite <- (combine_fst _ _ (filter p (variables c)) ks
                  (mapM_length _ _ _ _ _ M)).
    rewrite Q', map_app. reflexivity. }
  assert (U' : filter p (variables c)
               = (filter p l1 ++ min_by vk l :: filter p l2)%list).
  { rewrite V, filter_app. simpl. unfold p at 2. now rewrite Mv. }
  assert (F : filter p l1 = map fst L1).
  { apply (NoDup_app_cons_unique _ (min_by vk l) _ (filter p l2) _
             (map fst L2)).
    - rewrite <- U'. now apply NoDup_filter.
    - now rewrite <- U', U. }
  assert (I1 : In x (map fst L1)).
  { rewrite <- F. apply filter_In. split; [exact Ix |]. unfold p.
    now rewrite Mx. }
  apply in_map_iff in I1. destruct I1 as [[x' kx] [Fx I1]].
  simpl in Fx. subst x'.
  pose proof (Before _ I1) as Lt. simpl in Lt.
  assert (Ikx : In (x, kx) (combine (filter p (variables c)) ks)).
  { rewrite Q'. apply in_or_app. now left. }
  assert (Im : In (min_by vk l, k) (combine (filter p (variables c)) ks))
    by (rewrite Q'; apply in_elt).
  apply (mapM_combine _ _ _ _ _ M) in Im, Ikx.
  apply select_key_inv in Im, Ikx. subst k kx. key_order.
Qed.

Lemma select_unassigned_variable_first_of_ties_witness :
  NoDup (variables cw_cross) /\
  select_unassigned_variable cw_cross
    [(slot_across, ["AB"; "BA"]); (slot_down, ["AB"])] [] = Ok slot_down /\
  variables cw_cross = ([slot_across] ++ slot_down :: [])%list /\
  forall x, In x [slot_across] -> Dict.mem x ([] : Assignment) = false ->
    List.length (dom [(slot_across, ["AB"; "BA"]); (slot_down, ["AB"])]
                     slot_down)
    < List.length (dom [(slot_across, ["AB"; "BA"]); (slot_down, ["AB"])] x) \/
    (List.length (dom [(slot_across, ["AB"; "BA"]); (slot_down, ["AB"])]
                      slot_down)
     = List.length (dom [(slot_across, ["AB"; "BA"]); (slot_down, ["AB"])] x) /\
     List.length (neighbors cw_cross x)
     < List.length (neighbors cw_cross slot_down)).
Proof.
  assert (ND : NoDup (variables cw_cross))
    by (eapply nodupb_NoDup; reflexivity).
  split; [exact ND |]. split; [reflexivity |]. split; [reflexivity |].
  apply (select_unassigned_variable_first_of_ties cw_cross
           [(slot_across, ["AB"; "BA"]); (slot_down, ["AB"])] [] slot_down
           [slot_across] []);
    [exact ND | reflexivity | reflexivity].
Defined.

(** X23.  On a store with an entry for every slot,
    [select_unassigned_variable] raises [ValueError], the error of
    [min] on an empty list, exactly when the assignment leaves no slot
    unassigned; otherwise it returns a slot. *)
Theorem select_unassigned_variable_raises_iff_complete (c : Crossword)
  (d : Domains) (a : Assignment) :
  keys_ok c d ->
  (select_unassigned_variable c d a = Raise ValueError <->
   assignment_complete c a = true) /\
  (assignment_complete c a = false ->
   exists var, select_unassigned_variable c d a = Ok var).
Proof.
  intros K.
  assert (R : assignment_complete c a = false ->
              exists var, select_unassigned_variable c d a = Ok var).
  { intros A. unfold select_unassigned_variable.
    set (un := filter (fun var => negb (Dict.mem var a)) (variables c)).
    destruct (mapM_returns _ _ (select_key c d) un) as [ks [-> L]].
    - intros x I. unfold un in I. apply filter_In in I. destruct I as [I _].
      apply K, keys_get in I. destruct I as [s G].
      unfold select_key, Dict.getitem. rewrite G. simpl. eauto.
    - simpl. apply forallb_false in A. destruct A as [x [I M]].
      assert (U : In x un) by (apply filter_In; now rewrite M).
      destruct un as [| u un']; [contradiction |].
      destruct ks as [| k ks]; [discriminate |]. simpl. eauto. }
  split; [split | exact R].
  - intros E. destruct (assignment_complete c a) eqn:A; [reflexivity |].
    destruct (R eq_refl) as [var E']. congruence.
  - intros A. unfold select_unassigned_variable.
    now rewrite (complete_no_unassigned c a A).
Qed.

Lemma select_unassigned_variable_raises_iff_complete_witness :
  keys_ok cw_cross cross_store /\
  (select_unassigned_variable cw_cross cross_store
     [(slot_across, "AB"); (slot_down, "BA")] = Raise ValueError <->
   assignment_complete cw_cross [(slot_across, "AB"); (slot_down, "BA")]
   = true) /\
  (assignment_complete cw_cross [(slot_across, "AB"); (slot_down, "BA")]
   = false ->
   exists var,
     select_unassigned_variable cw_cross cross_store
       [(slot_across, "AB"); (slot_down, "BA")] = Ok var).
Proof.
  split; [apply keys_okb_sound; reflexivity |].
  apply (select_unassigned_variable_raises_iff_complete cw_cross cross_store
           [(slot_across, "AB"); (slot_down, "BA")]).
  apply keys_okb_sound. reflexivity.
Defined.

(** X24.  [backtrack] builds on the assignment it is given.  The
    assignment it returns keeps every entry of the given one; every
    entry it adds gives a slot of the puzzle a word that was in the
    domain of that slot when the call began; and unless the given
    assignment was empty, the returned dictionary is not empty, so that
    the caller's [if result:] takes it for a result. *)
Theorem backtrack_extends_assignment (c : Crossword) (fuel : nat)
  (d d' : Domains) (h h' : Heap) (asg r : nat) :
  asg < next h ->
  backtrack c fuel d h asg = Ok (Some r, d', h') ->
  (forall x w, Dict.get x (deref h asg) = Some w ->
               Dict.get x (deref h' r) = Some w) /\
  (forall x w, Dict.get x (deref h' r) = Some w ->
               Dict.get x (deref h asg) = None ->
               In x (variables c) /\ In w (dom d x)) /\
  (deref h asg <> [] -> truthy h' (Some r) = true).
Proof.
  intros B E.
  destruct (backtrack_grown c fuel d h asg r d' h' B E) as [K N].
  split; [exact K |]. split.
  - intros x w G Z. destruct (N x w G) as [G' | I]; [congruence | exact I].
  - intros NE. simpl. destruct (deref h asg) as [| [x w] a] eqn:D;
      [congruence |].
    assert (G : Dict.get x (deref h' r) = Some w).
    { apply K. simpl. destruct (eq_dec x x); [reflexivity | congruence]. }
    destruct (deref h' r); [discriminate | reflexivity].
Qed.

Lemma backtrack_extends_assignment_witness :
  0 < next (snd (alloc empty_heap [(slot_across, "AB")])) /\
  exists r d' h',
    backtrack cw_cross 3 cross_store
      (snd (alloc empty_heap [(slot_across, "AB")])) 0 = Ok (Some r, d', h') /\
    (forall x w,
       Dict.get x (deref (snd (alloc empty_heap [(slot_across, "AB")])) 0)
       = Some w ->
       Dict.get x (deref h' r) = Some w) /\
    (forall x w,
       Dict.get x (deref h' r) = Some w ->
       Dict.get x (deref (snd (alloc empty_heap [(slot_across, "AB")])) 0)
       = None ->
       In x (variables cw_cross) /\ In w (dom cross_store x)) /\
    (deref (snd (alloc empty_heap [(slot_across, "AB")])) 0 <> [] ->
     truthy h' (Some r) = true).
Proof.
  split; [vm_compute; lia |].
  eexists. eexists. eexists. split; [vm_compute; reflexivity |].
  eapply (backtrack_extends_assignment cw_cross 3 cross_store _
            (snd (alloc empty_heap [(slot_across, "AB")])) _ 0 _).
  - vm_compute. lia.
  - vm_compute. reflexivity.
Defined.

(** X25.  [backtrack] completes every assignment that can be completed.
    On a node-consistent store with an entry for every slot, given an
    assignment that is part of a solution of the puzzle whose words are
    all in the domains of their slots, [backtrack] returns an
    assignment, never [None]; what it returns gives every slot a word,
    satisfies the constraints, and keeps the entries it was given. *)
Theorem backtrack_finds_extension (c : Crossword) (d : Domains) (h : Heap)
  (asg : nat) (s : Assignment) :
  wf_crossword c = true -> store_ok c d ->
  complete_assignment c s -> consistent_assignment c s -> within d s ->
  asg < next h ->
  NoDup (Dict.keys (deref h asg)) -> sub_assignment (deref h asg) s ->
  exists r d' h',
    backtrack c (S (List.length (variables c))) d h asg
    = Ok (Some r, d', h') /\
    complete_assignment c (deref h' r) /\
    consistent_assignment c (deref h' r) /\
    forall x w, Dict.get x (deref h asg) = Some w ->
                Dict.get x (deref h' r) = Some w.
Proof.
  intros wf SO SC SA W B NK Sub.
  assert (VA : valid_assignment c (deref h asg)).
  { intros x w I. apply Sub in I. split.
    - apply (proj1 SO). eapply dom_keys. apply (W x w I).
    - exact (proj1 (proj2 SA) x w I). }
  assert (C : unassigned_count c (deref h asg) < S (List.length (variables c))).
  { pose proof (unassigned_count_le c (deref h asg)). lia. }
  destruct (backtrack_returns c wf (S (List.length (variables c))) d h asg
              SO VA B C) as [r [d' [h' [E _]]]].
  destruct (backtrack_complete c wf s SC SA (S (List.length (variables c)))
              d h asg r d' h' SO W VA NK Sub B C E) as [[l ->] _].
  exists l, d', h'. split; [exact E |].
  assert (CT : consistent c (deref h asg) = Ok true).
  { apply (consistent_complete c wf); [exact NK |].
    eapply consistent_assignment_sub; eassumption. }
  destruct (backtrack_sound c _ d h asg l d' h' E CT) as [A Cl].
  split; [now apply assignment_complete_true |].
  split; [now apply consistent_true |].
  exact (proj1 (backtrack_grown c _ d h asg l d' h' B E)).
Qed.

Lemma backtrack_finds_extension_witness :
  wf_crossword cw_cross = true /\
  store_ok cw_cross cross_store_nc /\
  complete_assignment cw_cross [(slot_down, "AB"); (slot_across, "BA")] /\
  consistent_assignment cw_cross [(slot_down, "AB"); (slot_across, "BA")] /\
  within cross_store_nc [(slot_down, "AB"); (slot_across, "BA")] /\
  0 < next (snd (alloc empty_heap [(slot_across, "BA")])) /\
  NoDup (Dict.keys (deref (snd (alloc empty_heap [(slot_across, "BA")])) 0)) /\
  sub_assignment (deref (snd (alloc empty_heap [(slot_across, "BA")])) 0)
    [(slot_down, "AB"); (slot_across, "BA")] /\
  exists r d' h',
    backtrack cw_cross (S (List.length (variables cw_cross))) cross_store_nc
      (snd (alloc empty_heap [(slot_across, "BA")])) 0
    = Ok (Some r, d', h') /\
    complete_assignment cw_cross (deref h' r) /\
    consistent_assignment cw_cross (deref h' r) /\
    forall x w,
      Dict.get x (deref (snd (alloc empty_heap [(slot_across, "BA")])) 0)
      = Some w ->
      Dict.get x (deref h' r) = Some w.
Proof.
  assert (S : store_ok cw_cross cross_store_nc).
  { split; [apply keys_okb_sound | apply node_consistentb_sound];
      reflexivity. }
  assert (SC : complete_assignment cw_cross
                 [(slot_down, "AB"); (slot_across, "BA")])
    by (apply assignment_complete_true; reflexivity).
  assert (SA : consistent_assignment cw_cross
                 [(slot_down, "AB"); (slot_across, "BA")])
    by (apply consistent_true; reflexivity).
  assert (W : within cross_store_nc [(slot_down, "AB"); (slot_across, "BA")])
    by (apply withinb_sound; reflexivity).
  assert (B : 0 < next (snd (alloc empty_heap [(slot_across, "BA")])))
    by (vm_compute; lia).
  assert (NK : NoDup (Dict.keys
                 (deref (snd (alloc empty_heap [(slot_across, "BA")])) 0)))
    by (eapply nodupb_NoDup; reflexivity).
  assert (Sub : sub_assignment
                  (deref (snd (alloc empty_heap [(slot_across, "BA")])) 0)
                  [(slot_down, "AB"); (slot_across, "BA")])
    by (apply sub_assignmentb_sound; reflexivity).
  split; [reflexivity |]. split; [exact S |]. split; [exact SC |].
  split; [exact SA |]. split; [exact W |]. split; [exact B |].
  split; [exact NK |]. split; [exact Sub |].
  apply (backtrack_finds_extension cw_cross cross_store_nc
           (snd (alloc empty_heap [(slot_across, "BA")])) 0
           [(slot_down, "AB"); (slot_across, "BA")]);
    [reflexivity | exact S | exact SC | exact SA | exact W | exact B
    | exact NK | exact Sub].
Defined.

Local Close Scope string_scope.
